(** * Prediction-market pricing and settlement engine

    A shallow embedding of the pricing, bet-placement and resolution code of
    the Slack prediction-market bot, and the properties its specification
    states about it.

    Sources embedded:
    - [src/index.js]: the PostgreSQL variant ([Pricing], [Db]);
    - [src/unnamed/part_000], first file: the leaderboard variant, whose
      resolve branch also tracks profit and streaks ([Leaderboard]);
    - [src/unnamed/part_000], second file: the in-memory variant, whose
      [placeBet] passes the replaced bet as a correction term ([InMemory]).

    Numbers.  Stakes, bankrolls, counters and instants are JavaScript numbers
    holding integers: they are [Z].  Probabilities, accuracies and the market
    price are JavaScript numbers holding fractions: in [Pricing], [Db],
    [Leaderboard] and [InMemory] they are exact rationals [Q], compared with
    [==], so rounding of binary64 arithmetic is not part of these modules.
    [Binary64] embeds the same pricing code over IEEE-754 binary64 numbers
    ([PrimFloat]), which is what the program runs on: the payout of a
    stored bet is specified there, and the numeric examples are evaluated
    there to show where rounding is visible.  The [DECIMAL(5,4)] columns
    round what is written to them to four decimals; the tables of [Db] hold
    the exact value, so what is stated about a stored probability or a
    stored price is stated either for values the column holds as they are,
    or, where said so, in exact arithmetic.
    A number that may be [NaN] is an [option Q], [None] being [NaN]. *)

From Stdlib Require Import ZArith QArith Qround Lia Lqa List Bool.
From Stdlib Require Import PrimFloat FloatOps SpecFloat Uint63.
From Stdlib Require FloatAxioms.
From stdpp Require Import gmap strings list fin_maps pretty.

Set Warnings "-inexact-float".
Open Scope Z_scope.

(* ===================================================================== *)
(** * Pricing model *)
(* ===================================================================== *)

Module Pricing.

(** [calculateStake]: [Math.min(Math.max(desired_amount, 1), 100)]. *)
Definition calculateStake (desired_amount : Z) : Z :=
  Z.min (Z.max desired_amount 1) 100.

(** [current_stakes.reduce((sum, stake) => sum + stake, 0)]. *)
Definition sum_stakes (current_stakes : list Z) : Z :=
  fold_left (fun sum stake => sum + stake) current_stakes 0.

(** [current_stakes.reduce((sum, stake, i) => sum + stake * current_probs[i], sum0)].
    Both lists are consumed in step, so the head of [current_probs] is
    [current_probs[i]]; past the end of [current_probs] the operand is
    [undefined] and the sum becomes [NaN]. *)
Fixpoint reduce_weighted (sum : Q) (current_stakes : list Z) (current_probs : list Q)
  : option Q :=
  match current_stakes, current_probs with
  | [], _ => Some sum
  | stake :: stakes, prob :: probs =>
      reduce_weighted (sum + inject_Z stake * prob)%Q stakes probs
  | _ :: _, [] => None
  end.

(** [updateMarketProbability], index.js lines 210-220. *)
Definition updateMarketProbability
    (current_stakes : list Z) (current_probs : list Q)
    (new_stake : Z) (new_prob : Q) (old_stake : Z) (old_prob : Q) : option Q :=
  let current_total := sum_stakes current_stakes in
  if current_total =? 0 then Some new_prob
  else
    let new_total := current_total - old_stake + new_stake in
    let weighted_sum :=
      match reduce_weighted 0 current_stakes current_probs with
      | Some w =>
          Some (w - inject_Z old_stake * old_prob + inject_Z new_stake * new_prob)%Q
      | None => None
      end in
    if new_total =? 0 then Some (1 # 2)%Q
    else match weighted_sum with
         | Some w => Some (w / inject_Z new_total)%Q
         | None => None
         end.

(** The sum [sum(otherStakes[i] * otherProbs[i])] of the specification. *)
Fixpoint sum_products (stakes : list Z) (probs : list Q) : Q :=
  match stakes, probs with
  | stake :: stakes', prob :: probs' =>
      (inject_Z stake * prob + sum_products stakes' probs')%Q
  | _, _ => 0%Q
  end.

(** The sum [sum(otherStakes)] of the specification. *)
Fixpoint total (stakes : list Z) : Z :=
  match stakes with
  | [] => 0
  | stake :: stakes' => stake + total stakes'
  end.

End Pricing.

(* ===================================================================== *)
(** * The PostgreSQL variant (index.js) *)
(* ===================================================================== *)

Module Db.
Import Pricing.

(** ** Tables

    One record per row; the key of [users] and [markets] is the [id] column.
    [created_at] columns are not used by the code below and are left out.
    Numeric columns hold the exact value written (the rounding of the
    [DECIMAL] columns on storage is not modelled). *)

Record user_row := {
  bankroll : Z;
  total_staked : Z;
  bets_placed : Z;
  bets_won : Z;
  accuracy : Q
}.

Record market_row := {
  question : string;
  creator : string;
  deadline : Z;
  resolved : bool;
  resolution : option bool;
  resolved_at : option Z;
  probability : option Q;
  total_stake : Z;
  active : bool
}.

Record bet_row := {
  market_id : string;
  user_id : string;
  bet_stake : Z;
  bet_probability : Q;
  updated_at : Z
}.

Record db := {
  users : gmap string user_row;
  markets : gmap string market_row;
  bets : list bet_row
}.

Definition empty_db : db := {| users := ∅; markets := ∅; bets := [] |}.

Definition with_users (st : db) (u : gmap string user_row) : db :=
  {| users := u; markets := markets st; bets := bets st |}.
Definition with_markets (st : db) (m : gmap string market_row) : db :=
  {| users := users st; markets := m; bets := bets st |}.
Definition with_bets (st : db) (b : list bet_row) : db :=
  {| users := users st; markets := markets st; bets := b |}.

(** ** Queries, failures and the monad of the handlers

    Every helper of index.js sends one statement through [pool.query] inside
    [try { ... } catch (error) { console.error(...); throw error; }].  The
    statements are named by [query]; an oracle says which of them fail. *)

Inductive query :=
| SelectUser (id : string)
| InsertUser (id : string)
| UpdateUser (id : string)
| SelectMarket (id : string)
| InsertMarket (id : string)
| UpdateMarket (id : string)
| SelectBets (market : string)
| SelectBet (market user : string)
| UpsertBet (market user : string)
| Begin
| Commit.

(** What a handler can throw.  The first four are the [Error]s of [placeBet]:
    "Probability must be between 0 and 1", "Market not found or inactive",
    "Market has expired", "Insufficient bankroll. Available: $...". *)
Inductive error :=
| InvalidProbability
| MarketNotFound
| MarketExpired
| InsufficientBankroll (available_bankroll : Z)
| DuplicateId (id : string)
| PersistenceFailure (q : query).

Definition oracle := query -> bool.

(** The store on which every statement succeeds. *)
Definition reliable : oracle := fun _ => false.

Definition M (A : Type) : Type := oracle -> db -> (error + A) * db.

Definition ret {A} (a : A) : M A := fun _ st => (inr a, st).

Definition throw {A} (e : error) : M A := fun _ st => (inl e, st).

Definition bind {A B} (m : M A) (k : A -> M B) : M B :=
  fun o st =>
    match m o st with
    | (inr a, st') => k a o st'
    | (inl e, st') => (inl e, st')
    end.

Notation "'let!' x ':=' m 'in' k" := (bind m (fun x => k))
  (at level 10, x name, m at level 100, k at level 200).
Notation "'do!' m 'in' k" := (bind m (fun _ => k))
  (at level 10, m at level 100, k at level 200).

(** [try { body } catch (error) { handler(error) }]. *)
Definition try_catch {A} (body : M A) (handler : error -> M A) : M A :=
  fun o st =>
    match body o st with
    | (inr a, st') => (inr a, st')
    | (inl e, st') => handler e o st'
    end.

(** [await pool.query(q)]: throws when the oracle fails [q], otherwise runs
    the statement on the tables. *)
Definition pool_query {A} (q : query) (run : db -> A * db) : M A :=
  fun o st =>
    if o q then (inl (PersistenceFailure q), st)
    else let '(a, st') := run st in (inr a, st').

(** [BEGIN; body; COMMIT] with [ROLLBACK] in the [catch]: a failure between
    [BEGIN] and [COMMIT] undoes the writes made since [BEGIN]. *)
Definition transaction {A} (body : M A) : M A :=
  fun o st =>
    if o Begin then (inl (PersistenceFailure Begin), st)
    else match body o st with
         | (inr a, st') =>
             if o Commit then (inl (PersistenceFailure Commit), st)
             else (inr a, st')
         | (inl e, _) => (inl e, st)
         end.

(** [Promise.all(ps)] over promises started together: each one runs to its
    end whatever happens to the others, and the whole rejects with the first
    rejection.  The promises of one resolution touch different users (one
    bet per user and market), so running them in list order loses nothing. *)
Fixpoint promise_all {A} (ps : list (M A)) : M (list A) :=
  match ps with
  | [] => ret []
  | p :: rest =>
      fun o st =>
        match p o st with
        | (inr a, st1) =>
            match promise_all rest o st1 with
            | (inr l, st2) => (inr (a :: l), st2)
            | (inl e, st2) => (inl e, st2)
            end
        | (inl e, st1) => (inl e, snd (promise_all rest o st1))
        end
  end.

(** ** Database helper functions, index.js lines 83-188 *)

Definition new_user : user_row :=
  {| bankroll := 1000; total_staked := 0; bets_placed := 0; bets_won := 0;
     accuracy := (1 # 2)%Q |}.

Definition getUser (userId : string) : M user_row :=
  let! rows := pool_query (SelectUser userId) (fun st => (users st !! userId, st)) in
  match rows with
  | None =>
      do! pool_query (InsertUser userId)
            (fun st => (tt, with_users st (<[userId := new_user]> (users st)))) in
      ret new_user
  | Some row => ret row
  end.

(** [UPDATE users SET ... WHERE id = $1]; [updates] gives the row after the
    assignment of the listed columns. *)
Definition updateUser (userId : string) (updates : user_row -> user_row) : M unit :=
  pool_query (UpdateUser userId)
    (fun st => (tt, with_users st (alter updates userId (users st)))).

Definition getMarket (marketId : string) : M (option market_row) :=
  pool_query (SelectMarket marketId) (fun st => (markets st !! marketId, st)).

(** [INSERT INTO markets ...]; [id] is the primary key, so a second insert
    of the same id is refused by the store. *)
Definition createMarket (id : string) (marketData : market_row) : M unit :=
  fun o st =>
    if o (InsertMarket id) then (inl (PersistenceFailure (InsertMarket id)), st)
    else match markets st !! id with
         | Some _ => (inl (DuplicateId id), st)
         | None => (inr tt, with_markets st (<[id := marketData]> (markets st)))
         end.

Definition updateMarket (marketId : string) (updates : market_row -> market_row) : M unit :=
  pool_query (UpdateMarket marketId)
    (fun st => (tt, with_markets st (alter updates marketId (markets st)))).

Definition getMarketBets (marketId : string) : M (list bet_row) :=
  pool_query (SelectBets marketId)
    (fun st => (List.filter (fun b => String.eqb (market_id b) marketId) (bets st), st)).

Definition is_bet_of (marketId userId : string) (b : bet_row) : bool :=
  String.eqb (market_id b) marketId && String.eqb (user_id b) userId.

Definition getUserBet (marketId userId : string) : M (option bet_row) :=
  pool_query (SelectBet marketId userId)
    (fun st => (List.find (is_bet_of marketId userId) (bets st), st)).

(** [INSERT ... ON CONFLICT (market_id, user_id) DO UPDATE SET ...]. *)
Fixpoint upsert (row : bet_row) (rows : list bet_row) : list bet_row :=
  match rows with
  | [] => [row]
  | b :: rest =>
      if is_bet_of (market_id row) (user_id row) b then row :: rest
      else b :: upsert row rest
  end.

(** The row is written with the probability as given; the column, a
    [DECIMAL(5,4)], keeps it as it is when it is a number of
    ten-thousandths and rounds it to one otherwise. *)
Definition upsertBet (now : Z) (marketId userId : string) (stake : Z) (probability : Q)
  : M unit :=
  pool_query (UpsertBet marketId userId)
    (fun st =>
       (tt, with_bets st
              (upsert {| market_id := marketId; user_id := userId; bet_stake := stake;
                         bet_probability := probability; updated_at := now |}
                      (bets st)))).

(** ** Bet placement, index.js lines 222-304 *)

(** What [placeBet] returns ([message] is a rendering of [stake_placed] and
    [was_capped] and is left out). *)
Record placed := {
  stake_placed : Z;
  new_market_probability : option Q;
  was_capped : bool;
  placed_user : user_row;
  placed_market : option market_row
}.

(** Lines 250-264: the price after the bet, from the bets of everybody else
    and the new bet, with no correction term.  In exact arithmetic; the
    sums the program makes are those of [Binary64.Db_placeBet_new_prob]. *)
Definition placeBet_new_prob (all_bets : list bet_row) (userId : string)
    (stake : Z) (probability : Q) : option Q :=
  let other_bets := List.filter (fun b => negb (String.eqb (user_id b) userId)) all_bets in
  let current_stakes := map bet_stake other_bets in
  let current_probs := map bet_probability other_bets in
  updateMarketProbability current_stakes current_probs stake probability 0 0.

(** The market row with a new price and a new total; the price is kept as
    computed, where the column, a [DECIMAL(5,4)], rounds it to four
    decimals. *)
Definition set_price (new_prob : option Q) (new_total_stake : Z) (m : market_row) : market_row :=
  {| question := question m; creator := creator m; deadline := deadline m;
     resolved := resolved m; resolution := resolution m; resolved_at := resolved_at m;
     probability := new_prob; total_stake := new_total_stake; active := active m |}.

Definition set_total_staked (v : Z) (u : user_row) : user_row :=
  {| bankroll := bankroll u; total_staked := v; bets_placed := bets_placed u;
     bets_won := bets_won u; accuracy := accuracy u |}.

Definition stake_of (old_bet : option bet_row) : Z :=
  match old_bet with Some b => bet_stake b | None => 0 end.

Definition placeBet (now : Z) (marketId userId : string) (desired_amount : Z)
    (probability : Q) : M placed :=
  if negb (Qle_bool 0 probability) || negb (Qle_bool probability 1)
  then throw InvalidProbability
  else
    let! market := getMarket marketId in
    match market with
    | None => throw MarketNotFound
    | Some market =>
        if negb (active market) then throw MarketNotFound
        else if deadline market <? now then throw MarketExpired
        else
          let stake := calculateStake desired_amount in
          let! user := getUser userId in
          let! old_bet := getUserBet marketId userId in
          let available_bankroll :=
            bankroll user - total_staked user + stake_of old_bet in
          if available_bankroll <? stake
          then throw (InsufficientBankroll available_bankroll)
          else
            let! all_bets := getMarketBets marketId in
            let new_prob := placeBet_new_prob all_bets userId stake probability in
            let old_stake := stake_of old_bet in
            let new_total_stake := total_stake market - old_stake + stake in
            do! transaction (
                  do! upsertBet now marketId userId stake probability in
                  do! updateMarket marketId (set_price new_prob new_total_stake) in
                  let net_stake_change := stake - old_stake in
                  updateUser userId
                    (set_total_staked (total_staked user + net_stake_change))) in
            let! user' := getUser userId in
            let! market' := getMarket marketId in
            ret {| stake_placed := stake;
                   new_market_probability := new_prob;
                   was_capped := stake <? desired_amount;
                   placed_user := user';
                   placed_market := market' |}
    end.

(** ** The [/predict] command, index.js lines 422-712 *)

(** What the command answers with [respond]. *)
Inductive reply :=
| OnlyAdmins
| NoSuchMarket
| AlreadyResolved
| NoBets
| MarketResolved (payoutSummary : list (string * Z * Q))
| InvalidDeadline
| MarketCreated (marketId : string)
| ErrorReply (e : error).

(** Lines 479-480. *)
Definition bet_accuracy (outcome : bool) (b : bet_row) : Q :=
  if outcome then bet_probability b else (1 - bet_probability b)%Q.

(** The floor of the exact product.  The program floors the binary64
    product, [Binary64.bet_payout], which is this number or one less. *)
Definition bet_payout (outcome : bool) (b : bet_row) : Z :=
  Qfloor (inject_Z (bet_stake b) * (1 + bet_accuracy outcome b))%Q.

(** Line 483; [x > 0.5] is [not (x <= 0.5)]. *)
Definition wasCorrect (outcome : bool) (b : bet_row) : bool :=
  (outcome && negb (Qle_bool (bet_probability b) (1 # 2)))
  || (negb outcome && negb (Qle_bool (1 # 2) (bet_probability b))).

(** Lines 484-494: the row written for the bettor, from the row read. *)
Definition settled (outcome : bool) (b : bet_row) (user : user_row) : user_row :=
  let payout := bet_payout outcome b in
  let newBetsWon := bets_won user + (if wasCorrect outcome b then 1 else 0) in
  let newBetsPlaced := bets_placed user + 1 in
  let newAccuracy := (inject_Z newBetsWon / inject_Z newBetsPlaced)%Q in
  {| bankroll := bankroll user + payout;
     total_staked := total_staked user - bet_stake b;
     bets_placed := newBetsPlaced;
     bets_won := newBetsWon;
     accuracy := newAccuracy |}.

(** Lines 477-497: the promise made for one bet. *)
Definition payout_promise (outcome : bool) (b : bet_row) : M (string * Z * Q) :=
  let! user := getUser (user_id b) in
  do! updateUser (user_id b) (fun _ => settled outcome b user) in
  ret (user_id b, bet_payout outcome b, bet_accuracy outcome b).

Definition set_resolved (outcome : bool) (now : Z) (m : market_row) : market_row :=
  {| question := question m; creator := creator m; deadline := deadline m;
     resolved := true; resolution := Some outcome; resolved_at := Some now;
     probability := probability m; total_stake := total_stake m; active := active m |}.

(** Lines 435-516: [/predict resolve marketId yes|no]. *)
Definition predict_resolve (isAdmin : bool) (now : Z) (marketId : string) (outcome : bool)
  : M reply :=
  if negb isAdmin then ret OnlyAdmins
  else
    try_catch
      (let! market := getMarket marketId in
       match market with
       | None => ret NoSuchMarket
       | Some market =>
           if resolved market then ret AlreadyResolved
           else
             let! bets := getMarketBets marketId in
             if (length bets =? 0)%nat then ret NoBets
             else
               let! payoutSummary := promise_all (map (payout_promise outcome) bets) in
               do! updateMarket marketId (set_resolved outcome now) in
               ret (MarketResolved payoutSummary)
       end)
      (fun e => ret (ErrorReply e)).

(** Lines 519-604: [/predict create question | date], after parsing.
    [now] is the instant of [Date.now()] and [new Date()]; [deadline] is
    [new Date(parsed.deadline)]. *)
Definition predict_create (now : Z) (question_text creator_id : string) (deadline_at : Z)
  : M reply :=
  let marketId := "market_" +:+ pretty now in
  try_catch
    (if deadline_at <? now then ret InvalidDeadline
     else
       let marketData :=
         {| question := question_text; creator := creator_id; deadline := deadline_at;
            resolved := false; resolution := None; resolved_at := None;
            probability := Some (1 # 2)%Q; total_stake := 0; active := true |} in
       do! createMarket marketId marketData in
       ret (MarketCreated marketId))
    (fun e => ret (ErrorReply e)).

End Db.

(* ===================================================================== *)
(** * The leaderboard variant: resolution with profit and streaks *)
(* ===================================================================== *)

Module Leaderboard.
Import Db.

(** A row of [users] after the migration.  The columns added by
    [migrateDatabase] are optional: [None] is a column the row does not
    have ([undefined] in the object read by [getUser]), and arithmetic on
    it gives [NaN], again [None]. *)
Record user_row := {
  bankroll : Z;
  total_staked : Z;
  bets_placed : Z;
  bets_won : Z;
  accuracy : Q;
  total_profit : option Z;
  biggest_win : option Z;
  prediction_streak : option Z;
  best_streak : option Z;
  markets_created : option Z
}.

(** The row [getUser] inserts and returns for a new user, lines 157-173. *)
Definition new_user : user_row :=
  {| bankroll := 1000; total_staked := 0; bets_placed := 0; bets_won := 0;
     accuracy := (1 # 2)%Q; total_profit := Some 0; biggest_win := Some 0;
     prediction_streak := Some 0; best_streak := Some 0; markets_created := Some 0 |}.

(** [x || 0]. *)
Definition or_zero (x : option Z) : Z :=
  match x with Some v => v | None => 0 end.

(** Lines 877-907: the row written for the bettor, from the row read.  The
    payout, the accuracy and [wasCorrect] are the expressions of index.js. *)
Definition settled (outcome : bool) (b : bet_row) (user : user_row) : user_row :=
  let payout := bet_payout outcome b in
  let profit := payout - bet_stake b in
  let newBetsWon := bets_won user + (if wasCorrect outcome b then 1 else 0) in
  let newBetsPlaced := bets_placed user + 1 in
  let newAccuracy :=
    if 0 <? newBetsPlaced then (inject_Z newBetsWon / inject_Z newBetsPlaced)%Q
    else (1 # 2)%Q in
  let newStreak :=
    if wasCorrect outcome b
    then match prediction_streak user with Some k => Some (k + 1) | None => None end
    else Some 0 in
  let newBestStreak :=
    match newStreak with
    | Some k => Some (Z.max (or_zero (best_streak user)) k)
    | None => None
    end in
  match total_profit user with
  | Some _ =>
      {| bankroll := bankroll user + payout;
         total_staked := total_staked user - bet_stake b;
         bets_placed := newBetsPlaced;
         bets_won := newBetsWon;
         accuracy := newAccuracy;
         total_profit := Some (or_zero (total_profit user) + profit);
         biggest_win := Some (Z.max (or_zero (biggest_win user)) payout);
         prediction_streak := newStreak;
         best_streak := newBestStreak;
         markets_created := markets_created user |}
  | None =>
      {| bankroll := bankroll user + payout;
         total_staked := total_staked user - bet_stake b;
         bets_placed := newBetsPlaced;
         bets_won := newBetsWon;
         accuracy := newAccuracy;
         total_profit := total_profit user;
         biggest_win := biggest_win user;
         prediction_streak := prediction_streak user;
         best_streak := best_streak user;
         markets_created := markets_created user |}
  end.

End Leaderboard.

(* ===================================================================== *)
(** * The in-memory variant: the price computed by [placeBet] *)
(* ===================================================================== *)

Module InMemory.
Import Pricing.

(** An element of [market.bets]. *)
Record bet := {
  userId : string;
  stake : Z;
  probability : Q;
  timestamp : Z
}.

(** Lines 1256 and 1263-1275 of [placeBet]: every bet of the market goes
    into the lists, and the bet being replaced is passed as
    [old_stake]/[old_prob]. *)
Definition placeBet_new_prob (market_bets : list bet) (user_id : string)
    (new_stake : Z) (new_probability : Q) : option Q :=
  let old_bet := List.find (fun b => String.eqb (userId b) user_id) market_bets in
  let current_stakes := map stake market_bets in
  let current_probs := map probability market_bets in
  updateMarketProbability current_stakes current_probs new_stake new_probability
    (match old_bet with Some b => stake b | None => 0 end)
    (match old_bet with Some b => probability b | None => 0%Q end).

(** The bet a row of the [bets] table stands for. *)
Definition of_row (b : Db.bet_row) : bet :=
  {| userId := Db.user_id b; stake := Db.bet_stake b;
     probability := Db.bet_probability b; timestamp := Db.updated_at b |}.

End InMemory.

(* ===================================================================== *)
(** * The pricing code on binary64 numbers *)
(* ===================================================================== *)

Module Binary64.

Local Open Scope float_scope.

Record bet := {
  userId : string;
  stake : float;
  probability : float
}.

Definition sum_stakes (current_stakes : list float) : float :=
  fold_left (fun sum stake => sum + stake) current_stakes 0.

(** [current_probs[i]] past the end is [undefined], [NaN] in a product. *)
Fixpoint reduce_weighted (sum : float) (current_stakes current_probs : list float) : float :=
  match current_stakes with
  | [] => sum
  | stake :: stakes => reduce_weighted (sum + stake * hd nan current_probs) stakes (tl current_probs)
  end.

Definition updateMarketProbability (current_stakes current_probs : list float)
    (new_stake new_prob old_stake old_prob : float) : float :=
  let current_total := sum_stakes current_stakes in
  if current_total =? 0 then new_prob
  else
    let new_total := current_total - old_stake + new_stake in
    let weighted_sum :=
      reduce_weighted 0 current_stakes current_probs
      - old_stake * old_prob + new_stake * new_prob in
    if new_total =? 0 then 0.5 else weighted_sum / new_total.

(** [x || 0] on a number: [0] and [NaN] are falsy. *)
Definition or_zero (x : float) : float :=
  if is_nan x || (x =? 0) then 0 else x.

(** index.js lines 250-264. *)
Definition Db_placeBet_new_prob (all_bets : list bet) (user_id : string)
    (new_stake new_probability : float) : float :=
  let other_bets := List.filter (fun b => negb (String.eqb (userId b) user_id)) all_bets in
  updateMarketProbability (map stake other_bets) (map probability other_bets)
    new_stake new_probability 0 0.

(** In-memory variant, lines 1256 and 1263-1275. *)
Definition InMemory_placeBet_new_prob (market_bets : list bet) (user_id : string)
    (new_stake new_probability : float) : float :=
  let old_bet := List.find (fun b => String.eqb (userId b) user_id) market_bets in
  updateMarketProbability (map stake market_bets) (map probability market_bets)
    new_stake new_probability
    (match old_bet with Some b => or_zero (stake b) | None => 0 end)
    (match old_bet with Some b => or_zero (probability b) | None => 0 end).

(** [Math.floor] as an integer; [None] on [NaN] and the infinities. *)
Definition floor (x : float) : option Z :=
  match Prim2SF x with
  | S754_zero _ => Some 0%Z
  | S754_finite s m e =>
      let n := if s then Zneg m else Zpos m in
      Some (if (0 <=? e)%Z then n * 2 ^ e else n / 2 ^ (- e))%Z
  | _ => None
  end.

(** [bet.stake * (1 + accuracy)] and [Math.floor] of it, index.js lines
    479-480. *)
Definition payout_before_floor (outcome : bool) (b : bet) : float :=
  let accuracy := if outcome then probability b else 1 - probability b in
  stake b * (1 + accuracy).

Definition bet_payout (outcome : bool) (b : bet) : option Z :=
  floor (payout_before_floor outcome b).

(** The number an [INTEGER] column holds.  A [DECIMAL(5,4)] column that
    holds [k] ten-thousandths is read through [parseFloat], which gives the
    binary64 number nearest to [k / 10000]: that is [of_Z k / 10000]. *)
Definition of_Z (z : Z) : float := PrimFloat.of_uint63 (Uint63.of_Z z).

End Binary64.

(* ===================================================================== *)
(** * A check of the payouts of all stored bets *)
(* ===================================================================== *)

(** The payout of a stored bet depends on its stake, one of 100 integers,
    its probability, one of 10001 numbers, and the outcome.  The functions
    below evaluate the payout for one such bet with the primitive
    operations on binary64 numbers and compare it with the exact product
    in integer arithmetic; the theorem on payouts runs them on every bet. *)

Module PayoutCheck.
Import Binary64.

(** The value [m * 2^e] of a finite binary64 number, as a multiple of the
    smallest positive one, [2^-1074]. *)
Definition scaled (m : positive) (e : Z) : Z := Zpos m * 2 ^ (e + 1074).

(** [n <= x < n + 1] on binary64 numbers, for an integer [n]. *)
Definition brackets (n : int) (x : float) : bool :=
  (of_uint63 n <=? x)%float && (x <? of_uint63 (n + 1)%uint63)%float.

(** The binary64 numbers of [n] and [n + 1] hold these integers exactly. *)
Definition holds_integer (n : int) : bool :=
  match Prim2SF (of_uint63 n), Prim2SF (of_uint63 (n + 1)%uint63) with
  | S754_finite false m e, S754_finite false m' e' =>
      (scaled m e =? to_Z n * 2 ^ 1074) && (scaled m' e' =? (to_Z n + 1) * 2 ^ 1074)
  | _, _ => false
  end.

(** The integers a payout can be. *)
Definition payouts : list int :=
  map (fun i => Uint63.of_Z (Z.of_nat i)) (seq 1 200).

(** The integer nearest to [x], for [0 <= x < 2^51]: the mantissa of
    [x + 2^52] less [2^52]. *)
Definition nearest (x : float) : int :=
  (normfr_mantissa (fst (frshiftexp (x + 4503599627370496)%float)) - 4503599627370496)%uint63.

(** The integer [n] with [n <= x < n + 1], looked for at the nearest
    integer and the one below it. *)
Definition floor_int (x : float) : option int :=
  let n := nearest x in
  if brackets n x then Some n
  else if brackets (n - 1)%uint63 x then Some (n - 1)%uint63
  else None.

(** The stakes and the ten-thousandths of the probabilities of the stored
    bets. *)
Definition stakes : list int := map (fun i => Uint63.of_Z (Z.of_nat i)) (seq 1 100).
Definition ten_thousandths : list int :=
  map (fun i => Uint63.of_Z (Z.of_nat i)) (seq 0 (Z.to_nat 10001)).

(** The payout of the stake [s] at the probability [k / 10000]: found, at
    least the stake, at most 200, the floor of the exact product
    [s * (10000 + k) / 10000] (or [s * (20000 - k) / 10000]) or one less,
    and twice the stake when the exact product is. *)
Definition payout_checked (outcome : bool) (s k : int) : bool :=
  let b := {| userId := EmptyString; stake := of_uint63 s;
              probability := (of_uint63 k / 10000)%float |} in
  let product := (if outcome then s * (10000 + k) else s * (20000 - k))%uint63 in
  match floor_int (payout_before_floor outcome b) with
  | Some n =>
      ((s <=? n) && (n <=? 200) && (n * 10000 <=? product)
       && (product <? (n + 2) * 10000)
       && (if product =? s * 20000 then n =? 2 * s else true))%uint63
  | None => false
  end.

Definition row_checked (k : int) : bool :=
  forallb (fun s => payout_checked true s k && payout_checked false s k) stakes.

End PayoutCheck.


(* ===================================================================== *)
(** * The ledger as a transition system *)
(* ===================================================================== *)

Module Ledger.
Import Pricing Db.

(** The rows of [bets] of one market: what [getMarketBets] selects. *)
Definition bets_on (marketId : string) (st : db) : list bet_row :=
  List.filter (fun b => String.eqb (market_id b) marketId) (bets st).

(** The key of the [UNIQUE(market_id, user_id)] constraint. *)
Definition key (b : bet_row) : string * string := (market_id b, user_id b).

(** A bet is open while its market is not resolved. *)
Definition is_open (st : db) (b : bet_row) : bool :=
  match markets st !! market_id b with
  | Some m => negb (resolved m)
  | None => false
  end.

(** The sum of the stakes of the open bets of a user. *)
Definition open_stake (st : db) (userId : string) : Z :=
  total (map bet_stake
           (List.filter (fun b => String.eqb (user_id b) userId && is_open st b) (bets st))).

(** The bets of everybody but [u]: the [filter] of [placeBet]. *)
Definition others (u : string) (rows : list bet_row) : list bet_row :=
  List.filter (fun b => negb (String.eqb (user_id b) u)) rows.

(** The stake-weighted mean of the probabilities of a list of bets. *)
Definition total_of (l : list bet_row) : Z := total (map bet_stake l).
Definition weighted_of (l : list bet_row) : Q :=
  sum_products (map bet_stake l) (map bet_probability l).
Definition mean (l : list bet_row) : Q := (weighted_of l / inject_Z (total_of l))%Q.

(** The requests the engine serves. *)
Inductive command :=
| Create (now : Z) (question_text creator_id : string) (deadline_at : Z)
| Place (now : Z) (marketId userId : string) (desired_amount : Z) (probability : Q)
| Resolve (isAdmin : bool) (now : Z) (marketId : string) (outcome : bool).

(** The tables after a request, on a store that fails as [o] says. *)
Definition exec (c : command) (o : oracle) (st : db) : db :=
  match c with
  | Create now question_text creator_id deadline_at =>
      snd (predict_create now question_text creator_id deadline_at o st)
  | Place now marketId userId desired_amount probability =>
      snd (placeBet now marketId userId desired_amount probability o st)
  | Resolve isAdmin now marketId outcome =>
      snd (predict_resolve isAdmin now marketId outcome o st)
  end.

(** The states of the tables that requests can produce from empty tables,
    whatever statements fail on the way. *)
Inductive reachable : db -> Prop :=
| reachable_empty : reachable empty_db
| reachable_exec (c : command) (o : oracle) (st : db) :
    reachable st -> reachable (exec c o st).

(** What holds of the tables in every reachable state. *)
Record consistent (st : db) : Prop := {
  one_bet_per_user_and_market :
    NoDup (map key (bets st));
  stakes_clamped : Forall (fun b => 1 <= bet_stake b <= 100) (bets st);
  probabilities_valid :
    Forall (fun b => 0 <= bet_probability b /\ bet_probability b <= 1)%Q (bets st);
  bettors_exist : Forall (fun b => is_Some (users st !! user_id b)) (bets st);
  bet_markets_exist : Forall (fun b => is_Some (markets st !! market_id b)) (bets st);
  price_is_mean :
    forall (id : string) (m : market_row),
      markets st !! id = Some m ->
      bets_on id st <> [] ->
      exists q, probability m = Some q /\ (q == mean (bets_on id st))%Q
}.

(** A run of requests on the reliable store. *)
Definition run (cs : list command) (st : db) : db :=
  fold_left (fun st c => exec c reliable st) cs st.

(** ** What [placeBet] leaves behind *)

(** The row [getUser] returns and the tables it leaves: an unknown user is
    inserted with the default row. *)
Definition user_read (u : string) (st : db) : user_row :=
  match users st !! u with Some row => row | None => new_user end.

Definition after_getUser (u : string) (st : db) : db :=
  match users st !! u with
  | Some _ => st
  | None => with_users st (<[u := new_user]> (users st))
  end.

(** The [availableBankroll] of the specification. *)
Definition available_bankroll (m u : string) (st : db) : Z :=
  bankroll (user_read u st) - total_staked (user_read u st)
  + stake_of (List.find (is_bet_of m u) (bets st)).

(** The tables after the three writes of the transaction of [placeBet]. *)
Definition place_commit (now : Z) (m u : string) (stake : Z) (p : Q)
    (market : market_row) (user : user_row) (st1 : db) : db :=
  let old_bet := List.find (is_bet_of m u) (bets st1) in
  let new_prob := placeBet_new_prob (bets_on m st1) u stake p in
  {| users := alter (set_total_staked (total_staked user + (stake - stake_of old_bet))) u
                (users st1);
     markets := alter (set_price new_prob (total_stake market - stake_of old_bet + stake)) m
                  (markets st1);
     bets := upsert {| market_id := m; user_id := u; bet_stake := stake;
                       bet_probability := p; updated_at := now |} (bets st1) |}.

(** The outcomes of [placeBet]: it throws and leaves the tables as they
    were, or as they were after [getUser]; or all its checks passed and the
    transaction was committed. *)
Inductive placed_state (now : Z) (m u : string) (amt : Z) (p : Q) (st : db)
  : (error + placed) -> db -> Prop :=
| placed_refused e : placed_state now m u amt p st (inl e) st
| placed_refused_after_getUser e :
    placed_state now m u amt p st (inl e) (after_getUser u st)
| placed_committed res market :
    Qle_bool 0 p = true -> Qle_bool p 1 = true ->
    markets st !! m = Some market ->
    active market = true ->
    (deadline market <? now) = false ->
    (available_bankroll m u st <? calculateStake amt) = false ->
    (forall r, res = inr r ->
       new_market_probability r
       = placeBet_new_prob (bets_on m st) u (calculateStake amt) p) ->
    placed_state now m u amt p st res
      (place_commit now m u (calculateStake amt) p market (user_read u st)
         (after_getUser u st)).

(** ** The stake invariant *)

(** What every user has staked is the sum of the stakes of their open bets. *)
Definition staked_is_open_stake (st : db) : Prop :=
  forall (u : string) (row : user_row),
    users st !! u = Some row -> total_staked row = open_stake st u.

(** A request that places no bet on a resolved market. *)
Definition on_open_market (c : command) (st : db) : Prop :=
  match c with
  | Place _ m _ _ _ => forall row, markets st !! m = Some row -> resolved row = false
  | _ => True
  end.

(** The states reached on the reliable store by such requests. *)
Inductive reachable_on_open_markets : db -> Prop :=
| open_markets_empty : reachable_on_open_markets empty_db
| open_markets_exec (c : command) (st : db) :
    reachable_on_open_markets st ->
    on_open_market c st ->
    reachable_on_open_markets (exec c reliable st).

(** ** Requests that leave bets and prices alone

    [st'] extends [st]: same bets, no user and no market lost, no price
    changed. *)
Definition extends (st st' : db) : Prop :=
  bets st' = bets st
  /\ (forall u, is_Some (users st !! u) -> is_Some (users st' !! u))
  /\ (forall id m, markets st !! id = Some m ->
        exists m', markets st' !! id = Some m' /\ probability m' = probability m).

Definition preserves {A} (c : M A) : Prop :=
  forall (o : oracle) (st : db), extends st (snd (c o st)).

End Ledger.

(* ===================================================================== *)
(** * Concrete runs *)
(* ===================================================================== *)

Module Scenario.
Import Db Ledger.

(** A market created at instant 1000 with its deadline at 5000. *)
Definition created : db :=
  exec (Create 1000 "Will we ship?" "carol" 5000) reliable empty_db.

(** Alice stakes 40 at 0.6, then Bob stakes 60 at 0.9. *)
Definition alice_bet : db :=
  exec (Place 1001 "market_1000" "alice" 40 (6 # 10)) reliable created.
Definition both_bet : db :=
  exec (Place 1002 "market_1000" "bob" 60 (9 # 10)) reliable alice_bet.

(** The market is resolved YES on a store where everything succeeds. *)
Definition resolved_yes : db :=
  exec (Resolve true 1003 "market_1000" true) reliable both_bet.

(** Alice raises her bet to 90 after the resolution, before the deadline. *)
Definition alice_bets_again : db :=
  exec (Place 1004 "market_1000" "alice" 90 (6 # 10)) reliable resolved_yes.

(** A store on which the [UPDATE] of Bob's row fails. *)
Definition bob_update_fails : oracle :=
  fun q => match q with UpdateUser id => String.eqb id "bob" | _ => false end.

(** A store on which the [UPDATE] of the market row fails. *)
Definition market_update_fails : oracle :=
  fun q => match q with UpdateMarket _ => true | _ => false end.

(** Ten markets, created at instants 1 to 10 with their deadline at 5000,
    and Alice staking 100 at 0.5 on each of them: her whole bankroll. *)
Definition ten_markets : list command :=
  map (fun i => Create i "Will we ship?" "carol" 5000) [1; 2; 3; 4; 5; 6; 7; 8; 9; 10].
Definition ten_bets : list command :=
  map (fun i => Place 20 ("market_" +:+ pretty i) "alice" 100 (1 # 2))
      [1; 2; 3; 4; 5; 6; 7; 8; 9; 10].
Definition alice_all_in : db :=
  run (ten_markets ++ ten_bets ++ [Create 11 "One more?" "carol" 5000]) empty_db.

End Scenario.

(* ===================================================================== *)
(** * The books: what the rows add up to *)
(* ===================================================================== *)

Module Books.
Import Pricing Db Ledger.

(** The [total_stake] of every market is the sum of the stakes of its bets. *)
Definition totals_agree (st : db) : Prop :=
  forall (id : string) (m : market_row),
    markets st !! id = Some m -> total_stake m = total_of (bets_on id st).

(** A row that never lost money and has not staked more than it holds. *)
Definition solvent (row : user_row) : Prop :=
  1000 <= bankroll row /\ total_staked row <= bankroll row.

(** A row whose counters and stored accuracy fit together. *)
Definition stats_agree (row : user_row) : Prop :=
  0 <= bets_won row <= bets_placed row
  /\ (bets_placed row = 0 -> (accuracy row == 1 # 2)%Q)
  /\ (0 < bets_placed row ->
      (accuracy row == inject_Z (bets_won row) / inject_Z (bets_placed row))%Q).

(** Every row of [users] satisfies [G]. *)
Definition accounts (G : user_row -> Prop) (st : db) : Prop :=
  forall (u : string) (row : user_row), users st !! u = Some row -> G row.

(** A market nobody has bet on is at the price it was created with. *)
Definition untouched_price (st : db) : Prop :=
  forall (id : string) (m : market_row),
    markets st !! id = Some m -> bets_on id st = [] -> probability m = Some (1 # 2)%Q.

(** The tables after the payout of one bet, when both of its statements
    succeed. *)
Definition paid (outcome : bool) (b : bet_row) (st : db) : db :=
  with_users (after_getUser (user_id b) st)
    (alter (fun _ => settled outcome b (user_read (user_id b) st)) (user_id b)
       (users (after_getUser (user_id b) st))).

(** The tables after the payouts of a list of bets, one after the other. *)
Definition all_paid (outcome : bool) (rows : list bet_row) (st : db) : db :=
  fold_left (fun s b => paid outcome b s) rows st.

(** The tables after a resolution in which every statement succeeded. *)
Definition resolved_state (outcome : bool) (now : Z) (m : string) (st : db) : db :=
  let st1 := all_paid outcome (bets_on m st) st in
  with_markets st1 (alter (set_resolved outcome now) m (markets st1)).

(** The id [/predict create] gives to the market made at the instant
    [now]. *)
Definition market_id_at (now : Z) : string := "market_" +:+ pretty now.

(** What a market row is in every reachable state: made at an instant that
    is not after its deadline, active, and with an outcome and an instant
    of resolution exactly when it is resolved. *)
Definition market_well_formed (id : string) (m : market_row) : Prop :=
  (exists now, id = market_id_at now /\ now <= deadline m)
  /\ active m = true
  /\ (resolved m = false -> resolution m = None /\ resolved_at m = None)
  /\ (resolved m = true -> is_Some (resolution m) /\ is_Some (resolved_at m)).

(** One request takes a market row to another. *)
Inductive market_step (m : market_row) : market_row -> Prop :=
| market_kept : market_step m m
| market_priced new_prob new_total_stake :
    market_step m (set_price new_prob new_total_stake m)
| market_closed outcome now :
    resolved m = false -> market_step m (set_resolved outcome now m).

(** The row [placeBet] has [upsertBet] write for the amount asked for. *)
Definition bet_written (now : Z) (m u : string) (amt : Z) (p : Q) : bet_row :=
  {| market_id := m; user_id := u; bet_stake := calculateStake amt;
     bet_probability := p; updated_at := now |}.

(** What [placeBet] returns when it returns: the stake after clamping, the
    new price, whether the stake was capped, and the two rows read back. *)
Definition placed_result (m u : string) (amt : Z) (p : Q)
    (market : market_row) (st : db) : placed :=
  let stake := calculateStake amt in
  let old_stake := stake_of (List.find (is_bet_of m u) (bets st)) in
  let new_prob := placeBet_new_prob (bets_on m st) u stake p in
  {| stake_placed := stake;
     new_market_probability := new_prob;
     was_capped := stake <? amt;
     placed_user :=
       set_total_staked (total_staked (user_read u st) + (stake - old_stake))
         (user_read u st);
     placed_market :=
       Some (set_price new_prob (total_stake market - old_stake + stake) market) |}.

(** What an error of [placeBet] says about the request. *)
Definition justified (now : Z) (m u : string) (amt : Z) (p : Q) (o : oracle) (st : db)
    (e : error) : Prop :=
  match e with
  | InvalidProbability => Qle_bool 0 p && Qle_bool p 1 = false
  | MarketNotFound =>
      markets st !! m = None
      \/ exists market, markets st !! m = Some market /\ active market = false
  | MarketExpired =>
      exists market, markets st !! m = Some market /\ deadline market < now
  | InsufficientBankroll available =>
      available = available_bankroll m u st /\ available < calculateStake amt
  | DuplicateId _ => False
  | PersistenceFailure q => o q = true
  end.

(** The value a call of [placeBet] has returned, for the runs on concrete
    tables. *)
Definition returned (res : error + placed) : placed :=
  match res with
  | inr r => r
  | inl _ =>
      {| stake_placed := 0; new_market_probability := None; was_capped := false;
         placed_user := new_user; placed_market := None |}
  end.

(** The columns of a row of the leaderboard variant that index.js has too. *)
Definition base_columns (row : Leaderboard.user_row) : user_row :=
  {| bankroll := Leaderboard.bankroll row;
     total_staked := Leaderboard.total_staked row;
     bets_placed := Leaderboard.bets_placed row;
     bets_won := Leaderboard.bets_won row;
     accuracy := Leaderboard.accuracy row |}.

(** The line of the payout summary for one bet, index.js line 496. *)
Definition summary_line (outcome : bool) (b : bet_row) : string * Z * Q :=
  (user_id b, bet_payout outcome b, bet_accuracy outcome b).

(** The row [createMarket] is given by the create branch. *)
Definition fresh_market (question_text creator_id : string) (deadline_at : Z) : market_row :=
  {| question := question_text; creator := creator_id; deadline := deadline_at;
     resolved := false; resolution := None; resolved_at := None;
     probability := Some (1 # 2)%Q; total_stake := 0; active := true |}.

End Books.

(* ===================================================================== *)
(** * The text of a command and of a button *)
(* ===================================================================== *)

Module Text.
Import Stdlib.Strings.Ascii.

Local Open Scope string_scope.

(** [s.includes(needle)]; [s.startsWith(p)] is [String.prefix p s]. *)
Fixpoint includes (needle s : string) : bool :=
  match s with
  | EmptyString => String.prefix needle s
  | String _ rest => String.prefix needle s || includes needle rest
  end.

(** [\d]. *)
Definition is_digit (c : ascii) : bool :=
  Ascii.leb "0" c && Ascii.leb c "9".

(** [s.match(/market_\d+/)] as a truth value: somewhere in [s] stands
    [market_] followed by a digit. *)
Definition market_id_here (s : string) : bool :=
  String.prefix "market_" s
  && match String.get 7 s with Some c => is_digit c | None => false end.

Fixpoint matches_market_id (s : string) : bool :=
  match s with
  | EmptyString => false
  | String _ rest => market_id_here s || matches_market_id rest
  end.

(** [s.split(sep)] for a separator of one character: never empty, and the
    empty string between two separators that touch. *)
Fixpoint split (sep : ascii) (s : string) : list string :=
  match s with
  | EmptyString => [EmptyString]
  | String c rest =>
      if Ascii.eqb c sep then EmptyString :: split sep rest
      else match split sep rest with
           | piece :: pieces => String c piece :: pieces
           | [] => [String c EmptyString]
           end
  end.

(** [s.replace(c, '')] for a pattern of one character: the first
    occurrence goes. *)
Fixpoint replace_first (c : ascii) (s : string) : string :=
  match s with
  | EmptyString => EmptyString
  | String d rest => if Ascii.eqb d c then rest else String d (replace_first c rest)
  end.

End Text.

Module Command.
Import Stdlib.Strings.Ascii Text.

Local Open Scope string_scope.

(** The branches of [app.command('/predict', ...)]. *)
Inductive branch :=
| Help
| Leaderboards
| ResetStats
| FixStats
| ResolveMarket
| CreateMarket
| PlaceBet
| ListMarkets
| UserStats
| MarketInfo
| UnknownCommand.

Definition wants_create (text : string) : bool :=
  includes "create" text || includes "|" text || includes "% chance" text.

Definition wants_bet (text : string) : bool :=
  includes "bet" text || matches_market_id text.

(** index.js lines 422-712: which branch answers [text], the trimmed and
    lower-cased text of the command. *)
Definition dispatch (text : string) : branch :=
  if String.eqb text "" || String.eqb text "help" then Help
  else if String.prefix "resolve " text then ResolveMarket
  else if wants_create text then CreateMarket
  else if wants_bet text then PlaceBet
  else if String.eqb text "markets" || String.eqb text "list" then ListMarkets
  else if String.eqb text "stats" || String.eqb text "me" then UserStats
  else if String.prefix "info " text then MarketInfo
  else UnknownCommand.

(** The leaderboard variant, part_000 lines 708-1125. *)
Definition dispatch_leaderboard (isAdmin : bool) (text : string) : branch :=
  if String.eqb text "" || String.eqb text "help" then Help
  else if String.prefix "leaderboard" text || String.prefix "leaderboards" text
  then Leaderboards
  else if String.prefix "resetstats" text && isAdmin then ResetStats
  else if String.prefix "fixstats" text && isAdmin then FixStats
  else if String.prefix "resolve " text then ResolveMarket
  else if wants_create text then CreateMarket
  else if wants_bet text then PlaceBet
  else if String.eqb text "markets" || String.eqb text "list" then ListMarkets
  else if String.eqb text "stats" || String.eqb text "me" then UserStats
  else if String.prefix "info " text then MarketInfo
  else UnknownCommand.

(** The in-memory variant, part_000 lines 1429-1689: the resolve branch
    comes last. *)
Definition dispatch_in_memory (text : string) : branch :=
  if String.eqb text "" || String.eqb text "help" then Help
  else if wants_create text then CreateMarket
  else if wants_bet text then PlaceBet
  else if String.eqb text "markets" || String.eqb text "list" then ListMarkets
  else if String.eqb text "stats" || String.eqb text "me" then UserStats
  else if String.prefix "info " text then MarketInfo
  else if String.prefix "resolve " text then ResolveMarket
  else UnknownCommand.

(** What [parseBetting] returns when it does not return [null]. *)
Record parsed_bet := {
  marketId : string;
  probability : Q;
  stake : Z
}.

(** Lines 401-408: the probability as typed, without its [%] and with the
    words replaced by their numbers. *)
Definition probability_word (probability : string) : string :=
  let probability := replace_first "%" probability in
  let probability := if String.eqb probability "likely" then "75" else probability in
  let probability := if String.eqb probability "unlikely" then "25" else probability in
  let probability := if String.eqb probability "certain" then "95" else probability in
  let probability := if String.eqb probability "impossible" then "5" else probability in
  probability.

(** Line 411: [stake?.replace('$', '') || stake]; [None] is [undefined]. *)
Definition stake_word (stake : option string) : option string :=
  match stake with
  | Some stake =>
      let without_dollar := replace_first "$" stake in
      Some (if String.eqb without_dollar "" then stake else without_dollar)
  | None => None
  end.

(** Line 417: [prob > 1 ? prob / 100 : prob]. *)
Definition as_fraction (prob : Q) : Q :=
  if Qle_bool prob 1 then prob else (prob / 100)%Q.

(** [parseBetting], index.js lines 389-419.  [parseFloat] and [parseInt]
    are the functions of the language on the numbers that are finite,
    [None] being [NaN]; [parseInt(undefined)] is [NaN]. *)
Definition parseBetting (parseFloat : string -> option Q) (parseInt : string -> option Z)
    (text : string) : option parsed_bet :=
  let parts := split " " text in
  if (length parts <? 3)%nat then None
  else
    let '(marketId, probability, stake) :=
      if String.eqb (nth 0 parts "") "bet"
      then (nth 1 parts "", nth 2 parts "", nth_error parts 3)
      else (nth 0 parts "", nth 1 parts "", nth_error parts 2) in
    let prob := parseFloat (probability_word probability) in
    let amount :=
      match stake_word stake with
      | Some stake => parseInt stake
      | None => None
      end in
    match prob, amount with
    | Some prob, Some amount =>
        Some {| marketId := marketId; probability := as_fraction prob; stake := amount |}
    | _, _ => None
    end.

(** The [action_id] of a quick-bet button, index.js lines 567-583. *)
Definition action_id (marketId probability : string) : string :=
  "bet_quick_" ++ marketId ++ "_" ++ probability.

(** Lines 722-724 of the button handler: the market id and the probability
    read back from an [action_id]. *)
Definition parse_action_id (id : string) : string * string :=
  let parts := split "_" id in
  (String.concat "_" (removelast (skipn 2 parts)), List.last parts "").

End Command.

(* ===================================================================== *)
(** * Properties of the pricing model *)
(* ===================================================================== *)

Section PricingFacts.
Import Pricing.

Lemma fold_left_add_total (stakes : list Z) (sum : Z) :
  fold_left (fun sum stake => sum + stake) stakes sum = sum + total stakes.
Proof.
  revert sum. induction stakes as [|s stakes IH]; intros sum; simpl.
  - lia.
  - rewrite IH. lia.
Qed.

Lemma sum_stakes_total (stakes : list Z) : sum_stakes stakes = total stakes.
Proof. unfold sum_stakes. rewrite fold_left_add_total. lia. Qed.

(** On parallel lists the reduction is a number, the starting value plus the
    sum of the products. *)
Lemma reduce_weighted_sum (stakes : list Z) :
  forall (probs : list Q) (sum : Q),
    length stakes = length probs ->
    exists w, reduce_weighted sum stakes probs = Some w
              /\ (w == sum + sum_products stakes probs)%Q.
Proof.
  induction stakes as [|s stakes IH]; intros [|p probs] sum Hlen;
    simpl in Hlen; try discriminate.
  - exists sum. split; [reflexivity | simpl; ring].
  - destruct (IH probs (sum + inject_Z s * p)%Q) as (w & Hw & Heq); [lia|].
    exists w. split; [exact Hw|]. rewrite Heq. simpl. ring.
Qed.

Lemma total_nonneg (stakes : list Z) :
  Forall (fun s => 0 <= s) stakes -> 0 <= total stakes.
Proof. induction 1; simpl; lia. Qed.

Lemma sum_products_bounds (stakes : list Z) :
  forall probs : list Q,
    Forall (fun s => 0 <= s) stakes ->
    Forall (fun p => 0 <= p /\ p <= 1)%Q probs ->
    (0 <= sum_products stakes probs /\ sum_products stakes probs <= inject_Z (total stakes))%Q.
Proof.
  induction stakes as [|s stakes IH]; intros probs Hs Hp.
  - simpl. split; [apply Qle_refl | apply Qle_refl].
  - destruct probs as [|p probs].
    + simpl. split; [apply Qle_refl|].
      change 0%Q with (inject_Z 0). rewrite <- Zle_Qle.
      apply (total_nonneg (s :: stakes)), Hs.
    + inversion Hs as [|? ? Hs0 Hs']; subst. inversion Hp as [|? ? [Hp0 Hp1] Hp']; subst.
      destruct (IH probs Hs' Hp') as [IH0 IH1].
      assert (Hs0q : (0 <= inject_Z s)%Q)
        by (change 0%Q with (inject_Z 0); rewrite <- Zle_Qle; exact Hs0).
      assert (Hprod0 : (0 <= inject_Z s * p)%Q) by (apply Qmult_le_0_compat; assumption).
      assert (Hprod1 : (inject_Z s * p <= inject_Z s)%Q).
      { nra. }
      simpl. rewrite inject_Z_plus. split; lra.
Qed.

End PricingFacts.

Section UpdateMarketProbability.
Import Pricing.

Variables (stakes : list Z) (probs : list Q).
Variables (new_stake : Z) (new_prob : Q) (old_stake : Z) (old_prob : Q).

(** First bet: nothing is staked yet, the price is the new probability. *)
Lemma updateMarketProbability_first :
  total stakes = 0 ->
  updateMarketProbability stakes probs new_stake new_prob old_stake old_prob
  = Some new_prob.
Proof.
  intros H. unfold updateMarketProbability. rewrite sum_stakes_total, H. reflexivity.
Qed.

(** The defensive branch: the stakes cancel out. *)
Lemma updateMarketProbability_guard :
  total stakes <> 0 ->
  total stakes - old_stake + new_stake = 0 ->
  updateMarketProbability stakes probs new_stake new_prob old_stake old_prob
  = Some (1 # 2)%Q.
Proof.
  intros H0 H1. unfold updateMarketProbability. rewrite sum_stakes_total.
  destruct (Z.eqb_spec (total stakes) 0) as [E|_]; [contradiction|].
  rewrite H1. simpl. reflexivity.
Qed.

(** The general branch: the corrected weighted sum over the corrected total. *)
Lemma updateMarketProbability_mean :
  length stakes = length probs ->
  total stakes <> 0 ->
  total stakes - old_stake + new_stake <> 0 ->
  exists r,
    updateMarketProbability stakes probs new_stake new_prob old_stake old_prob = Some r
    /\ (r == (sum_products stakes probs - inject_Z old_stake * old_prob
              + inject_Z new_stake * new_prob)
             / inject_Z (total stakes - old_stake + new_stake))%Q.
Proof.
  intros Hlen H0 H1. unfold updateMarketProbability. rewrite sum_stakes_total.
  destruct (Z.eqb_spec (total stakes) 0) as [E|_]; [contradiction|].
  destruct (Z.eqb_spec (total stakes - old_stake + new_stake) 0) as [E|_]; [contradiction|].
  destruct (reduce_weighted_sum stakes probs 0%Q Hlen) as (w & -> & Hw).
  eexists. split; [reflexivity|]. rewrite Hw. rewrite Qplus_0_l. reflexivity.
Qed.

End UpdateMarketProbability.

(** C1 (amended): with correction terms [old_stake = old_prob = 0] on parallel
    lists, [updateMarketProbability] returns exactly [newProb] when
    [sum(otherStakes)] is 0; otherwise it returns 0.5 when
    [sum(otherStakes) + newStake] is 0, and
    [(sum(otherStakes[i]*otherProbs[i]) + newStake*newProb) /
     (sum(otherStakes) + newStake)] when it is not.  A first bet of stake 30
    at probability 0.7 on a market without bets gives exactly 0.7. *)
Theorem updateMarketProbability_no_correction
    (otherStakes : list Z) (otherProbs : list Q) (newStake : Z) (newProb : Q) :
  length otherStakes = length otherProbs ->
  (Pricing.total otherStakes = 0 ->
   Pricing.updateMarketProbability otherStakes otherProbs newStake newProb 0 0
   = Some newProb)
  /\ (Pricing.total otherStakes <> 0 ->
      Pricing.total otherStakes + newStake = 0 ->
      Pricing.updateMarketProbability otherStakes otherProbs newStake newProb 0 0
      = Some (1 # 2)%Q)
  /\ (Pricing.total otherStakes <> 0 ->
      Pricing.total otherStakes + newStake <> 0 ->
      exists r,
        Pricing.updateMarketProbability otherStakes otherProbs newStake newProb 0 0
        = Some r
        /\ (r == (Pricing.sum_products otherStakes otherProbs + inject_Z newStake * newProb)
                 / inject_Z (Pricing.total otherStakes + newStake))%Q)
  /\ Pricing.updateMarketProbability [] [] 30 (7 # 10) 0 0 = Some (7 # 10)%Q.
Proof.
  intros Hlen. repeat split.
  - apply updateMarketProbability_first.
  - intros H0 H1. apply updateMarketProbability_guard; [exact H0 | lia].
  - intros H0 H1.
    destruct (updateMarketProbability_mean otherStakes otherProbs newStake newProb 0 0 Hlen H0)
      as (r & Hr & Heq); [lia|].
    exists r. split; [exact Hr|]. rewrite Heq.
    replace (Pricing.total otherStakes - 0 + newStake)
      with (Pricing.total otherStakes + newStake) by lia.
    apply Qdiv_comp; [|reflexivity].
    change (inject_Z 0) with 0%Q. ring.
Qed.

Lemma updateMarketProbability_no_correction_witness :
  length [40] = length [(6 # 10)%Q]
  /\ exists r,
       Pricing.updateMarketProbability [40] [(6 # 10)%Q] 60 (9 # 10) 0 0 = Some r
       /\ (r == (Pricing.sum_products [40%Z] [(6 # 10)%Q] + inject_Z 60 * (9 # 10))
                / inject_Z (Pricing.total [40%Z] + 60))%Q.
Proof.
  split; [reflexivity|].
  apply (updateMarketProbability_no_correction [40] [(6 # 10)%Q] 60 (9 # 10));
    [reflexivity | simpl; lia | simpl; lia].
Defined.

(** C1 as stated fails where the defensive branch is taken: the other stakes
    sum to 5 and the new stake is -5, the code returns 0.5, which is not the
    quotient of the two sums (the divisor is 0); on binary64 numbers the
    quotient is [-Infinity]. *)
Lemma updateMarketProbability_no_correction_counterexample :
  Pricing.total [5] <> 0
  /\ Pricing.updateMarketProbability [5] [(2 # 5)%Q] (-5) 1 0 0 = Some (1 # 2)%Q
  /\ ~ ((1 # 2) == (Pricing.sum_products [5%Z] [(2 # 5)%Q] + inject_Z (-5) * 1)
                   / inject_Z (Pricing.total [5%Z] + -5))%Q
  /\ ~ ((1 # 2) * inject_Z (Pricing.total [5%Z] + -5)
        == Pricing.sum_products [5%Z] [(2 # 5)%Q] + inject_Z (-5) * 1)%Q
  /\ Binary64.updateMarketProbability [5%float] [0.4%float] (-5)%float 1%float 0%float 0%float
     = 0.5%float
  /\ ((Binary64.reduce_weighted 0 [5] [0.4] + (-5) * 1) / (Binary64.sum_stakes [5] + (-5))
      = neg_infinity)%float.
Proof.
  split; [simpl; lia|].
  split; [reflexivity|].
  split; [intros H; vm_compute in H; discriminate|].
  split; [intros H; vm_compute in H; discriminate|].
  split; vm_compute; reflexivity.
Qed.

(** C10: on parallel lists of non-negative stakes and probabilities in
    [0,1], with a new stake of at least 1 and a new probability in [0,1],
    [updateMarketProbability] without correction terms returns a number in
    [0,1]. *)
Theorem updateMarketProbability_in_unit_interval
    (stakes : list Z) (probs : list Q) (newStake : Z) (newProb : Q) :
  length stakes = length probs ->
  Forall (fun s => 0 <= s) stakes ->
  Forall (fun p => 0 <= p /\ p <= 1)%Q probs ->
  1 <= newStake ->
  (0 <= newProb /\ newProb <= 1)%Q ->
  exists r,
    Pricing.updateMarketProbability stakes probs newStake newProb 0 0 = Some r
    /\ (0 <= r /\ r <= 1)%Q.
Proof.
  intros Hlen Hs Hp Hn [Hp0 Hp1].
  pose proof (total_nonneg stakes Hs) as HT.
  destruct (Z.eq_dec (Pricing.total stakes) 0) as [E|NE].
  - exists newProb. split; [apply updateMarketProbability_first; exact E | split; assumption].
  - destruct (updateMarketProbability_mean stakes probs newStake newProb 0 0 Hlen NE)
      as (r & Hr & Heq); [lia|].
    exists r. split; [exact Hr|].
    destruct (sum_products_bounds stakes probs Hs Hp) as [HW0 HW1].
    replace (Pricing.total stakes - 0 + newStake) with (Pricing.total stakes + newStake)
      in Heq by lia.
    assert (Hn0 : (1 <= inject_Z newStake)%Q)
      by (change 1%Q with (inject_Z 1); rewrite <- Zle_Qle; exact Hn).
    assert (HTq : (0 <= inject_Z (Pricing.total stakes))%Q)
      by (change 0%Q with (inject_Z 0); rewrite <- Zle_Qle; exact HT).
    assert (Hden : (0 < inject_Z (Pricing.total stakes + newStake))%Q)
      by (rewrite inject_Z_plus; lra).
    change (inject_Z 0) with 0%Q in Heq.
    rewrite Heq. split.
    + apply Qle_shift_div_l; [exact Hden|]. nra.
    + apply Qle_shift_div_r; [exact Hden|]. rewrite inject_Z_plus. nra.
Qed.

Lemma updateMarketProbability_in_unit_interval_witness :
  exists r,
    Pricing.updateMarketProbability [40; 60] [(6 # 10)%Q; (9 # 10)%Q] 25 (1 # 5) 0 0 = Some r
    /\ (0 <= r /\ r <= 1)%Q.
Proof.
  apply (updateMarketProbability_in_unit_interval [40; 60] [(6 # 10)%Q; (9 # 10)%Q] 25 (1 # 5)).
  - reflexivity.
  - repeat constructor; lia.
  - repeat constructor; unfold Qle; simpl; lia.
  - lia.
  - split; unfold Qle; simpl; lia.
Defined.

(* ===================================================================== *)
(** * Settlement of one bet *)
(* ===================================================================== *)

Section Settlement.
Import Db.

Lemma bet_accuracy_bounds (outcome : bool) (b : bet_row) :
  (0 <= bet_probability b /\ bet_probability b <= 1)%Q ->
  (0 <= bet_accuracy outcome b /\ bet_accuracy outcome b <= 1)%Q.
Proof. intros [H0 H1]. unfold bet_accuracy. destruct outcome; split; lra. Qed.

(** A probability of exactly one half is on neither side. *)
Lemma wasCorrect_half (outcome : bool) (b : bet_row) :
  (bet_probability b == 1 # 2)%Q -> wasCorrect outcome b = false.
Proof.
  intros H. unfold wasCorrect.
  assert (H1 : Qle_bool (bet_probability b) (1 # 2) = true)
    by (apply Qle_bool_iff; rewrite H; apply Qle_refl).
  assert (H2 : Qle_bool (1 # 2) (bet_probability b) = true)
    by (apply Qle_bool_iff; rewrite H; apply Qle_refl).
  rewrite H1, H2. destruct outcome; reflexivity.
Qed.

End Settlement.

(** The payout on the numbers the program computes with: the examples of
    C4 and the first-bet example of C1 come out the same. *)
Example payout_examples_binary64 :
  Binary64.bet_payout true
    {| Binary64.userId := "alice"; Binary64.stake := 50; Binary64.probability := 0.8 |}
  = Some 90
  /\ Binary64.bet_payout false
       {| Binary64.userId := "alice"; Binary64.stake := 50; Binary64.probability := 0.8 |}
     = Some 60
  /\ Binary64.updateMarketProbability [] [] 30 0.7 0 0 = 0.7%float.
Proof. repeat split; vm_compute; reflexivity. Qed.

(* ===================================================================== *)
(** * [Math.floor] on binary64 numbers *)
(* ===================================================================== *)

Section Floor.
Import Binary64 PayoutCheck.

Lemma digits2_pos_bounds (m : positive) :
  2 ^ (Zpos (digits2_pos m) - 1) <= Zpos m < 2 ^ Zpos (digits2_pos m).
Proof.
  induction m as [m IH|m IH|]; cbn [digits2_pos].
  - rewrite Pos2Z.inj_succ.
    replace (Z.succ (Zpos (digits2_pos m)) - 1) with (Zpos (digits2_pos m)) by lia.
    rewrite Z.pow_succ_r by lia.
    assert (E : 2 ^ Zpos (digits2_pos m) = 2 * 2 ^ (Zpos (digits2_pos m) - 1)).
    { rewrite <- Z.pow_succ_r by lia. f_equal. lia. }
    rewrite (Pos2Z.inj_xI m). lia.
  - rewrite Pos2Z.inj_succ.
    replace (Z.succ (Zpos (digits2_pos m)) - 1) with (Zpos (digits2_pos m)) by lia.
    rewrite Z.pow_succ_r by lia.
    assert (E : 2 ^ Zpos (digits2_pos m) = 2 * 2 ^ (Zpos (digits2_pos m) - 1)).
    { rewrite <- Z.pow_succ_r by lia. f_equal. lia. }
    rewrite (Pos2Z.inj_xO m). lia.
  - simpl. lia.
Qed.

(** What the kernel guarantees of the mantissa and the exponent of a
    finite binary64 number. *)
Lemma bounded_facts (m : positive) (e : Z) :
  bounded prec emax m e = true ->
  -1074 <= e /\ Zpos m < 2 ^ 53 /\ (e = -1074 \/ 2 ^ 52 <= Zpos m).
Proof.
  unfold bounded, canonical_mantissa, fexp, SpecFloat.emin, prec, emax.
  intros H. apply andb_prop in H as [H _]. apply Z.eqb_eq in H.
  pose proof (digits2_pos_bounds m) as [Hlo Hhi].
  set (d := Zpos (digits2_pos m)) in *.
  assert (Hd : d <= 53) by lia. assert (He : -1074 <= e) by lia.
  split; [exact He|]. split.
  - eapply Z.lt_le_trans; [exact Hhi|]. apply Z.pow_le_mono_r; lia.
  - destruct (Z.eq_dec e (-1074)) as [E|NE]; [left; exact E|right].
    assert (E : d = 53) by lia. rewrite E in Hlo. exact Hlo.
Qed.

Lemma scaled_lt (m : positive) (e : Z) (m' : positive) (e' : Z) :
  bounded prec emax m e = true -> bounded prec emax m' e' = true ->
  e < e' -> scaled m e < scaled m' e'.
Proof.
  intros V V' Hlt.
  apply bounded_facts in V as (He & Hm & _).
  apply bounded_facts in V' as (He' & _ & [E|Hm']); [lia|].
  unfold scaled.
  assert (P : 0 < 2 ^ (e + 1074)) by (apply Z.pow_pos_nonneg; lia).
  assert (E1 : 2 ^ (e' + 1074) = 2 ^ (e' - e - 1) * (2 * 2 ^ (e + 1074))).
  { rewrite <- Z.pow_succ_r by lia. rewrite <- Z.pow_add_r by lia. f_equal. lia. }
  assert (Q1 : 1 <= 2 ^ (e' - e - 1)) by (apply (Z.pow_le_mono_r 2 0); lia).
  rewrite E1.
  set (p := 2 ^ (e + 1074)) in *. set (q := 2 ^ (e' - e - 1)) in *.
  change (2 ^ 53) with (2 * 2 ^ 52) in Hm.
  set (h := 2 ^ 52) in *.
  assert (S1 : Zpos m * p < 2 * h * p) by (apply Z.mul_lt_mono_pos_r; assumption).
  assert (S2 : h * (2 * p) <= Zpos m' * (2 * p)) by (apply Z.mul_le_mono_nonneg_r; lia).
  assert (S3 : Zpos m' * (2 * p) * 1 <= Zpos m' * (2 * p) * q)
    by (apply Z.mul_le_mono_nonneg_l; lia).
  lia.
Qed.

Lemma SFltb_scaled (m : positive) (e : Z) (m' : positive) (e' : Z) :
  bounded prec emax m e = true -> bounded prec emax m' e' = true ->
  SFltb (S754_finite false m e) (S754_finite false m' e') = true ->
  scaled m e < scaled m' e'.
Proof.
  intros V V'. unfold SFltb, SFcompare.
  destruct (Z.compare_spec e e') as [->|Hlt|Hgt].
  - change (Pos.compare_cont Eq m m') with (Pos.compare m m').
    destruct (Pos.compare_spec m m'); try discriminate. intros _.
    apply bounded_facts in V as (He & _). unfold scaled.
    apply Z.mul_lt_mono_pos_r; [apply Z.pow_pos_nonneg; lia|lia].
  - intros _. apply scaled_lt; assumption.
  - discriminate.
Qed.

Lemma SFleb_scaled (m : positive) (e : Z) (m' : positive) (e' : Z) :
  bounded prec emax m e = true -> bounded prec emax m' e' = true ->
  SFleb (S754_finite false m e) (S754_finite false m' e') = true ->
  scaled m e <= scaled m' e'.
Proof.
  intros V V'. unfold SFleb, SFcompare.
  destruct (Z.compare_spec e e') as [->|Hlt|Hgt].
  - change (Pos.compare_cont Eq m m') with (Pos.compare m m').
    destruct (Pos.compare_spec m m') as [->|H|H]; try discriminate; intros _.
    + lia.
    + apply bounded_facts in V as (He & _). unfold scaled.
      apply Z.mul_le_mono_nonneg_r; [apply Z.pow_nonneg; lia|lia].
  - intros _. apply Z.lt_le_incl, scaled_lt; assumption.
  - discriminate.
Qed.

(** The integer part of a finite number that lies between [z] and [z + 1]
    is [z]. *)
Lemma floor_of_scaled (m : positive) (e z : Z) :
  -1074 <= e ->
  z * 2 ^ 1074 <= scaled m e < (z + 1) * 2 ^ 1074 ->
  (if 0 <=? e then Zpos m * 2 ^ e else Zpos m / 2 ^ (- e)) = z.
Proof.
  intros He [Hlo Hhi]. unfold scaled in *.
  destruct (Z.leb_spec 0 e) as [H0|H0].
  - rewrite Z.pow_add_r, Z.mul_assoc in Hlo, Hhi by lia.
    assert (P : 0 < 2 ^ 1074) by (apply Z.pow_pos_nonneg; lia).
    set (K := 2 ^ 1074) in *.
    apply Z.mul_le_mono_pos_r in Hlo; [|exact P].
    apply Z.mul_lt_mono_pos_r in Hhi; [|exact P]. lia.
  - assert (E : 2 ^ 1074 = 2 ^ (- e) * 2 ^ (e + 1074)).
    { rewrite <- Z.pow_add_r by lia. f_equal. lia. }
    rewrite E, Z.mul_assoc in Hlo, Hhi.
    assert (P : 0 < 2 ^ (e + 1074)) by (apply Z.pow_pos_nonneg; lia).
    assert (A : 0 < 2 ^ (- e)) by (apply Z.pow_pos_nonneg; lia).
    set (p := 2 ^ (e + 1074)) in *. set (a := 2 ^ (- e)) in *.
    apply Z.mul_le_mono_pos_r in Hlo; [|exact P].
    apply Z.mul_lt_mono_pos_r in Hhi; [|exact P].
    symmetry. apply (Z.div_unique_pos _ _ _ (Zpos m - z * a)); lia.
Qed.

(** A binary64 number between the integers [n] and [n + 1], both held
    exactly, has the integer part [n]. *)
Lemma brackets_floor (n : int) (x : float) :
  holds_integer n = true -> brackets n x = true -> floor x = Some (to_Z n).
Proof.
  unfold holds_integer, brackets. intros Hn Hx. apply andb_prop in Hx as [Hle Hlt].
  rewrite FloatAxioms.leb_spec in Hle. rewrite FloatAxioms.ltb_spec in Hlt.
  pose proof (FloatAxioms.Prim2SF_valid (of_uint63 n)) as Va.
  pose proof (FloatAxioms.Prim2SF_valid (of_uint63 (n + 1))) as Vb.
  pose proof (FloatAxioms.Prim2SF_valid x) as Vx.
  destruct (Prim2SF (of_uint63 n)) as [ | | | [|] m e]; try discriminate.
  destruct (Prim2SF (of_uint63 (n + 1))) as [ | | | [|] m' e']; try discriminate.
  apply andb_prop in Hn as [Ea Eb]. apply Z.eqb_eq in Ea, Eb.
  unfold floor.
  destruct (Prim2SF x) as [sx|sx| |sx mx ex]; simpl in Hle, Hlt; try discriminate.
  { destruct sx; discriminate. }
  destruct sx; try discriminate.
  simpl in Va, Vb, Vx. f_equal.
  apply floor_of_scaled; [apply (bounded_facts mx ex Vx)|]. split.
  - rewrite <- Ea. apply SFleb_scaled; assumption.
  - rewrite <- Eb. apply SFltb_scaled; assumption.
Qed.

Lemma floor_int_brackets (x : float) (n : int) :
  floor_int x = Some n -> brackets n x = true.
Proof.
  unfold floor_int. destruct (brackets (nearest x) x) eqn:E.
  - intros H. inversion H. subst. exact E.
  - destruct (brackets (nearest x - 1) x) eqn:E'; [|discriminate].
    intros H. inversion H. subst. exact E'.
Qed.

End Floor.

Section PayoutOnBinary64.
Import Binary64 PayoutCheck.

Lemma holds_integer_payouts : forallb holds_integer payouts = true.
Proof. vm_compute. reflexivity. Qed.

Lemma all_payouts_checked : forallb row_checked ten_thousandths = true.
Proof. vm_compute. reflexivity. Qed.

Lemma to_Z_of_Z (z : Z) : 0 <= z <= 20000 -> to_Z (Uint63.of_Z z) = z.
Proof.
  intros H. rewrite Uint63.of_Z_spec. apply Z.mod_small.
  change wB with 9223372036854775808. lia.
Qed.

Lemma In_range (f : nat -> int) (a n : nat) (z : Z) :
  (forall i, f i = Uint63.of_Z (Z.of_nat i)) ->
  Z.of_nat a <= z < Z.of_nat (a + n) -> In (Uint63.of_Z z) (map f (seq a n)).
Proof.
  intros Hf Hz. apply in_map_iff. exists (Z.to_nat z). split.
  - rewrite Hf, Z2Nat.id by lia. reflexivity.
  - apply in_seq. lia.
Qed.

Lemma payout_checked_in_range (outcome : bool) (s k : Z) :
  1 <= s <= 100 -> 0 <= k <= 10000 ->
  payout_checked outcome (Uint63.of_Z s) (Uint63.of_Z k) = true.
Proof.
  intros Hs Hk.
  assert (Hin_s : In (Uint63.of_Z s) stakes)
    by (apply In_range; [reflexivity|simpl; lia]).
  assert (Hin_k : In (Uint63.of_Z k) ten_thousandths)
    by (apply In_range; [reflexivity|simpl; lia]).
  pose proof (proj1 (List.forallb_forall row_checked ten_thousandths)
                all_payouts_checked _ Hin_k) as Hk'.
  unfold row_checked in Hk'.
  pose proof (proj1 (List.forallb_forall _ stakes) Hk' _ Hin_s) as Hsk. cbv beta in Hsk.
  apply andb_prop in Hsk as [Hyes Hno].
  destruct outcome; assumption.
Qed.

Lemma small_mod (z : Z) : 0 <= z < 9223372036854775808 -> z mod wB = z.
Proof. intros Hz. apply Z.mod_small. exact Hz. Qed.

Lemma product_spec (outcome : bool) (s k : Z) :
  1 <= s <= 100 -> 0 <= k <= 10000 ->
  to_Z (if outcome
        then Uint63.of_Z s * (10000 + Uint63.of_Z k)
        else Uint63.of_Z s * (20000 - Uint63.of_Z k))%uint63
  = if outcome then s * (10000 + k) else s * (20000 - k).
Proof.
  intros Hs Hk. destruct outcome.
  - rewrite Uint63.mul_spec, Uint63.add_spec, !to_Z_of_Z by lia.
    change (to_Z 10000) with 10000.
    rewrite (small_mod (10000 + k)) by lia. apply small_mod. nia.
  - rewrite Uint63.mul_spec, Uint63.sub_spec, !to_Z_of_Z by lia.
    change (to_Z 20000) with 20000.
    rewrite (small_mod (20000 - k)) by lia. apply small_mod. nia.
Qed.

Lemma times_10000 (n : int) :
  0 <= to_Z n <= 202 -> to_Z (n * 10000) = to_Z n * 10000.
Proof.
  intros Hn. rewrite Uint63.mul_spec. change (to_Z 10000) with 10000.
  apply small_mod. lia.
Qed.

(** What the check of one stake and one probability establishes about the
    payout the program computes. *)
Lemma payout_checked_spec (outcome : bool) (user : string) (s k : Z) :
  1 <= s <= 100 -> 0 <= k <= 10000 ->
  exists z,
    bet_payout outcome
      {| userId := user; stake := of_Z s; probability := (of_Z k / 10000)%float |}
    = Some z
    /\ s <= z
    /\ z * 10000 <= (if outcome then s * (10000 + k) else s * (20000 - k))
       < (z + 2) * 10000
    /\ ((if outcome then s * (10000 + k) else s * (20000 - k)) = s * 20000 -> z = 2 * s).
Proof.
  intros Hs Hk.
  pose proof (payout_checked_in_range outcome s k Hs Hk) as Hc.
  pose proof (product_spec outcome s k Hs Hk) as HP.
  unfold payout_checked in Hc. unfold bet_payout.
  change (payout_before_floor outcome
            {| userId := user; stake := of_Z s; probability := (of_Z k / 10000)%float |})
    with (payout_before_floor outcome
            {| userId := EmptyString; stake := of_uint63 (Uint63.of_Z s);
               probability := (of_uint63 (Uint63.of_Z k) / 10000)%float |}).
  destruct (floor_int _) as [n|] eqn:Hn; [|discriminate].
  apply floor_int_brackets in Hn.
  set (product := (if outcome
                   then Uint63.of_Z s * (10000 + Uint63.of_Z k)
                   else Uint63.of_Z s * (20000 - Uint63.of_Z k))%uint63) in *.
  apply andb_prop in Hc as [Hc Hdouble]. apply andb_prop in Hc as [Hc Hup].
  apply andb_prop in Hc as [Hc Hlow]. apply andb_prop in Hc as [Hge Hle].
  apply Uint63.leb_spec in Hge. rewrite to_Z_of_Z in Hge by lia.
  apply Uint63.leb_spec in Hle. change (to_Z 200) with 200 in Hle.
  assert (Hn' : In n payouts).
  { rewrite <- (Uint63.of_to_Z n). apply In_range; [reflexivity|].
    change (1 <= to_Z n < Z.of_nat (1 + 200)). lia. }
  pose proof (proj1 (List.forallb_forall _ _) holds_integer_payouts _ Hn') as Hint.
  exists (to_Z n). split; [apply brackets_floor; assumption|].
  split; [assumption|].
  rewrite <- HP. split.
  - apply Uint63.leb_spec in Hlow. apply Uint63.ltb_spec in Hup.
    rewrite (times_10000 n) in Hlow by lia.
    assert (E2 : to_Z (n + 2) = to_Z n + 2).
    { rewrite Uint63.add_spec. change (to_Z 2) with 2. apply small_mod. lia. }
    rewrite (times_10000 (n + 2)) in Hup by lia.
    rewrite E2 in Hup. split; assumption.
  - intros E.
    assert (Ep : product = (Uint63.of_Z s * 20000)%uint63).
    { apply Uint63.to_Z_inj. rewrite E. symmetry.
      rewrite Uint63.mul_spec, to_Z_of_Z by lia. change (to_Z 20000) with 20000.
      apply small_mod. lia. }
    rewrite Ep, Uint63.eqb_refl in Hdouble. apply Uint63.eqb_spec in Hdouble.
    rewrite Hdouble, Uint63.mul_spec, to_Z_of_Z by lia. change (to_Z 2) with 2.
    apply small_mod. lia.
Qed.

(** The floor of the exact product, as a quotient of integers. *)
Lemma exact_payout (outcome : bool) (s k : Z) (m u : string) (t : Z) :
  Db.bet_payout outcome
    {| Db.market_id := m; Db.user_id := u; Db.bet_stake := s;
       Db.bet_probability := (inject_Z k / 10000)%Q; Db.updated_at := t |}
  = (if outcome then s * (10000 + k) else s * (20000 - k)) / 10000.
Proof.
  unfold Db.bet_payout, Db.bet_accuracy. cbn [Db.bet_stake Db.bet_probability].
  set (P := if outcome then s * (10000 + k) else s * (20000 - k)).
  rewrite (Qfloor_comp _ (P # 10000)); [reflexivity|].
  subst P. destruct outcome.
  - rewrite (Qmake_Qdiv (s * (10000 + k)) 10000), inject_Z_mult, inject_Z_plus.
    change (inject_Z (Zpos 10000)) with 10000%Q. change (inject_Z 10000) with 10000%Q.
    field.
  - rewrite (Qmake_Qdiv (s * (20000 - k)) 10000), inject_Z_mult.
    unfold Z.sub. rewrite inject_Z_plus, inject_Z_opp.
    change (inject_Z (Zpos 10000)) with 10000%Q. change (inject_Z 20000) with 20000%Q.
    field.
Qed.

End PayoutOnBinary64.

(** C4, on the numbers the program computes with.  A stored bet has an
    integer stake in [1,100] and a probability of [k] ten-thousandths with
    [0 <= k <= 10000].  Its payout [Math.floor(bet.stake * (1 + accuracy))]
    is an integer that is never below the stake and never above twice the
    stake; it is the floor of the exact product or, where the binary64
    product falls just below an integer, one less; a fully confident correct
    bet is paid twice its stake; and a stake of 50 at probability 0.8 is paid
    90 on YES and 60 on NO. *)
Theorem bet_payout_on_binary64 (outcome : bool) (market user : string) (stake k t : Z) :
  1 <= stake <= 100 -> 0 <= k <= 10000 ->
  exists payout,
    Binary64.bet_payout outcome
      {| Binary64.userId := user; Binary64.stake := Binary64.of_Z stake;
         Binary64.probability := (Binary64.of_Z k / 10000)%float |}
    = Some payout
    /\ stake <= payout <= 2 * stake
    /\ Db.bet_payout outcome
         {| Db.market_id := market; Db.user_id := user; Db.bet_stake := stake;
            Db.bet_probability := (inject_Z k / 10000)%Q; Db.updated_at := t |} - 1
       <= payout
       <= Db.bet_payout outcome
            {| Db.market_id := market; Db.user_id := user; Db.bet_stake := stake;
               Db.bet_probability := (inject_Z k / 10000)%Q; Db.updated_at := t |}
    /\ (k = (if outcome then 10000 else 0) -> payout = 2 * stake)
    /\ (stake = 50 -> k = 8000 -> payout = if outcome then 90 else 60).
Proof.
  intros Hs Hk.
  destruct (payout_checked_spec outcome user stake k Hs Hk)
    as (z & Hz & Hge & [Hlo Hhi] & Hdouble).
  exists z. split; [exact Hz|].
  rewrite exact_payout.
  set (P := if outcome then stake * (10000 + k) else stake * (20000 - k)) in *.
  assert (HP : P <= stake * 20000) by (subst P; destruct outcome; nia).
  assert (Hq : z <= P / 10000) by (apply Z.div_le_lower_bound; lia).
  assert (Hq' : P / 10000 < z + 2) by (apply Z.div_lt_upper_bound; lia).
  assert (Hq2 : P / 10000 <= 2 * stake) by (apply Z.div_le_upper_bound; lia).
  split; [lia|]. split; [lia|]. split.
  - intros E. apply Hdouble. subst P k. destruct outcome; lia.
  - intros E1 E2. subst stake k. clear - Hz.
    destruct outcome; vm_compute in Hz; injection Hz as <-; reflexivity.
Qed.

Lemma bet_payout_on_binary64_witness :
  exists payout,
    Binary64.bet_payout true
      {| Binary64.userId := "alice"; Binary64.stake := Binary64.of_Z 100;
         Binary64.probability := (Binary64.of_Z 1500 / 10000)%float |}
    = Some payout
    /\ 100 <= payout <= 2 * 100
    /\ Db.bet_payout true
         {| Db.market_id := "market_1"; Db.user_id := "alice"; Db.bet_stake := 100;
            Db.bet_probability := (inject_Z 1500 / 10000)%Q; Db.updated_at := 0 |} - 1
       <= payout
       <= Db.bet_payout true
            {| Db.market_id := "market_1"; Db.user_id := "alice"; Db.bet_stake := 100;
               Db.bet_probability := (inject_Z 1500 / 10000)%Q; Db.updated_at := 0 |}
    /\ (1500 = 10000 -> payout = 2 * 100)
    /\ (100 = 50 -> 1500 = 8000 -> payout = 90).
Proof.
  apply (bet_payout_on_binary64 true "market_1" "alice" 100 1500 0); lia.
Defined.

(** C4 as stated fails on the numbers the program computes with: the
    product under [Math.floor] is rounded.  For a stake of 100 at
    probability 0.15 on YES it is 114.99999999999999, so the program pays
    114, where [floor(stake * (1 + accuracy))] is 115. *)
Lemma bet_payout_counterexample :
  Binary64.payout_before_floor true
    {| Binary64.userId := "alice"; Binary64.stake := 100; Binary64.probability := 0.15 |}
  = 114.99999999999999%float
  /\ Binary64.bet_payout true
       {| Binary64.userId := "alice"; Binary64.stake := 100; Binary64.probability := 0.15 |}
     = Some 114
  /\ Qfloor (inject_Z 100 * (1 + (15 # 100)))%Q = 115
  /\ Db.bet_payout true
       {| Db.market_id := "market_1"; Db.user_id := "alice"; Db.bet_stake := 100;
          Db.bet_probability := (15 # 100)%Q; Db.updated_at := 0 |}
     = 115.
Proof.
  split; [vm_compute; reflexivity|].
  split; [vm_compute; reflexivity|].
  split; vm_compute; reflexivity.
Qed.

(** C8: a bet at probability exactly 0.5 is not correct under either
    outcome; at resolution the bettor's [bets_won] stays, [bets_placed]
    grows by one, and, in the variant that tracks streaks, the streak of a
    row that has the statistics columns becomes 0. *)
Theorem half_probability_is_not_correct
    (outcome : bool) (b : Db.bet_row) (user : Db.user_row) (luser : Leaderboard.user_row) :
  (Db.bet_probability b == 1 # 2)%Q ->
  Db.wasCorrect outcome b = false
  /\ Db.bets_won (Db.settled outcome b user) = Db.bets_won user
  /\ Db.bets_placed (Db.settled outcome b user) = Db.bets_placed user + 1
  /\ Leaderboard.bets_won (Leaderboard.settled outcome b luser) = Leaderboard.bets_won luser
  /\ Leaderboard.bets_placed (Leaderboard.settled outcome b luser)
     = Leaderboard.bets_placed luser + 1
  /\ (Leaderboard.total_profit luser <> None ->
      Leaderboard.prediction_streak (Leaderboard.settled outcome b luser) = Some 0).
Proof.
  intros H. pose proof (wasCorrect_half outcome b H) as Hw.
  split; [exact Hw|].
  unfold Db.settled, Leaderboard.settled. rewrite Hw.
  repeat split; simpl; try lia.
  - destruct (Leaderboard.total_profit luser); simpl; lia.
  - destruct (Leaderboard.total_profit luser); reflexivity.
  - destruct (Leaderboard.total_profit luser); [reflexivity | intros C; contradiction].
Qed.

Lemma half_probability_is_not_correct_witness :
  let b := {| Db.market_id := "market_1"; Db.user_id := "alice"; Db.bet_stake := 50;
              Db.bet_probability := (1 # 2)%Q; Db.updated_at := 0 |} in
  let luser :=
    {| Leaderboard.bankroll := 1000; Leaderboard.total_staked := 50;
       Leaderboard.bets_placed := 4; Leaderboard.bets_won := 3;
       Leaderboard.accuracy := (3 # 4)%Q; Leaderboard.total_profit := Some 41;
       Leaderboard.biggest_win := Some 100; Leaderboard.prediction_streak := Some 3;
       Leaderboard.best_streak := Some 3; Leaderboard.markets_created := Some 1 |} in
  Db.wasCorrect true b = false
  /\ Db.wasCorrect false b = false
  /\ Leaderboard.prediction_streak (Leaderboard.settled true b luser) = Some 0.
Proof.
  intros b luser.
  assert (H : (Db.bet_probability b == 1 # 2)%Q) by reflexivity.
  split; [apply (half_probability_is_not_correct true b Db.new_user luser H)|].
  split; [apply (half_probability_is_not_correct false b Db.new_user luser H)|].
  apply (half_probability_is_not_correct true b Db.new_user luser H). discriminate.
Defined.

(* ===================================================================== *)
(** * Runs that settle claims on the code *)
(* ===================================================================== *)

Section Runs.
Import Db Ledger Scenario.

(** The end-to-end scenario of the specification: 0.6 after Alice, 0.78 and
    a total stake of 100 after Bob, payouts 64 and 114 on YES. *)
Example end_to_end :
  (probability <$> markets alice_bet !! "market_1000") = Some (Some (6 # 10)%Q)
  /\ (total_stake <$> markets both_bet !! "market_1000") = Some 100
  /\ (exists q, (probability <$> markets both_bet !! "market_1000") = Some (Some q)
                /\ (q == 78 # 100)%Q)
  /\ fst (predict_resolve true 1003 "market_1000" true reliable both_bet)
     = inr (MarketResolved [("alice", 64, (6 # 10)%Q); ("bob", 114, (9 # 10)%Q)]).
Proof.
  split; [vm_compute; reflexivity|].
  split; [vm_compute; reflexivity|].
  split; [|vm_compute; reflexivity].
  eexists. split; [vm_compute; reflexivity | reflexivity].
Qed.

End Runs.

(** C2: the resolution is not atomic.  With Alice and Bob holding bets, the
    [UPDATE] of Bob's row fails: the command answers with the error, Alice
    has been paid (bankroll 1064, one bet placed), Bob has not, and the
    market is still unresolved.  When instead the [UPDATE] of the market row
    fails, both are paid and the market is still unresolved. *)
Theorem resolution_is_not_atomic :
  let run := Db.predict_resolve true 1003 "market_1000" true in
  fst (run Scenario.bob_update_fails Scenario.both_bet)
  = inr (Db.ErrorReply (Db.PersistenceFailure (Db.UpdateUser "bob")))
  /\ (Db.bankroll <$> Db.users Scenario.both_bet !! "alice") = Some 1000
  /\ (Db.bankroll <$> Db.users (snd (run Scenario.bob_update_fails Scenario.both_bet)) !! "alice")
     = Some 1064
  /\ (Db.bets_placed <$> Db.users (snd (run Scenario.bob_update_fails Scenario.both_bet)) !! "alice")
     = Some 1
  /\ Db.users (snd (run Scenario.bob_update_fails Scenario.both_bet)) !! "bob"
     = Db.users Scenario.both_bet !! "bob"
  /\ (Db.resolved <$> Db.markets (snd (run Scenario.bob_update_fails Scenario.both_bet)) !! "market_1000")
     = Some false
  /\ fst (run Scenario.market_update_fails Scenario.both_bet)
     = inr (Db.ErrorReply (Db.PersistenceFailure (Db.UpdateMarket "market_1000")))
  /\ (Db.bankroll <$> Db.users (snd (run Scenario.market_update_fails Scenario.both_bet)) !! "bob")
     = Some 1114
  /\ (Db.resolved <$> Db.markets (snd (run Scenario.market_update_fails Scenario.both_bet)) !! "market_1000")
     = Some false.
Proof. repeat split; vm_compute; reflexivity. Qed.

(** C5: the invariant fails after a bet on a resolved market.  Every request
    of the run succeeds; after the resolution Alice has nothing staked and no
    open bet; she then replaces her bet of 40 by one of 90 on the resolved
    market, which [placeBet] accepts: her [total_staked] is 50 while the
    stakes of her open bets sum to 0. *)
Theorem total_staked_differs_from_open_stake :
  fst (Db.predict_create 1000 "Will we ship?" "carol" 5000 Db.reliable Db.empty_db)
  = inr (Db.MarketCreated "market_1000")
  /\ (exists r, fst (Db.placeBet 1001 "market_1000" "alice" 40 (6 # 10) Db.reliable
                       Scenario.created) = inr r)
  /\ (exists r, fst (Db.placeBet 1002 "market_1000" "bob" 60 (9 # 10) Db.reliable
                       Scenario.alice_bet) = inr r)
  /\ (exists l, fst (Db.predict_resolve true 1003 "market_1000" true Db.reliable
                       Scenario.both_bet) = inr (Db.MarketResolved l))
  /\ (Db.total_staked <$> Db.users Scenario.resolved_yes !! "alice") = Some 0
  /\ Ledger.open_stake Scenario.resolved_yes "alice" = 0
  /\ (exists r, fst (Db.placeBet 1004 "market_1000" "alice" 90 (6 # 10) Db.reliable
                       Scenario.resolved_yes) = inr r)
  /\ (Db.total_staked <$> Db.users Scenario.alice_bets_again !! "alice") = Some 50
  /\ Ledger.open_stake Scenario.alice_bets_again "alice" = 0.
Proof.
  repeat split; try (vm_compute; reflexivity); eexists; vm_compute; reflexivity.
Qed.

(** C9: a deadline equal to the instant of creation is accepted.  At instant
    1000 a market with deadline 1000 is created, although its deadline is
    not after its creation; only a deadline before the instant is refused. *)
Theorem deadline_at_creation_instant_is_accepted :
  fst (Db.predict_create 1000 "Will we ship?" "carol" 1000 Db.reliable Db.empty_db)
  = inr (Db.MarketCreated "market_1000")
  /\ (Db.deadline <$>
        Db.markets (snd (Db.predict_create 1000 "Will we ship?" "carol" 1000
                           Db.reliable Db.empty_db)) !! "market_1000")
     = Some 1000
  /\ fst (Db.predict_create 1000 "Will we ship?" "carol" 999 Db.reliable Db.empty_db)
     = inr Db.InvalidDeadline.
Proof. repeat split; vm_compute; reflexivity. Qed.

(* ===================================================================== *)
(** * The bets of one market *)
(* ===================================================================== *)

Section MarketBets.
Import Pricing Db Ledger.

Lemma others_absent (u : string) (rows : list bet_row) :
  u ∉ map user_id rows -> others u rows = rows.
Proof.
  induction rows as [|b rows IH]; intros Hu; simpl; [reflexivity|].
  simpl in Hu. apply not_elem_of_cons in Hu as [Hne Hu].
  destruct (String.eqb_spec (user_id b) u) as [E|NE]; simpl.
  - congruence.
  - f_equal. apply IH, Hu.
Qed.

Lemma find_user_none (u : string) (rows : list bet_row) :
  List.find (fun b => String.eqb (user_id b) u) rows = None ->
  u ∉ map user_id rows.
Proof.
  induction rows as [|b rows IH]; simpl; intros H; [apply not_elem_of_nil|].
  destruct (String.eqb_spec (user_id b) u) as [E|NE]; [discriminate|].
  apply not_elem_of_cons. split; [congruence | exact (IH H)].
Qed.

(** With one bet per user, the bets of a market are the bet of [u] and the
    bets of the others. *)
Lemma split_own_bet (u : string) (rows : list bet_row) :
  forall own : bet_row,
  NoDup (map user_id rows) ->
  List.find (fun b => String.eqb (user_id b) u) rows = Some own ->
  total_of rows = total_of (others u rows) + bet_stake own
  /\ (weighted_of rows
      == weighted_of (others u rows) + inject_Z (bet_stake own) * bet_probability own)%Q.
Proof.
  unfold total_of, weighted_of.
  induction rows as [|b rows IH]; simpl; intros own Hnd Hfind; [discriminate|].
  apply NoDup_cons in Hnd as [Hnotin Hnd'].
  destruct (String.eqb_spec (user_id b) u) as [E|NE]; simpl.
  - inversion Hfind; subst own. fold (others u rows).
    rewrite others_absent by (rewrite <- E; exact Hnotin). split; [lia | ring].
  - destruct (IH own Hnd' Hfind) as [IHt IHw]. fold (others u rows) in *.
    split; [lia|]. rewrite IHw. ring.
Qed.

Lemma total_of_nonneg (rows : list bet_row) :
  Forall (fun b => 1 <= bet_stake b) rows -> 0 <= total_of rows.
Proof. unfold total_of. induction 1; simpl; lia. Qed.

Lemma total_of_zero (rows : list bet_row) :
  Forall (fun b => 1 <= bet_stake b) rows -> total_of rows = 0 -> rows = [].
Proof.
  intros H. destruct H as [|b rows Hb Hrows]; [reflexivity|].
  unfold total_of. simpl. intros E.
  pose proof (total_of_nonneg rows Hrows) as Hn. unfold total_of in Hn. lia.
Qed.

Lemma others_stakes (u : string) (rows : list bet_row) :
  Forall (fun b => 1 <= bet_stake b) rows ->
  Forall (fun b => 1 <= bet_stake b) (others u rows).
Proof.
  unfold others. induction 1 as [|b rows Hb H IH]; simpl; [constructor|].
  destruct (negb (String.eqb (user_id b) u)); [constructor; assumption | assumption].
Qed.

(** The price [placeBet] computes is the mean of the bets of the others and
    the new bet. *)
Lemma placeBet_new_prob_mean (rows : list bet_row) (u : string) (stake : Z) (p : Q) :
  Forall (fun b => 1 <= bet_stake b) rows ->
  1 <= stake ->
  exists q,
    placeBet_new_prob rows u stake p = Some q
    /\ (q == (weighted_of (others u rows) + inject_Z stake * p)
             / inject_Z (total_of (others u rows) + stake))%Q.
Proof.
  intros Hrows Hstake. unfold placeBet_new_prob. fold (others u rows).
  pose proof (others_stakes u rows Hrows) as Hothers.
  pose proof (total_of_nonneg _ Hothers) as Hnn.
  assert (Hsq : ~ (inject_Z stake == 0)%Q).
  { change 0%Q with (inject_Z 0). rewrite inject_Z_injective. lia. }
  destruct (Z.eq_dec (total_of (others u rows)) 0) as [E|NE].
  - exists p. split; [apply updateMarketProbability_first; exact E|].
    rewrite (total_of_zero _ Hothers E). unfold weighted_of, total_of. simpl.
    rewrite Qplus_0_l, Z.add_0_l, (Qmult_comm (inject_Z stake) p).
    symmetry. apply Qdiv_mult_l. exact Hsq.
  - destruct (updateMarketProbability_mean
                (map bet_stake (others u rows)) (map bet_probability (others u rows))
                stake p 0 0) as (r & Hr & Heq).
    + rewrite !length_map. reflexivity.
    + exact NE.
    + unfold total_of in *. lia.
    + exists r. split; [exact Hr|]. rewrite Heq. unfold weighted_of, total_of.
      replace (total (map bet_stake (others u rows)) - 0 + stake)
        with (total (map bet_stake (others u rows)) + stake) by lia.
      apply Qdiv_comp; [|reflexivity]. change (inject_Z 0) with 0%Q. ring.
Qed.

End MarketBets.

(* ===================================================================== *)
(** * The two ways of replacing a bet *)
(* ===================================================================== *)

Section Variants.
Import Pricing Db Ledger.

Lemma find_of_row (u : string) (rows : list bet_row) :
  List.find (fun b => String.eqb (InMemory.userId b) u) (map InMemory.of_row rows)
  = option_map InMemory.of_row (List.find (fun b => String.eqb (user_id b) u) rows).
Proof.
  induction rows as [|b rows IH]; simpl; [reflexivity|].
  destruct (String.eqb (user_id b) u); [reflexivity | exact IH].
Qed.

Lemma stakes_of_rows (rows : list bet_row) :
  map InMemory.stake (map InMemory.of_row rows) = map bet_stake rows.
Proof. induction rows as [|b rows IH]; simpl; [reflexivity | f_equal; exact IH]. Qed.

Lemma probabilities_of_rows (rows : list bet_row) :
  map InMemory.probability (map InMemory.of_row rows) = map bet_probability rows.
Proof. induction rows as [|b rows IH]; simpl; [reflexivity | f_equal; exact IH]. Qed.

(** The price of the in-memory variant is the mean of the bets of the others
    and the new bet as well. *)
Lemma InMemory_placeBet_new_prob_mean (rows : list bet_row) (u : string) (stake : Z) (p : Q) :
  NoDup (map user_id rows) ->
  Forall (fun b => 1 <= bet_stake b) rows ->
  1 <= stake ->
  exists q,
    InMemory.placeBet_new_prob (map InMemory.of_row rows) u stake p = Some q
    /\ (q == (weighted_of (others u rows) + inject_Z stake * p)
             / inject_Z (total_of (others u rows) + stake))%Q.
Proof.
  intros Hnd Hrows Hstake. unfold InMemory.placeBet_new_prob.
  rewrite find_of_row, stakes_of_rows, probabilities_of_rows.
  destruct (List.find (fun b => String.eqb (user_id b) u) rows) as [own|] eqn:Hfind; simpl.
  - destruct (split_own_bet u rows own Hnd Hfind) as [Ht Hw].
    assert (Hown : 1 <= bet_stake own).
    { apply List.find_some in Hfind as [Hin _].
      exact (proj1 (List.Forall_forall _ _) Hrows own Hin). }
    pose proof (total_of_nonneg _ (others_stakes u rows Hrows)) as Hnn.
    destruct (updateMarketProbability_mean (map bet_stake rows) (map bet_probability rows)
                stake p (bet_stake own) (bet_probability own)) as (r & Hr & Heq).
    + rewrite !length_map. reflexivity.
    + unfold total_of in *. lia.
    + unfold total_of in *. lia.
    + exists r. split; [exact Hr|]. rewrite Heq.
      fold (total_of rows). fold (weighted_of rows).
      replace (total_of rows - bet_stake own + stake)
        with (total_of (others u rows) + stake) by lia.
      apply Qdiv_comp; [|reflexivity]. rewrite Hw. ring.
  - pose proof (others_absent u rows (find_user_none u rows Hfind)) as Hsame.
    destruct (placeBet_new_prob_mean rows u stake p Hrows Hstake) as (q & Hq & Heq).
    unfold placeBet_new_prob in Hq. fold (others u rows) in Hq. rewrite Hsame in Hq.
    exists q. split; [exact Hq | exact Heq].
Qed.

End Variants.

(** C6 (amended): in exact arithmetic the two variants compute the same
    price.  For the bets of a market (one bet per user, stakes of at least
    1) and a new stake of at least 1, filtering out the user's old bet and
    calling [updateMarketProbability] without correction terms gives the
    same number as passing every bet together with the old bet as
    correction terms. *)
Theorem placeBet_variants_agree
    (all_bets : list Db.bet_row) (user_id : string) (stake : Z) (probability : Q) :
  NoDup (map Db.user_id all_bets) ->
  Forall (fun b => 1 <= Db.bet_stake b) all_bets ->
  1 <= stake ->
  exists q q',
    Db.placeBet_new_prob all_bets user_id stake probability = Some q
    /\ InMemory.placeBet_new_prob (map InMemory.of_row all_bets) user_id stake probability
       = Some q'
    /\ (q == q')%Q.
Proof.
  intros Hnd Hrows Hstake.
  destruct (placeBet_new_prob_mean all_bets user_id stake probability Hrows Hstake)
    as (q & Hq & Heq).
  destruct (InMemory_placeBet_new_prob_mean all_bets user_id stake probability
              Hnd Hrows Hstake) as (q' & Hq' & Heq').
  exists q, q'. split; [exact Hq|]. split; [exact Hq'|].
  rewrite Heq, Heq'. reflexivity.
Qed.

Lemma placeBet_variants_agree_witness :
  let all_bets :=
    [ {| Db.market_id := "market_1"; Db.user_id := "alice"; Db.bet_stake := 5;
         Db.bet_probability := (1 # 2)%Q; Db.updated_at := 0 |};
      {| Db.market_id := "market_1"; Db.user_id := "bob"; Db.bet_stake := 60;
         Db.bet_probability := (9 # 10)%Q; Db.updated_at := 1 |} ] in
  exists q q',
    Db.placeBet_new_prob all_bets "alice" 3 (1 # 10) = Some q
    /\ InMemory.placeBet_new_prob (map InMemory.of_row all_bets) "alice" 3 (1 # 10) = Some q'
    /\ (q == q')%Q.
Proof.
  intros all_bets.
  apply (placeBet_variants_agree all_bets "alice" 3 (1 # 10)).
  - apply (bool_decide_unpack (NoDup (map Db.user_id all_bets))). vm_compute. exact I.
  - repeat constructor; simpl; lia.
  - lia.
Defined.

(** C6 as stated fails on the numbers the program computes with.  Alice
    alone holds a bet (5 at 0.5) and replaces it by 3 at 0.1: the database
    variant sees no other stake and returns 0.1; the in-memory variant
    returns [(5*0.5 - 5*0.5 + 3*0.1) / (5 - 5 + 3)], which is
    0.10000000000000002 in binary64. *)
Lemma placeBet_variants_agree_counterexample :
  let market_bets :=
    [ {| Binary64.userId := "alice"; Binary64.stake := 5; Binary64.probability := 0.5 |} ] in
  Binary64.Db_placeBet_new_prob market_bets "alice" 3 0.1 = 0.1%float
  /\ Binary64.InMemory_placeBet_new_prob market_bets "alice" 3 0.1
     = 0.10000000000000002%float
  /\ PrimFloat.eqb (Binary64.Db_placeBet_new_prob market_bets "alice" 3 0.1)
                   (Binary64.InMemory_placeBet_new_prob market_bets "alice" 3 0.1)
     = false
  /\ Binary64.Db_placeBet_new_prob market_bets "alice" 3 0.1
     <> Binary64.InMemory_placeBet_new_prob market_bets "alice" 3 0.1.
Proof.
  intros market_bets.
  split; [vm_compute; reflexivity|].
  split; [vm_compute; reflexivity|].
  split; [vm_compute; reflexivity|].
  intros H.
  assert (E : PrimFloat.eqb (Binary64.Db_placeBet_new_prob market_bets "alice" 3 0.1)
                (Binary64.InMemory_placeBet_new_prob market_bets "alice" 3 0.1) = true).
  { rewrite <- H. vm_compute. reflexivity. }
  vm_compute in E. discriminate E.
Qed.

(* ===================================================================== *)
(** * Bet placement *)
(* ===================================================================== *)

Section PlaceBet.
Import Pricing Db Ledger.

Lemma getUser_run (u : string) (o : oracle) (st : db) :
  getUser u o st =
  if o (SelectUser u) then (inl (PersistenceFailure (SelectUser u)), st)
  else match users st !! u with
       | Some row => (inr row, st)
       | None =>
           if o (InsertUser u) then (inl (PersistenceFailure (InsertUser u)), st)
           else (inr new_user, with_users st (<[u := new_user]> (users st)))
       end.
Proof.
  unfold getUser, bind, pool_query, ret. destruct (o (SelectUser u)); [reflexivity|].
  destruct (users st !! u); [reflexivity|]. destruct (o (InsertUser u)); reflexivity.
Qed.

Lemma getUser_ok (u : string) (o : oracle) (st : db) (row : user_row) (st1 : db) :
  getUser u o st = (inr row, st1) ->
  row = user_read u st /\ st1 = after_getUser u st /\ is_Some (users st1 !! u).
Proof.
  rewrite getUser_run. unfold user_read, after_getUser.
  destruct (o (SelectUser u)); [discriminate|].
  destruct (users st !! u) as [r|] eqn:E.
  - intros H; inversion H; subst. rewrite E. eauto.
  - destruct (o (InsertUser u)); [discriminate|].
    intros H; inversion H; subst. repeat split; try reflexivity.
    simpl. rewrite lookup_insert_eq. eauto.
Qed.

Lemma getUser_fail (u : string) (o : oracle) (st : db) (e : error) (st1 : db) :
  getUser u o st = (inl e, st1) -> st1 = st.
Proof.
  rewrite getUser_run.
  destruct (o (SelectUser u)); [intros H; inversion H; reflexivity|].
  destruct (users st !! u) as [r|] eqn:E; [discriminate|].
  destruct (o (InsertUser u)); [intros H; inversion H; reflexivity | discriminate].
Qed.

Lemma bets_after_getUser (u : string) (st : db) : bets (after_getUser u st) = bets st.
Proof. unfold after_getUser. destruct (users st !! u); reflexivity. Qed.

Lemma markets_after_getUser (u : string) (st : db) :
  markets (after_getUser u st) = markets st.
Proof. unfold after_getUser. destruct (users st !! u); reflexivity. Qed.

Lemma bets_on_after_getUser (m u : string) (st : db) :
  bets_on m (after_getUser u st) = bets_on m st.
Proof. unfold bets_on. rewrite bets_after_getUser. reflexivity. Qed.


Ltac refused := intros H; inversion H; constructor.

(** Whatever statements fail, [placeBet] ends in one of the three outcomes
    of [placed_state]. *)
Lemma placeBet_inv (now : Z) (m u : string) (amt : Z) (p : Q) (o : oracle) (st : db)
    (res : error + placed) (st' : db) :
  placeBet now m u amt p o st = (res, st') ->
  placed_state now m u amt p st res st'.
Proof.
  unfold placeBet.
  destruct (Qle_bool 0 p) eqn:Hp0; simpl; [|refused].
  destruct (Qle_bool p 1) eqn:Hp1; simpl; [|refused].
  unfold bind at 1. unfold getMarket at 1. unfold pool_query at 1.
  destruct (o (SelectMarket m)); [refused|].
  destruct (markets st !! m) as [market|] eqn:Hm; [|refused].
  destruct (active market) eqn:Hact; simpl; [|refused].
  destruct (deadline market <? now) eqn:Hdl; [refused|].
  unfold bind at 1.
  destruct (getUser u o st) as [[e|user] st1] eqn:Hu.
  { apply getUser_fail in Hu. subst st1. refused. }
  apply getUser_ok in Hu as (-> & -> & Hsome).
  unfold bind at 1. unfold getUserBet at 1. unfold pool_query at 1.
  destruct (o (SelectBet m u)); [refused|].
  rewrite bets_after_getUser. fold (available_bankroll m u st).
  destruct (available_bankroll m u st <? calculateStake amt) eqn:Hav; [refused|].
  unfold bind at 1. unfold getMarketBets at 1. unfold pool_query at 1.
  destruct (o (SelectBets m)); [refused|].
  fold (bets_on m (after_getUser u st)). rewrite bets_on_after_getUser.
  unfold bind at 1. unfold transaction.
  destruct (o Begin); [refused|].
  unfold bind at 1. unfold upsertBet at 1. unfold pool_query at 1.
  destruct (o (UpsertBet m u)); [refused|].
  unfold bind at 1. unfold updateMarket at 1. unfold pool_query at 1.
  destruct (o (UpdateMarket m)); [refused|].
  unfold updateUser at 1. unfold pool_query at 1.
  destruct (o (UpdateUser u)); [refused|].
  destruct (o Commit); [refused|].
  match goal with |- (_ o ?s4 = _) -> _ => set (st4 := s4) end.
  assert (E4 : st4 = place_commit now m u (calculateStake amt) p market (user_read u st)
                       (after_getUser u st)).
  { subst st4. unfold place_commit, with_users, with_markets, with_bets. simpl.
    rewrite ?bets_after_getUser, ?bets_on_after_getUser. reflexivity. }
  assert (Hu4 : is_Some (users st4 !! u)).
  { subst st4. simpl. destruct Hsome as [row Hrow].
    rewrite lookup_alter_eq, Hrow. simpl. eauto. }
  clearbody st4. destruct Hu4 as [row4 Hrow4].
  unfold bind at 1. rewrite getUser_run, Hrow4.
  destruct (o (SelectUser u)).
  { intros H; inversion H; subst. eapply placed_committed; eauto. discriminate. }
  unfold bind at 1. unfold getMarket at 1. unfold pool_query at 1.
  destruct (o (SelectMarket m)).
  { intros H; inversion H; subst. eapply placed_committed; eauto. discriminate. }
  unfold ret. intros H; inversion H; subst.
  eapply placed_committed; eauto. intros r Hr. inversion Hr; subst. reflexivity.
Qed.

End PlaceBet.

(* ===================================================================== *)
(** * Invariants of the tables *)
(* ===================================================================== *)

Section Extension.
Import Pricing Db Ledger.

Lemma extends_refl (st : db) : extends st st.
Proof. repeat split; eauto. Qed.

Lemma extends_trans (st1 st2 st3 : db) :
  extends st1 st2 -> extends st2 st3 -> extends st1 st3.
Proof.
  intros (Hb & Hu & Hm) (Hb' & Hu' & Hm'). repeat split.
  - congruence.
  - eauto.
  - intros id m H. destruct (Hm _ _ H) as (m' & H' & E).
    destruct (Hm' _ _ H') as (m'' & H'' & E'). exists m''. split; congruence.
Qed.

Lemma preserves_ret {A} (a : A) : preserves (ret a).
Proof. intros o st. apply extends_refl. Qed.

Lemma preserves_throw {A} (e : error) : preserves (@throw A e).
Proof. intros o st. apply extends_refl. Qed.

Lemma preserves_bind {A B} (c : M A) (k : A -> M B) :
  preserves c -> (forall a, preserves (k a)) -> preserves (bind c k).
Proof.
  intros Hc Hk o st. unfold bind. specialize (Hc o st).
  destruct (c o st) as [[e|a] st1]; simpl in *; [exact Hc|].
  eapply extends_trans; [exact Hc | apply Hk].
Qed.

Lemma preserves_try_catch {A} (body : M A) (handler : error -> M A) :
  preserves body -> (forall e, preserves (handler e)) -> preserves (try_catch body handler).
Proof.
  intros Hb Hh o st. unfold try_catch. specialize (Hb o st).
  destruct (body o st) as [[e|a] st1]; simpl in *; [|exact Hb].
  eapply extends_trans; [exact Hb | apply Hh].
Qed.

Lemma preserves_pool_query {A} (q : query) (run : db -> A * db) :
  (forall st, extends st (snd (run st))) -> preserves (pool_query q run).
Proof.
  intros Hrun o st. unfold pool_query. destruct (o q); simpl; [apply extends_refl|].
  specialize (Hrun st). destruct (run st) as [a st1]. exact Hrun.
Qed.

Lemma preserves_promise_all {A} (ps : list (M A)) :
  Forall preserves ps -> preserves (promise_all ps).
Proof.
  induction 1 as [|p ps Hp Hps IH]; simpl; [apply preserves_ret|].
  intros o st. specialize (Hp o st). specialize (IH o).
  destruct (p o st) as [[e|a] st1]; simpl in *.
  - eapply extends_trans; [exact Hp | apply IH].
  - specialize (IH st1). destruct (promise_all ps o st1) as [[e|l] st2]; simpl in *;
      eapply extends_trans; eauto.
Qed.

Lemma extends_users (st : db) (us : gmap string user_row) :
  (forall u, is_Some (users st !! u) -> is_Some (us !! u)) ->
  extends st (with_users st us).
Proof. intros H. repeat split; simpl; eauto. Qed.

Lemma preserves_getUser (u : string) : preserves (getUser u).
Proof.
  unfold getUser. apply preserves_bind.
  - apply preserves_pool_query. intros st. apply extends_refl.
  - intros [row|]; [apply preserves_ret|].
    apply preserves_bind; [|intros; apply preserves_ret].
    apply preserves_pool_query. intros st. simpl. apply extends_users.
    intros v Hv. destruct (decide (u = v)) as [->|NE].
    + rewrite lookup_insert_eq. eauto.
    + rewrite lookup_insert_ne by exact NE. exact Hv.
Qed.

Lemma preserves_updateUser (u : string) (updates : user_row -> user_row) :
  preserves (updateUser u updates).
Proof.
  apply preserves_pool_query. intros st. simpl. apply extends_users.
  intros v [row Hv]. destruct (decide (u = v)) as [->|NE].
  - rewrite lookup_alter_eq, Hv. simpl. eauto.
  - rewrite lookup_alter_ne by exact NE. eauto.
Qed.

Lemma preserves_getMarket (m : string) : preserves (getMarket m).
Proof. apply preserves_pool_query. intros st. apply extends_refl. Qed.

Lemma preserves_getMarketBets (m : string) : preserves (getMarketBets m).
Proof. apply preserves_pool_query. intros st. apply extends_refl. Qed.

Lemma preserves_set_resolved (m : string) (outcome : bool) (now : Z) :
  preserves (updateMarket m (set_resolved outcome now)).
Proof.
  apply preserves_pool_query. intros st. simpl. repeat split; simpl; eauto.
  intros id row Hrow. destruct (decide (m = id)) as [->|NE].
  - rewrite lookup_alter_eq, Hrow. simpl. eauto.
  - rewrite lookup_alter_ne by exact NE. eauto.
Qed.

Lemma preserves_createMarket (id : string) (marketData : market_row) :
  preserves (createMarket id marketData).
Proof.
  intros o st. unfold createMarket.
  destruct (o (InsertMarket id)); simpl; [apply extends_refl|].
  destruct (markets st !! id) as [row|] eqn:Hid; simpl; [apply extends_refl|].
  repeat split; simpl; eauto.
  intros id' row Hrow. exists row. split; [|reflexivity].
  rewrite lookup_insert_ne; [exact Hrow | congruence].
Qed.

Lemma preserves_predict_resolve (isAdmin : bool) (now : Z) (m : string) (outcome : bool) :
  preserves (predict_resolve isAdmin now m outcome).
Proof.
  unfold predict_resolve. destruct (negb isAdmin); [apply preserves_ret|].
  apply preserves_try_catch; [|intros; apply preserves_ret].
  apply preserves_bind; [apply preserves_getMarket|].
  intros [market|]; [|apply preserves_ret].
  destruct (resolved market); [apply preserves_ret|].
  apply preserves_bind; [apply preserves_getMarketBets|].
  intros rows. destruct (length rows =? 0)%nat; [apply preserves_ret|].
  apply preserves_bind.
  - apply preserves_promise_all. apply List.Forall_forall. intros c Hc.
    apply in_map_iff in Hc as (b & <- & _). unfold payout_promise.
    apply preserves_bind; [apply preserves_getUser|].
    intros user. apply preserves_bind; [apply preserves_updateUser|].
    intros; apply preserves_ret.
  - intros l. apply preserves_bind; [apply preserves_set_resolved|].
    intros; apply preserves_ret.
Qed.

Lemma preserves_predict_create (now : Z) (q c : string) (d : Z) :
  preserves (predict_create now q c d).
Proof.
  unfold predict_create. apply preserves_try_catch; [|intros; apply preserves_ret].
  destruct (d <? now); [apply preserves_ret|].
  apply preserves_bind; [apply preserves_createMarket|].
  intros; apply preserves_ret.
Qed.

Lemma extends_after_getUser (u : string) (st : db) : extends st (after_getUser u st).
Proof.
  unfold after_getUser. destruct (users st !! u) as [row|] eqn:E; [apply extends_refl|].
  apply extends_users. intros v Hv. destruct (decide (u = v)) as [->|NE].
  - rewrite lookup_insert_eq. eauto.
  - rewrite lookup_insert_ne by exact NE. exact Hv.
Qed.

End Extension.

Section Upsert.
Import Pricing Db Ledger.

Lemma is_bet_of_spec (m u : string) (b : bet_row) :
  is_bet_of m u b = true <-> market_id b = m /\ user_id b = u.
Proof.
  unfold is_bet_of. rewrite andb_true_iff, !String.eqb_eq. reflexivity.
Qed.

Lemma is_bet_of_key (row b : bet_row) :
  is_bet_of (market_id row) (user_id row) b = true <-> key b = key row.
Proof.
  rewrite is_bet_of_spec. unfold key. split.
  - intros [-> ->]. reflexivity.
  - intros E. inversion E. split; reflexivity.
Qed.

Lemma upsert_keys (row : bet_row) (rows : list bet_row) (k : string * string) :
  k ∈ map key (upsert row rows) -> k = key row \/ k ∈ map key rows.
Proof.
  induction rows as [|b rows IH]; simpl.
  - intros H. apply elem_of_cons in H as [H|H]; [left; exact H | right; exact H].
  - destruct (is_bet_of (market_id row) (user_id row) b) eqn:E; simpl.
    + intros H. apply elem_of_cons in H as [H|H]; [left; exact H|].
      right. apply elem_of_cons. right. exact H.
    + intros H. apply elem_of_cons in H as [H|H].
      * right. apply elem_of_cons. left. exact H.
      * destruct (IH H) as [H'|H']; [left; exact H'|].
        right. apply elem_of_cons. right. exact H'.
Qed.

Lemma upsert_NoDup (row : bet_row) (rows : list bet_row) :
  NoDup (map key rows) -> NoDup (map key (upsert row rows)).
Proof.
  induction rows as [|b rows IH]; simpl; intros Hnd.
  - apply NoDup_singleton.
  - apply NoDup_cons in Hnd as [Hnotin Hnd].
    destruct (is_bet_of (market_id row) (user_id row) b) eqn:E; simpl.
    + apply is_bet_of_key in E. apply NoDup_cons. rewrite <- E.
      split; assumption.
    + apply NoDup_cons. split; [|apply IH, Hnd].
      intros H. apply upsert_keys in H as [H|H]; [|contradiction].
      apply is_bet_of_key in H. congruence.
Qed.

Lemma upsert_Forall (P : bet_row -> Prop) (row : bet_row) (rows : list bet_row) :
  P row -> Forall P rows -> Forall P (upsert row rows).
Proof.
  intros Hrow. induction 1 as [|b rows Hb Hrows IH]; simpl.
  - constructor; [exact Hrow | constructor].
  - destruct (is_bet_of (market_id row) (user_id row) b); constructor; assumption.
Qed.

(** The upsert touches the bets of the market of [row] only. *)
Lemma filter_upsert_other (id : string) (row : bet_row) (rows : list bet_row) :
  market_id row <> id ->
  List.filter (fun b => String.eqb (market_id b) id) (upsert row rows)
  = List.filter (fun b => String.eqb (market_id b) id) rows.
Proof.
  intros Hne.
  assert (Hrow : String.eqb (market_id row) id = false) by (apply String.eqb_neq; exact Hne).
  induction rows as [|b rows IH]; simpl.
  - rewrite Hrow. reflexivity.
  - destruct (is_bet_of (market_id row) (user_id row) b) eqn:E; simpl.
    + apply is_bet_of_spec in E as [Em _].
      rewrite Hrow, Em, Hrow. reflexivity.
    + rewrite IH. reflexivity.
Qed.

Lemma filter_upsert_same (row : bet_row) (rows : list bet_row) :
  List.filter (fun b => String.eqb (market_id b) (market_id row)) (upsert row rows)
  = upsert row (List.filter (fun b => String.eqb (market_id b) (market_id row)) rows).
Proof.
  induction rows as [|b rows IH]; simpl.
  - rewrite String.eqb_refl. reflexivity.
  - destruct (is_bet_of (market_id row) (user_id row) b) eqn:E; simpl.
    + pose proof E as E'. apply is_bet_of_spec in E' as [Em _].
      rewrite String.eqb_refl, Em, String.eqb_refl. simpl. rewrite E. reflexivity.
    + destruct (String.eqb (market_id b) (market_id row)) eqn:Em; simpl.
      * rewrite E, IH. reflexivity.
      * exact IH.
Qed.

(** Within one market, the bets after the upsert are those of the others
    and the new one. *)
Lemma upsert_totals (row : bet_row) (rows : list bet_row) :
  Forall (fun b => market_id b = market_id row) rows ->
  NoDup (map user_id rows) ->
  total_of (upsert row rows) = total_of (others (user_id row) rows) + bet_stake row
  /\ (weighted_of (upsert row rows)
      == weighted_of (others (user_id row) rows)
         + inject_Z (bet_stake row) * bet_probability row)%Q.
Proof.
  unfold total_of, weighted_of.
  induction 1 as [|b rows Hb Hrows IH]; simpl; intros Hnd.
  - split; [lia | ring].
  - apply NoDup_cons in Hnd as [Hnotin Hnd].
    unfold is_bet_of. rewrite Hb, String.eqb_refl. simpl.
    destruct (String.eqb_spec (user_id b) (user_id row)) as [E|NE]; simpl.
    + fold (others (user_id row) rows).
      rewrite others_absent by (rewrite <- E; exact Hnotin). split; [lia | ring].
    + destruct (IH Hnd) as [IHt IHw]. fold (others (user_id row) rows) in *.
      split; [lia|]. rewrite IHw. ring.
Qed.

Lemma bets_on_same_market (m : string) (rows : list bet_row) :
  Forall (fun b => market_id b = m)
         (List.filter (fun b => String.eqb (market_id b) m) rows).
Proof.
  apply List.Forall_forall. intros b Hb. apply filter_In in Hb as [_ Hb].
  apply String.eqb_eq, Hb.
Qed.

Lemma bets_on_users_NoDup (m : string) (rows : list bet_row) :
  NoDup (map key rows) ->
  NoDup (map user_id (List.filter (fun b => String.eqb (market_id b) m) rows)).
Proof.
  induction rows as [|b rows IH]; simpl; intros Hnd; [apply NoDup_nil_2|].
  apply NoDup_cons in Hnd as [Hnotin Hnd].
  destruct (String.eqb_spec (market_id b) m) as [E|NE]; simpl; [|apply IH, Hnd].
  apply NoDup_cons. split; [|apply IH, Hnd].
  intros H. apply Hnotin.
  apply list_elem_of_In, in_map_iff in H as (b' & Hu & Hin).
  apply filter_In in Hin as [Hin Hm]. apply String.eqb_eq in Hm.
  apply list_elem_of_In, in_map_iff. exists b'. split; [|exact Hin].
  unfold key. congruence.
Qed.

Lemma find_bets_on (m u : string) (rows : list bet_row) :
  List.find (fun b => String.eqb (user_id b) u)
            (List.filter (fun b => String.eqb (market_id b) m) rows)
  = List.find (is_bet_of m u) rows.
Proof.
  induction rows as [|b rows IH]; simpl; [reflexivity|].
  unfold is_bet_of at 1.
  destruct (String.eqb (market_id b) m); simpl; [|exact IH].
  destruct (String.eqb (user_id b) u); [reflexivity | exact IH].
Qed.

Lemma Forall_bets_on (P : bet_row -> Prop) (m : string) (st : db) :
  Forall P (bets st) -> Forall P (bets_on m st).
Proof.
  intros H. apply List.Forall_forall. intros b Hb. apply filter_In in Hb as [Hb _].
  exact (proj1 (List.Forall_forall _ _) H b Hb).
Qed.

Lemma bets_on_nonempty (m : string) (st : db) :
  bets_on m st <> [] -> exists b, In b (bets st) /\ market_id b = m.
Proof.
  unfold bets_on. intros H.
  destruct (List.filter _ (bets st)) as [|b l] eqn:E; [contradiction|].
  assert (Hb : In b (List.filter (fun b => String.eqb (market_id b) m) (bets st)))
    by (rewrite E; left; reflexivity).
  apply filter_In in Hb as [Hb Hm]. exists b. split; [exact Hb | apply String.eqb_eq, Hm].
Qed.

End Upsert.

Section Consistency.
Import Pricing Db Ledger.

Lemma consistent_empty : consistent empty_db.
Proof.
  split; simpl; try constructor.
  intros id m H. rewrite lookup_empty in H. discriminate.
Qed.

Lemma consistent_extends (st st' : db) :
  consistent st -> extends st st' -> consistent st'.
Proof.
  intros [Hnd Hst Hpr Hus Hms Hprice] (Hb & Hu & Hm).
  split; rewrite ?Hb; try assumption.
  - eapply Forall_impl; [exact Hus|]. intros b Hsome. apply Hu, Hsome.
  - eapply Forall_impl; [exact Hms|]. intros b [m Hsome].
    destruct (Hm _ _ Hsome) as (m' & Hm' & _). eauto.
  - intros id m' Hm' Hne.
    assert (Hbets : bets_on id st' = bets_on id st) by (unfold bets_on; rewrite Hb; reflexivity).
    rewrite Hbets in *.
    destruct (bets_on_nonempty id st Hne) as (b & Hin & Hid).
    destruct (proj1 (List.Forall_forall _ _) Hms b Hin) as [m Hsome].
    rewrite Hid in Hsome.
    destruct (Hm _ _ Hsome) as (m'' & Hm'' & Eprob).
    rewrite Hm' in Hm''. inversion Hm''; subst m''.
    rewrite Eprob. apply (Hprice id m Hsome Hne).
Qed.

Lemma calculateStake_range (desired_amount : Z) : 1 <= calculateStake desired_amount <= 100.
Proof. unfold calculateStake. lia. Qed.

Lemma calculateStake_id (stake : Z) : 1 <= stake <= 100 -> calculateStake stake = stake.
Proof. unfold calculateStake. lia. Qed.

(** The committed transaction of [placeBet] keeps the tables consistent. *)
Lemma consistent_place_commit (now : Z) (m u : string) (amt : Z) (p : Q)
    (market : market_row) (user : user_row) (st1 : db) :
  consistent st1 ->
  Qle_bool 0 p = true -> Qle_bool p 1 = true ->
  markets st1 !! m = Some market ->
  is_Some (users st1 !! u) ->
  consistent (place_commit now m u (calculateStake amt) p market user st1).
Proof.
  intros [Hnd Hst Hpr Hus Hms Hprice] Hp0 Hp1 Hm Hu.
  apply Qle_bool_iff in Hp0, Hp1.
  pose proof (calculateStake_range amt) as Hstake.
  set (row := {| market_id := m; user_id := u; bet_stake := calculateStake amt;
                 bet_probability := p; updated_at := now |}).
  split; unfold place_commit; simpl; fold row.
  - apply upsert_NoDup, Hnd.
  - apply upsert_Forall; [exact Hstake | exact Hst].
  - apply upsert_Forall; [split; assumption | exact Hpr].
  - apply upsert_Forall.
    + simpl. destruct Hu as [r Hr]. rewrite lookup_alter_eq, Hr. simpl. eauto.
    + eapply Forall_impl; [exact Hus|]. intros b [r Hr].
      destruct (decide (u = user_id b)) as [E|NE].
      * rewrite <- E in *. rewrite lookup_alter_eq, Hr. simpl. eauto.
      * rewrite lookup_alter_ne by exact NE. eauto.
  - apply upsert_Forall.
    + simpl. rewrite lookup_alter_eq, Hm. simpl. eauto.
    + eapply Forall_impl; [exact Hms|]. intros b [r Hr].
      destruct (decide (m = market_id b)) as [E|NE].
      * rewrite <- E in *. rewrite lookup_alter_eq, Hr. simpl. eauto.
      * rewrite lookup_alter_ne by exact NE. eauto.
  - intros id m' Hm'. unfold bets_on. simpl.
    destruct (decide (m = id)) as [<-|NE].
    + intros _. rewrite lookup_alter_eq, Hm in Hm'. simpl in Hm'.
      inversion Hm'; subst m'. simpl.
      assert (Hrows : Forall (fun b => 1 <= bet_stake b) (bets_on m st1)).
      { apply Forall_bets_on. eapply Forall_impl; [exact Hst|]. simpl. intros; lia. }
      destruct (placeBet_new_prob_mean (bets_on m st1) u (calculateStake amt) p Hrows)
        as (q & Hq & Heq); [lia|].
      exists q. split; [exact Hq|]. rewrite Heq.
      change m with (market_id row) at 3. rewrite filter_upsert_same. simpl.
      fold (bets_on m st1).
      destruct (upsert_totals row (bets_on m st1)) as [Ht Hw].
      * apply bets_on_same_market.
      * apply bets_on_users_NoDup, Hnd.
      * unfold mean. rewrite Ht. simpl.
        apply Qdiv_comp; [|reflexivity]. rewrite Hw. reflexivity.
    + rewrite lookup_alter_ne in Hm' by exact NE.
      rewrite filter_upsert_other by exact NE. apply (Hprice id m' Hm').
Qed.

Lemma consistent_placeBet (now : Z) (m u : string) (amt : Z) (p : Q) (o : oracle) (st : db) :
  consistent st -> consistent (snd (placeBet now m u amt p o st)).
Proof.
  intros Hst.
  destruct (placeBet now m u amt p o st) as [res st'] eqn:E. simpl.
  pose proof (consistent_extends _ _ Hst (extends_after_getUser u st)) as Hst1.
  destruct (placeBet_inv _ _ _ _ _ _ _ _ _ E); [exact Hst | exact Hst1 |].
  apply consistent_place_commit; try assumption.
  - rewrite markets_after_getUser. assumption.
  - unfold after_getUser. destruct (users st !! u) as [row|] eqn:Eu.
    + rewrite Eu. eauto.
    + simpl. rewrite lookup_insert_eq. eauto.
Qed.

(** Every reachable state of the tables is consistent. *)
Lemma reachable_consistent (st : db) : reachable st -> consistent st.
Proof.
  induction 1 as [|c o st Hreach IH]; [apply consistent_empty|].
  destruct c as [now q cr d | now m u amt p | isAdmin now m outcome]; simpl.
  - eapply consistent_extends; [exact IH | apply preserves_predict_create].
  - apply consistent_placeBet, IH.
  - eapply consistent_extends; [exact IH | apply preserves_predict_resolve].
Qed.

Lemma reachable_run (cs : list command) (st : db) :
  reachable st -> reachable (run cs st).
Proof.
  revert st. induction cs as [|c cs IH]; intros st H; simpl; [exact H|].
  apply IH. constructor. exact H.
Qed.

End Consistency.

Section Solvency.
Import Pricing Db Ledger.

(** A user who is in no row of [users] has no bet, hence the default
    bankroll of 1000 available, which covers any clamped stake. *)
Lemma short_of_money_is_known (m u : string) (amt : Z) (st : db) :
  consistent st ->
  available_bankroll m u st < calculateStake amt ->
  is_Some (users st !! u).
Proof.
  intros Hst Hav. destruct (users st !! u) as [row|] eqn:E; [eauto|]. exfalso.
  unfold available_bankroll, user_read in Hav. rewrite E in Hav. simpl in Hav.
  destruct (List.find (is_bet_of m u) (bets st)) as [b|] eqn:F.
  - apply List.find_some in F as [Hin Hb]. apply is_bet_of_spec in Hb as [_ Hb].
    destruct (proj1 (List.Forall_forall _ _) (bettors_exist st Hst) b Hin) as [row Hrow].
    congruence.
  - simpl in Hav. pose proof (calculateStake_range amt). lia.
Qed.

End Solvency.

(** C3 (amended): in a reachable state, for a [placeBet] whose probability
    is in [0,1] and whose market exists, is active and has not expired, if
    the clamped stake exceeds
    [availableBankroll = bankroll - total_staked + (stake of the user's bet
    on this market, 0 if none)], the call fails with [InsufficientBankroll]
    carrying that value, and users, markets and bets are exactly as before. *)
Theorem insufficient_bankroll_is_refused
    (now : Z) (marketId userId : string) (desiredAmount : Z) (probability : Q)
    (st : Db.db) (market : Db.market_row) :
  Ledger.reachable st ->
  (0 <= probability /\ probability <= 1)%Q ->
  Db.markets st !! marketId = Some market ->
  Db.active market = true ->
  now <= Db.deadline market ->
  Ledger.available_bankroll marketId userId st < Pricing.calculateStake desiredAmount ->
  Db.placeBet now marketId userId desiredAmount probability Db.reliable st
  = (inl (Db.InsufficientBankroll (Ledger.available_bankroll marketId userId st)), st).
Proof.
  intros Hreach [Hp0 Hp1] Hm Hact Hdl Hav.
  pose proof (reachable_consistent st Hreach) as Hst.
  destruct (short_of_money_is_known marketId userId desiredAmount st Hst Hav) as [row Hrow].
  apply Qle_bool_iff in Hp0, Hp1.
  unfold Db.placeBet. rewrite Hp0, Hp1. simpl.
  unfold Db.bind at 1. unfold Db.getMarket at 1. unfold Db.pool_query at 1. simpl.
  rewrite Hm, Hact. simpl.
  destruct (Z.ltb_spec (Db.deadline market) now) as [C|_]; [lia|].
  unfold Db.bind at 1. rewrite getUser_run. simpl. rewrite Hrow.
  unfold Db.bind at 1. unfold Db.getUserBet at 1. unfold Db.pool_query at 1. simpl.
  unfold Ledger.available_bankroll, Ledger.user_read in *. rewrite Hrow in *.
  destruct (Z.ltb_spec
              (Db.bankroll row - Db.total_staked row
               + Db.stake_of (List.find (Db.is_bet_of marketId userId) (Db.bets st)))
              (Pricing.calculateStake desiredAmount)) as [_|C]; [reflexivity | lia].
Qed.

Lemma insufficient_bankroll_is_refused_witness :
  Ledger.available_bankroll "market_11" "alice" Scenario.alice_all_in = 0
  /\ Pricing.calculateStake 50 = 50
  /\ Db.placeBet 30 "market_11" "alice" 50 (1 # 2) Db.reliable Scenario.alice_all_in
     = (inl (Db.InsufficientBankroll
               (Ledger.available_bankroll "market_11" "alice" Scenario.alice_all_in)),
        Scenario.alice_all_in).
Proof.
  split; [vm_compute; reflexivity|]. split; [reflexivity|].
  eapply (insufficient_bankroll_is_refused 30 "market_11" "alice" 50 (1 # 2)
            Scenario.alice_all_in).
  - unfold Scenario.alice_all_in, Ledger.run, Scenario.ten_markets, Scenario.ten_bets.
    cbn [map app fold_left]. repeat constructor.
  - split; unfold Qle; simpl; lia.
  - vm_compute. reflexivity.
  - reflexivity.
  - simpl. lia.
  - vm_compute. reflexivity.
Defined.

(** C3 as stated fails when an earlier check of [placeBet] fails first.
    Alice has nothing available and asks for a stake of 50: with a
    probability of 1.5 the call fails with [InvalidProbability], on a market
    that does not exist with [MarketNotFound], after the deadline with
    [MarketExpired]; in each case the tables are unchanged. *)
Lemma insufficient_bankroll_counterexample :
  Ledger.available_bankroll "market_11" "alice" Scenario.alice_all_in
  < Pricing.calculateStake 50
  /\ Db.placeBet 30 "market_11" "alice" 50 (3 # 2) Db.reliable Scenario.alice_all_in
     = (inl Db.InvalidProbability, Scenario.alice_all_in)
  /\ Ledger.available_bankroll "market_12" "alice" Scenario.alice_all_in
     < Pricing.calculateStake 50
  /\ Db.placeBet 30 "market_12" "alice" 50 (1 # 2) Db.reliable Scenario.alice_all_in
     = (inl Db.MarketNotFound, Scenario.alice_all_in)
  /\ Db.placeBet 6000 "market_11" "alice" 50 (1 # 2) Db.reliable Scenario.alice_all_in
     = (inl Db.MarketExpired, Scenario.alice_all_in).
Proof.
  split; [vm_compute; reflexivity|].
  split; [vm_compute; reflexivity|].
  split; [vm_compute; reflexivity|].
  split; vm_compute; reflexivity.
Qed.




Section StoredPrice.
Import Pricing Db Ledger.

(** In a reachable state, the price a successful [placeBet] returns and
    stores is a number in [0,1]. *)
Lemma placeBet_price_in_unit_interval
    (now : Z) (m u : string) (amt : Z) (p : Q) (o : oracle)
    (st : db) (r : placed) (st' : db) :
  reachable st ->
  placeBet now m u amt p o st = (inr r, st') ->
  exists q,
    new_market_probability r = Some q
    /\ (probability <$> markets st' !! m) = Some (Some q)
    /\ (0 <= q /\ q <= 1)%Q.
Proof.
  intros Hreach Hplace.
  pose proof (reachable_consistent st Hreach) as Hst.
  apply placeBet_inv in Hplace.
  inversion Hplace as [ | | res market Hp0 Hp1 Hm Hact Hdl Hav Hres E1 E2].
  subst st' res. clear Hplace.
  apply Qle_bool_iff in Hp0, Hp1.
  pose proof (calculateStake_range amt) as Hstake.
  set (rows := others u (bets_on m st)).
  assert (Hrows : Forall (fun b => 1 <= bet_stake b) (bets_on m st)).
  { apply Forall_bets_on. eapply Forall_impl; [exact (stakes_clamped st Hst)|].
    simpl. intros; lia. }
  destruct (placeBet_new_prob_mean (bets_on m st) u (calculateStake amt) p Hrows)
    as (q & Hq & Heq); [lia|].
  exists q. rewrite (Hres r eq_refl). split; [exact Hq|]. split.
  { unfold place_commit. simpl. rewrite lookup_alter_eq, markets_after_getUser, Hm.
    simpl. rewrite bets_on_after_getUser, Hq. reflexivity. }
  fold rows in Heq.
  assert (Hs : Forall (fun s => 0 <= s) (map bet_stake rows)).
  { apply List.Forall_forall. intros s Hs. apply in_map_iff in Hs as (b & <- & Hb).
    pose proof (proj1 (List.Forall_forall _ _) (others_stakes u _ Hrows) b Hb). simpl in *. lia. }
  assert (Hp : Forall (fun x => 0 <= x /\ x <= 1)%Q (map bet_probability rows)).
  { apply List.Forall_forall. intros x Hx. apply in_map_iff in Hx as (b & <- & Hb).
    apply filter_In in Hb as [Hb _]. apply filter_In in Hb as [Hb _].
    exact (proj1 (List.Forall_forall _ _) (probabilities_valid st Hst) b Hb). }
  destruct (sum_products_bounds _ _ Hs Hp) as [HW0 HW1].
  pose proof (total_nonneg _ Hs) as HT.
  fold (weighted_of rows) in HW0, HW1. fold (total_of rows) in HW1, HT.
  assert (Hn0 : (1 <= inject_Z (calculateStake amt))%Q)
    by (change 1%Q with (inject_Z 1); rewrite <- Zle_Qle; lia).
  assert (HTq : (0 <= inject_Z (total_of rows))%Q)
    by (change 0%Q with (inject_Z 0); rewrite <- Zle_Qle; exact HT).
  assert (Hden : (0 < inject_Z (total_of rows + calculateStake amt))%Q)
    by (rewrite inject_Z_plus; lra).
  rewrite Heq. split.
  - apply Qle_shift_div_l; [exact Hden|]. nra.
  - apply Qle_shift_div_r; [exact Hden|]. rewrite inject_Z_plus. nra.
Qed.

End StoredPrice.

(* ===================================================================== *)
(** * The stake invariant on open markets *)
(* ===================================================================== *)

Section OpenStake.
Import Pricing Db Ledger.

Lemma reachable_on_open_markets_reachable (st : db) :
  reachable_on_open_markets st -> reachable st.
Proof. induction 1; constructor; assumption. Qed.

Lemma open_stake_ext (st st' : db) (u : string) :
  bets st' = bets st ->
  (forall b, In b (bets st) -> is_open st' b = is_open st b) ->
  open_stake st' u = open_stake st u.
Proof.
  intros Hb Hopen. unfold open_stake. rewrite Hb. do 2 f_equal.
  apply filter_ext_in. intros b Hin. rewrite (Hopen b Hin). reflexivity.
Qed.

Lemma filter_nothing {A} (f : A -> bool) (l : list A) :
  (forall x, In x l -> f x = false) -> List.filter f l = [].
Proof.
  induction l as [|x l IH]; simpl; intros H; [reflexivity|].
  rewrite (H x (or_introl eq_refl)). apply IH. intros y Hy. apply H. right. exact Hy.
Qed.

(** A user without a row has no bet. *)
Lemma open_stake_unknown (st : db) (u : string) :
  consistent st -> users st !! u = None -> open_stake st u = 0.
Proof.
  intros Hst Hu. unfold open_stake. rewrite filter_nothing; [reflexivity|].
  intros b Hin. destruct (String.eqb_spec (user_id b) u) as [E|NE]; [|reflexivity].
  destruct (proj1 (List.Forall_forall _ _) (bettors_exist st Hst) b Hin) as [row Hrow].
  congruence.
Qed.

Lemma user_after_getUser (u : string) (st : db) :
  users (after_getUser u st) !! u = Some (user_read u st).
Proof.
  unfold after_getUser, user_read. destruct (users st !! u) as [row|] eqn:E.
  - exact E.
  - simpl. apply lookup_insert_eq.
Qed.

Lemma staked_after_getUser (u : string) (st : db) :
  consistent st -> staked_is_open_stake st -> staked_is_open_stake (after_getUser u st).
Proof.
  intros Hst HJ v row Hrow.
  assert (Hopen : open_stake (after_getUser u st) v = open_stake st v).
  { apply open_stake_ext; [apply bets_after_getUser|].
    intros b _. unfold is_open. rewrite markets_after_getUser. reflexivity. }
  rewrite Hopen. unfold after_getUser in Hrow.
  destruct (users st !! u) as [r|] eqn:E; [apply HJ, Hrow|].
  simpl in Hrow. destruct (decide (u = v)) as [<-|NE].
  - rewrite lookup_insert_eq in Hrow. inversion Hrow; subst row. simpl.
    symmetry. apply open_stake_unknown; assumption.
  - rewrite lookup_insert_ne in Hrow by exact NE. apply HJ, Hrow.
Qed.

(** The sum of the stakes selected by [P] after an upsert, when [P] does not
    tell apart two rows with the same key. *)
Lemma total_filter_upsert (P : bet_row -> bool) (row : bet_row) (rows : list bet_row) :
  (forall b, key b = key row -> P b = P row) ->
  total (map bet_stake (List.filter P (upsert row rows)))
  = total (map bet_stake (List.filter P rows))
    + (if P row
       then bet_stake row
            - stake_of (List.find (is_bet_of (market_id row) (user_id row)) rows)
       else 0).
Proof.
  intros HP. induction rows as [|b rows IH]; simpl.
  - destruct (P row); simpl; lia.
  - destruct (is_bet_of (market_id row) (user_id row) b) eqn:E; simpl.
    + apply is_bet_of_key in E. rewrite (HP b E).
      destruct (P row); simpl; lia.
    + destruct (P b); simpl; rewrite IH; lia.
Qed.

Lemma staked_place_commit (now : Z) (m u : string) (amt : Z) (p : Q)
    (market : market_row) (user : user_row) (st1 : db) :
  staked_is_open_stake st1 ->
  markets st1 !! m = Some market ->
  resolved market = false ->
  users st1 !! u = Some user ->
  staked_is_open_stake (place_commit now m u (calculateStake amt) p market user st1).
Proof.
  intros HJ Hm Hres Hu v row' Hrow'.
  set (row := {| market_id := m; user_id := u; bet_stake := calculateStake amt;
                 bet_probability := p; updated_at := now |}).
  set (st' := place_commit now m u (calculateStake amt) p market user st1) in *.
  assert (Hopen : forall b, is_open st' b = is_open st1 b).
  { intros b. unfold is_open, st', place_commit. simpl.
    destruct (decide (m = market_id b)) as [E|NE].
    - rewrite <- E. rewrite lookup_alter_eq, Hm. reflexivity.
    - rewrite lookup_alter_ne by exact NE. reflexivity. }
  set (P := fun b => String.eqb (user_id b) v && is_open st1 b).
  assert (Hsum : open_stake st' v
                 = open_stake st1 v
                   + (if P row
                      then bet_stake row - stake_of (List.find (is_bet_of m u) (bets st1))
                      else 0)).
  { unfold open_stake.
    rewrite (filter_ext _ P) by (intros b; unfold P; rewrite Hopen; reflexivity).
    unfold st', place_commit. simpl. fold row.
    apply (total_filter_upsert P row (bets st1)).
    intros b Hb. unfold P, is_open. unfold key in Hb. inversion Hb as [[Hbm Hbu]].
    rewrite Hbm, Hbu. reflexivity. }
  rewrite Hsum. unfold P, is_open. simpl. rewrite Hm, Hres. simpl.
  unfold st', place_commit in Hrow'. simpl in Hrow'.
  destruct (String.eqb_spec u v) as [<-|NE]; simpl.
  - rewrite lookup_alter_eq, Hu in Hrow'. simpl in Hrow'.
    inversion Hrow'; subst row'. simpl. rewrite (HJ u user Hu). lia.
  - rewrite lookup_alter_ne in Hrow' by exact NE. rewrite (HJ v row' Hrow'). lia.
Qed.

Lemma staked_placeBet (now : Z) (m u : string) (amt : Z) (p : Q) (o : oracle) (st : db) :
  consistent st ->
  staked_is_open_stake st ->
  (forall row, markets st !! m = Some row -> resolved row = false) ->
  staked_is_open_stake (snd (placeBet now m u amt p o st)).
Proof.
  intros Hst HJ Hguard.
  destruct (placeBet now m u amt p o st) as [res st'] eqn:E. simpl.
  pose proof (staked_after_getUser u st Hst HJ) as HJ1.
  destruct (placeBet_inv _ _ _ _ _ _ _ _ _ E) as [ | | res market Hp0 Hp1 Hm];
    [exact HJ | exact HJ1 |].
  apply staked_place_commit.
  - exact HJ1.
  - rewrite markets_after_getUser. exact Hm.
  - apply (Hguard market Hm).
  - apply user_after_getUser.
Qed.

(** Creating a market touches no user and no bet, and opens or closes no
    existing bet. *)
Lemma staked_predict_create (now : Z) (q c : string) (d : Z) (o : oracle) (st : db) :
  consistent st ->
  staked_is_open_stake st ->
  staked_is_open_stake (snd (predict_create now q c d o st)).
Proof.
  intros Hst HJ. unfold predict_create, try_catch.
  destruct (d <? now); simpl; [exact HJ|].
  unfold bind, createMarket. destruct (o (InsertMarket _)); simpl; [exact HJ|].
  destruct (markets st !! ("market_" +:+ pretty now)) as [old|] eqn:Hid; simpl; [exact HJ|].
  intros v row Hrow. simpl in Hrow. rewrite (HJ v row Hrow). symmetry.
  apply open_stake_ext; [reflexivity|].
  intros b Hin. unfold is_open. simpl.
  destruct (proj1 (List.Forall_forall _ _) (bet_markets_exist st Hst) b Hin) as [mr Hmr].
  rewrite lookup_insert_ne by congruence. reflexivity.
Qed.

(** On the reliable store the promise of a bet pays its bettor. *)
Lemma payout_promise_reliable (outcome : bool) (b : bet_row) (st : db) (row : user_row) :
  users st !! user_id b = Some row ->
  payout_promise outcome b reliable st
  = (inr (user_id b, bet_payout outcome b, bet_accuracy outcome b),
     with_users st (<[user_id b := settled outcome b row]> (users st))).
Proof.
  intros Hrow. unfold payout_promise. unfold bind at 1. rewrite getUser_run. simpl.
  rewrite Hrow. unfold bind, updateUser, pool_query, ret. simpl. do 2 f_equal.
  apply map_eq. intros v. destruct (decide (user_id b = v)) as [<-|NE].
  - rewrite lookup_alter_eq, lookup_insert_eq, Hrow. reflexivity.
  - rewrite lookup_alter_ne, lookup_insert_ne by exact NE. reflexivity.
Qed.

(** On the reliable store, the promises of the bets of distinct known users
    all succeed; they pay each bettor once and touch nothing else. *)
Lemma promise_all_reliable (outcome : bool) (rows : list bet_row) :
  forall st : db,
    NoDup (map user_id rows) ->
    Forall (fun b => is_Some (users st !! user_id b)) rows ->
    exists (l : list (string * Z * Q)) (st' : db),
      promise_all (map (payout_promise outcome) rows) reliable st = (inr l, st')
      /\ bets st' = bets st
      /\ markets st' = markets st
      /\ (forall u, u ∉ map user_id rows -> users st' !! u = users st !! u)
      /\ (forall b row, In b rows -> users st !! user_id b = Some row ->
            users st' !! user_id b = Some (settled outcome b row)).
Proof.
  induction rows as [|b rows IH]; intros st Hnd Hknown; simpl.
  - exists [], st. repeat split; try reflexivity. intros b row [].
  - apply NoDup_cons in Hnd as [Hnotin Hnd].
    inversion Hknown as [|? ? [row Hrow] Hknown']; subst.
    rewrite (payout_promise_reliable outcome b st row Hrow).
    set (st1 := with_users st (<[user_id b := settled outcome b row]> (users st))).
    destruct (IH st1 Hnd) as (l & st' & Hrun & Hb & Hm & Hother & Hpaid).
    { eapply Forall_impl; [exact Hknown'|]. intros b' [r' Hr']. simpl.
      destruct (decide (user_id b = user_id b')) as [E|NE].
      - rewrite E, lookup_insert_eq. eauto.
      - rewrite lookup_insert_ne by exact NE. eauto. }
    rewrite Hrun. eexists. exists st'. split; [reflexivity|].
    split; [exact Hb|]. split; [exact Hm|]. split.
    + intros u Hu. apply not_elem_of_cons in Hu as [Hne Hu].
      rewrite (Hother u Hu). simpl. apply lookup_insert_ne. congruence.
    + intros b' row' [<-|Hin] Hrow'.
      * rewrite (Hother (user_id b) Hnotin). simpl. rewrite lookup_insert_eq.
        congruence.
      * assert (NE : user_id b <> user_id b').
        { intros E. apply Hnotin. rewrite E. apply list_elem_of_In, in_map, Hin. }
        apply (Hpaid b' row' Hin). simpl. rewrite lookup_insert_ne by exact NE. exact Hrow'.
Qed.

(** With one bet per user, the bets of [v] in a market are at most one. *)
Lemma own_total (v : string) (rows : list bet_row) :
  NoDup (map user_id rows) ->
  total (map bet_stake (List.filter (fun b => String.eqb (user_id b) v) rows))
  = stake_of (List.find (fun b => String.eqb (user_id b) v) rows).
Proof.
  induction rows as [|b rows IH]; simpl; intros Hnd; [reflexivity|].
  apply NoDup_cons in Hnd as [Hnotin Hnd].
  destruct (String.eqb_spec (user_id b) v) as [E|NE]; simpl; [|apply IH, Hnd].
  rewrite filter_nothing; [simpl; lia|].
  intros b' Hin. apply String.eqb_neq. intros E'. apply Hnotin.
  rewrite E, <- E'. apply list_elem_of_In, in_map, Hin.
Qed.

(** Closing the market [m] takes the stakes of its bets out of the open
    stake of their bettors. *)
Lemma total_closed_market (was_open is_open' : bet_row -> bool) (m v : string)
    (rows : list bet_row) :
  (forall b, market_id b = m -> was_open b = true /\ is_open' b = false) ->
  (forall b, market_id b <> m -> is_open' b = was_open b) ->
  total (map bet_stake (List.filter (fun b => String.eqb (user_id b) v && is_open' b) rows))
  = total (map bet_stake (List.filter (fun b => String.eqb (user_id b) v && was_open b) rows))
    - total (map bet_stake
               (List.filter (fun b => String.eqb (user_id b) v)
                  (List.filter (fun b => String.eqb (market_id b) m) rows))).
Proof.
  intros Hm Hother. induction rows as [|b rows IH]; simpl; [reflexivity|].
  destruct (String.eqb_spec (market_id b) m) as [E|NE]; simpl.
  - destruct (Hm b E) as [-> ->].
    destruct (String.eqb (user_id b) v); simpl; rewrite IH; lia.
  - rewrite (Hother b NE).
    destruct (String.eqb (user_id b) v && was_open b); simpl; rewrite IH; lia.
Qed.

(** Resolving a market on the reliable store keeps the stake invariant. *)
Lemma staked_predict_resolve (isAdmin : bool) (now : Z) (m : string) (outcome : bool)
    (st : db) :
  consistent st ->
  staked_is_open_stake st ->
  staked_is_open_stake (snd (predict_resolve isAdmin now m outcome reliable st)).
Proof.
  intros Hst HJ. unfold predict_resolve.
  destruct isAdmin; simpl; [|exact HJ].
  unfold try_catch. unfold bind at 1. unfold getMarket at 1. unfold pool_query at 1. simpl.
  destruct (markets st !! m) as [market|] eqn:Hm; simpl; [|exact HJ].
  destruct (resolved market) eqn:Hres; simpl; [exact HJ|].
  unfold bind at 1. unfold getMarketBets at 1. unfold pool_query at 1. simpl.
  fold (bets_on m st).
  destruct (length (bets_on m st) =? 0)%nat; simpl; [exact HJ|].
  assert (Hnd : NoDup (map user_id (bets_on m st)))
    by apply bets_on_users_NoDup, (one_bet_per_user_and_market st Hst).
  destruct (promise_all_reliable outcome (bets_on m st) st Hnd)
    as (l & st1 & Hrun & Hb & Hms & Hother & Hpaid).
  { apply Forall_bets_on, (bettors_exist st Hst). }
  unfold bind at 1. rewrite Hrun.
  unfold bind, updateMarket, pool_query, ret. simpl.
  intros v row' Hrow'. simpl in Hrow'.
  (* the open stake of [v] after the resolution *)
  assert (Hsum : open_stake
                   (with_markets st1 (alter (set_resolved outcome now) m (markets st1))) v
                 = open_stake st v
                   - stake_of (List.find (fun b => String.eqb (user_id b) v) (bets_on m st))).
  { unfold open_stake. simpl. rewrite Hb, <- (own_total v _ Hnd). unfold bets_on.
    apply total_closed_market.
    - intros b E. unfold is_open. simpl. rewrite E, lookup_alter_eq, Hms, Hm. simpl.
      rewrite Hres. split; reflexivity.
    - intros b NE. unfold is_open. simpl.
      rewrite lookup_alter_ne by congruence. rewrite Hms. reflexivity. }
  rewrite Hsum.
  destruct (List.find (fun b => String.eqb (user_id b) v) (bets_on m st)) as [b|] eqn:Hfind.
  - apply List.find_some in Hfind as [Hin Hv]. apply String.eqb_eq in Hv. subst v.
    destruct (proj1 (List.Forall_forall _ _)
                (Forall_bets_on _ m st (bettors_exist st Hst)) b Hin) as [row Hrow].
    rewrite (Hpaid b row Hin Hrow) in Hrow'. inversion Hrow'; subst row'. simpl.
    rewrite (HJ _ row Hrow). reflexivity.
  - rewrite (Hother v (find_user_none v _ Hfind)) in Hrow'.
    rewrite (HJ v row' Hrow'). simpl. lia.
Qed.

(** The invariant of the specification holds on every run on the reliable
    store that places no bet on a resolved market. *)
Lemma staked_on_open_markets (st : db) :
  reachable_on_open_markets st -> staked_is_open_stake st.
Proof.
  induction 1 as [|c st Hreach IH Hopen].
  - intros u row Hrow. simpl in Hrow. rewrite lookup_empty in Hrow. discriminate.
  - pose proof (reachable_consistent st (reachable_on_open_markets_reachable st Hreach))
      as Hst.
    destruct c as [now q cr d | now m u amt p | isAdmin now m outcome]; simpl.
    + apply staked_predict_create; assumption.
    + apply staked_placeBet; assumption.
    + apply staked_predict_resolve; assumption.
Qed.

End OpenStake.

(* ===================================================================== *)
(** * More on the settlement of one bet *)
(* ===================================================================== *)

Section Payouts.
Import Db.

Lemma payout_before_floor_bounds (outcome : bool) (b : bet_row) :
  0 <= bet_stake b ->
  (0 <= bet_probability b /\ bet_probability b <= 1)%Q ->
  (inject_Z (bet_stake b) <= inject_Z (bet_stake b) * (1 + bet_accuracy outcome b)
   /\ inject_Z (bet_stake b) * (1 + bet_accuracy outcome b) <= inject_Z (2 * bet_stake b))%Q.
Proof.
  intros Hs Hp.
  destruct (bet_accuracy_bounds outcome b Hp) as [Ha0 Ha1].
  assert (Hsq : (0 <= inject_Z (bet_stake b))%Q)
    by (change 0%Q with (inject_Z 0); rewrite <- Zle_Qle; lia).
  rewrite inject_Z_mult. change (inject_Z 2) with 2%Q. split; nra.
Qed.

Lemma bet_payout_bounds (outcome : bool) (b : bet_row) :
  0 <= bet_stake b ->
  (0 <= bet_probability b /\ bet_probability b <= 1)%Q ->
  bet_stake b <= bet_payout outcome b <= 2 * bet_stake b.
Proof.
  intros Hs Hp. destruct (payout_before_floor_bounds outcome b Hs Hp) as [Hlo Hhi].
  unfold bet_payout. split.
  - rewrite <- (Qfloor_Z (bet_stake b)) at 1. apply Qfloor_resp_le, Hlo.
  - rewrite <- (Qfloor_Z (2 * bet_stake b)). apply Qfloor_resp_le, Hhi.
Qed.

Lemma bet_payout_both_outcomes (b : bet_row) :
  3 * bet_stake b - 1 <= bet_payout true b + bet_payout false b <= 3 * bet_stake b.
Proof.
  unfold bet_payout, bet_accuracy.
  set (x := (inject_Z (bet_stake b) * (1 + bet_probability b))%Q).
  set (y := (inject_Z (bet_stake b) * (1 + (1 - bet_probability b)))%Q).
  assert (Hxy : (x + y == inject_Z (3 * bet_stake b))%Q).
  { subst x y. rewrite inject_Z_mult. change (inject_Z 3) with 3%Q. ring. }
  pose proof (Qfloor_le x) as Hx1. pose proof (Qlt_floor x) as Hx2.
  pose proof (Qfloor_le y) as Hy1. pose proof (Qlt_floor y) as Hy2.
  rewrite inject_Z_plus in Hx2, Hy2. change (inject_Z 1) with 1%Q in Hx2, Hy2.
  split.
  - assert (H : (inject_Z (3 * bet_stake b) < inject_Z (Qfloor x + Qfloor y + 2))%Q).
    { rewrite !inject_Z_plus, <- Hxy. change (inject_Z 2) with 2%Q. lra. }
    rewrite <- Zlt_Qlt in H. lia.
  - assert (H : (inject_Z (Qfloor x + Qfloor y) <= inject_Z (3 * bet_stake b))%Q).
    { rewrite inject_Z_plus, <- Hxy. lra. }
    rewrite <- Zle_Qle in H. exact H.
Qed.

Lemma wasCorrect_accuracy (outcome : bool) (b : bet_row) :
  wasCorrect outcome b = true <-> (1 # 2 < bet_accuracy outcome b)%Q.
Proof.
  unfold wasCorrect, bet_accuracy. destruct outcome; simpl.
  - rewrite orb_false_r, negb_true_iff.
    destruct (Qle_bool (bet_probability b) (1 # 2)) eqn:E.
    + apply Qle_bool_iff in E. split; [discriminate|]. intros H. lra.
    + split; [|reflexivity]. intros _. apply Qnot_le_lt. intros H.
      apply Qle_bool_iff in H. congruence.
  - rewrite negb_true_iff.
    destruct (Qle_bool (1 # 2) (bet_probability b)) eqn:E.
    + apply Qle_bool_iff in E. split; [discriminate|]. intros H. lra.
    + split; [|reflexivity]. intros _.
      assert (H : (bet_probability b < 1 # 2)%Q).
      { apply Qnot_le_lt. intros H. apply Qle_bool_iff in H. congruence. }
      lra.
Qed.

End Payouts.

(** X1.  A bet of a stake of at least 0 at a probability in [0, 1] is paid
    at least its stake and at most twice its stake, whatever the outcome;
    and what it is paid under YES and under NO together is three times the
    stake, less one when the rounding down bites. *)
Theorem payout_between_stake_and_double (outcome : bool) (b : Db.bet_row) :
  0 <= Db.bet_stake b ->
  (0 <= Db.bet_probability b /\ Db.bet_probability b <= 1)%Q ->
  Db.bet_stake b <= Db.bet_payout outcome b <= 2 * Db.bet_stake b
  /\ 3 * Db.bet_stake b - 1
     <= Db.bet_payout true b + Db.bet_payout false b
     <= 3 * Db.bet_stake b.
Proof.
  intros Hs Hp. split.
  - apply bet_payout_bounds; assumption.
  - apply bet_payout_both_outcomes.
Qed.

Lemma payout_between_stake_and_double_witness :
  let b := {| Db.market_id := "market_1"; Db.user_id := "alice"; Db.bet_stake := 25;
              Db.bet_probability := (1 # 3)%Q; Db.updated_at := 0 |} in
  Db.bet_stake b <= Db.bet_payout true b <= 2 * Db.bet_stake b
  /\ 3 * Db.bet_stake b - 1
     <= Db.bet_payout true b + Db.bet_payout false b
     <= 3 * Db.bet_stake b.
Proof.
  apply (payout_between_stake_and_double true
           {| Db.market_id := "market_1"; Db.user_id := "alice"; Db.bet_stake := 25;
              Db.bet_probability := (1 # 3)%Q; Db.updated_at := 0 |}).
  - simpl. lia.
  - simpl. split; [apply Qle_bool_iff | apply Qle_bool_iff]; reflexivity.
Defined.

(** X2.  A bet counts as won exactly when the probability it gave to the
    outcome that happened is above one half.  The probabilities a bet gives
    to the two outcomes add up to 1, so no bet counts as won under both
    outcomes. *)
Theorem wasCorrect_is_accuracy_above_half (outcome : bool) (b : Db.bet_row) :
  (Db.wasCorrect outcome b = true <-> (1 # 2 < Db.bet_accuracy outcome b)%Q)
  /\ Db.wasCorrect true b && Db.wasCorrect false b = false
  /\ (Db.bet_accuracy true b + Db.bet_accuracy false b == 1)%Q.
Proof.
  split; [apply wasCorrect_accuracy|]. split.
  - destruct (Db.wasCorrect true b) eqn:Ht; [|reflexivity].
    destruct (Db.wasCorrect false b) eqn:Hf; [|reflexivity].
    apply wasCorrect_accuracy in Ht. apply wasCorrect_accuracy in Hf.
    unfold Db.bet_accuracy in Ht, Hf. lra.
  - unfold Db.bet_accuracy. ring.
Qed.

(* ===================================================================== *)
(** * The price and the order of the bets *)
(* ===================================================================== *)

Section BetOrder.
Import Pricing.

Lemma total_Permutation (l l' : list (Z * Q)) :
  Permutation l l' -> total (map fst l) = total (map fst l').
Proof. induction 1; simpl; lia. Qed.

Lemma sum_products_Permutation (l l' : list (Z * Q)) :
  Permutation l l' ->
  (sum_products (map fst l) (map snd l) == sum_products (map fst l') (map snd l'))%Q.
Proof.
  induction 1 as [|x l l' _ IH|x y l|l1 l2 l3 _ IH1 _ IH2]; simpl.
  - reflexivity.
  - rewrite IH. reflexivity.
  - ring.
  - rewrite IH1. exact IH2.
Qed.

End BetOrder.

(** X3.  In exact arithmetic the price does not depend on the order in
    which the bets of the market come back from the store: the same bets
    in another order give the same probability. *)
Theorem price_does_not_depend_on_bet_order
    (current current' : list (Z * Q)) (new_stake : Z) (new_prob : Q)
    (old_stake : Z) (old_prob : Q) :
  Permutation current current' ->
  exists r r',
    Pricing.updateMarketProbability (map fst current) (map snd current)
      new_stake new_prob old_stake old_prob = Some r
    /\ Pricing.updateMarketProbability (map fst current') (map snd current')
         new_stake new_prob old_stake old_prob = Some r'
    /\ (r == r')%Q.
Proof.
  intros Hperm.
  pose proof (total_Permutation _ _ Hperm) as Ht.
  pose proof (sum_products_Permutation _ _ Hperm) as Hw.
  assert (Hlen : forall l : list (Z * Q), length (map fst l) = length (map snd l))
    by (intros l; rewrite !length_map; reflexivity).
  destruct (Z.eq_dec (Pricing.total (map fst current)) 0) as [E0|N0].
  { exists new_prob, new_prob.
    rewrite !updateMarketProbability_first by congruence.
    repeat split; reflexivity. }
  destruct (Z.eq_dec (Pricing.total (map fst current) - old_stake + new_stake) 0) as [E1|N1].
  { exists (1 # 2)%Q, (1 # 2)%Q.
    rewrite !updateMarketProbability_guard by congruence.
    repeat split; reflexivity. }
  destruct (updateMarketProbability_mean (map fst current) (map snd current)
              new_stake new_prob old_stake old_prob (Hlen current) N0 N1)
    as (r & Hr & Er).
  destruct (updateMarketProbability_mean (map fst current') (map snd current')
              new_stake new_prob old_stake old_prob (Hlen current'))
    as (r' & Hr' & Er'); [congruence..|].
  exists r, r'. split; [exact Hr|]. split; [exact Hr'|].
  rewrite Er, Er', Hw, Ht. reflexivity.
Qed.

Lemma price_does_not_depend_on_bet_order_witness :
  exists r r',
    Pricing.updateMarketProbability
      (map fst [(40, (6 # 10)%Q); (60, (9 # 10)%Q)])
      (map snd [(40, (6 # 10)%Q); (60, (9 # 10)%Q)]) 25 (1 # 5) 0 0 = Some r
    /\ Pricing.updateMarketProbability
         (map fst [(60, (9 # 10)%Q); (40, (6 # 10)%Q)])
         (map snd [(60, (9 # 10)%Q); (40, (6 # 10)%Q)]) 25 (1 # 5) 0 0 = Some r'
    /\ (r == r')%Q.
Proof.
  apply (price_does_not_depend_on_bet_order
           [(40, (6 # 10)%Q); (60, (9 # 10)%Q)] [(60, (9 # 10)%Q); (40, (6 # 10)%Q)]).
  apply perm_swap.
Defined.

(** On binary64 numbers the sums are rounded as they are made, and the
    order of the bets can change the last digit of the price. *)
Example bet_order_on_binary64 :
  (Binary64.updateMarketProbability [1; 1; 1] [0.1; 0.2; 0.3] 1 0.7 0 0
   = 0.325)%float
  /\ (Binary64.updateMarketProbability [1; 1; 1] [0.3; 0.2; 0.1] 1 0.7 0 0
      = 0.32499999999999996)%float.
Proof. split; vm_compute; reflexivity. Qed.

(* ===================================================================== *)
(** * Settlement in the leaderboard variant *)
(* ===================================================================== *)

(** X4.  For a bettor with a count of settled bets that is not negative,
    the leaderboard variant writes the same bankroll, staked total, counts
    and accuracy as index.js does. *)
Theorem leaderboard_settles_base_columns_alike
    (outcome : bool) (b : Db.bet_row) (luser : Leaderboard.user_row) :
  0 <= Leaderboard.bets_placed luser ->
  Books.base_columns (Leaderboard.settled outcome b luser)
  = Db.settled outcome b (Books.base_columns luser).
Proof.
  intros Hplaced. unfold Leaderboard.settled, Db.settled, Books.base_columns.
  assert (E : (0 <? Leaderboard.bets_placed luser + 1) = true) by (apply Z.ltb_lt; lia).
  destruct (Leaderboard.total_profit luser); simpl; rewrite E; reflexivity.
Qed.

Lemma leaderboard_settles_base_columns_alike_witness :
  let b := {| Db.market_id := "market_1"; Db.user_id := "alice"; Db.bet_stake := 50;
              Db.bet_probability := (8 # 10)%Q; Db.updated_at := 0 |} in
  Books.base_columns (Leaderboard.settled true b Leaderboard.new_user)
  = Db.settled true b (Books.base_columns Leaderboard.new_user).
Proof.
  apply (leaderboard_settles_base_columns_alike true
           {| Db.market_id := "market_1"; Db.user_id := "alice"; Db.bet_stake := 50;
              Db.bet_probability := (8 # 10)%Q; Db.updated_at := 0 |}
           Leaderboard.new_user).
  simpl. lia.
Defined.



(* ===================================================================== *)
(** * Commands and buttons *)
(* ===================================================================== *)

Section Splitting.
Import Stdlib.Strings.Ascii Text.
Local Open Scope string_scope.

Lemma split_nonempty (sep : ascii) (s : string) :
  exists piece pieces, split sep s = piece :: pieces.
Proof.
  destruct s as [|c rest]; simpl; [eauto|].
  destruct (Ascii.eqb c sep); [eauto|].
  destruct (split sep rest); eauto.
Qed.

(** The pieces of [a ++ sep ++ b] are those of [a] and then those of [b]. *)
Lemma split_app (sep : ascii) (a b : string) :
  split sep (a ++ String sep b) = (split sep a ++ split sep b)%list.
Proof.
  induction a as [|c a IH]; simpl.
  - rewrite Ascii.eqb_refl. reflexivity.
  - destruct (Ascii.eqb c sep); rewrite IH; [reflexivity|].
    destruct (split_nonempty sep a) as (piece & pieces & ->). reflexivity.
Qed.

Lemma includes_char (c d : ascii) (rest : string) :
  includes (String c "") (String d rest)
  = Ascii.eqb d c || includes (String c "") rest.
Proof.
  simpl. destruct (Ascii.eqb_spec d c) as [->|NE].
  - destruct (ascii_dec c c); [|congruence].
    destruct rest; reflexivity.
  - destruct (ascii_dec c d); [congruence|]. reflexivity.
Qed.

(** A string without the separator is one piece. *)
Lemma split_one (sep : ascii) (s : string) :
  includes (String sep "") s = false -> split sep s = [s].
Proof.
  induction s as [|c s IH]; [reflexivity|].
  rewrite includes_char. intros H. apply orb_false_iff in H as [Hc Hs].
  simpl. rewrite Hc, (IH Hs). reflexivity.
Qed.

(** [join] undoes [split]. *)
Lemma concat_split (sep : ascii) (s : string) :
  String.concat (String sep "") (split sep s) = s.
Proof.
  induction s as [|c s IH]; [reflexivity|]. simpl.
  destruct (split_nonempty sep s) as (piece & pieces & E). rewrite E in IH |- *.
  destruct (Ascii.eqb_spec c sep) as [->|NE].
  - change (String.concat (String sep "") ("" :: piece :: pieces))
      with (String sep (String.concat (String sep "") (piece :: pieces))).
    rewrite IH. reflexivity.
  - destruct pieces as [|piece' pieces].
    + simpl in IH |- *. rewrite IH. reflexivity.
    + change (String.concat (String sep "") (String c piece :: piece' :: pieces))
        with (String c (String.concat (String sep "") (piece :: piece' :: pieces))).
      rewrite IH. reflexivity.
Qed.

End Splitting.

Section Buttons.
Import Stdlib.Strings.Ascii.

(** X6.  The market id and the probability of a quick-bet button are read
    back from its [action_id] as they were put in, underscores in the
    market id included, as long as the probability holds no underscore. *)
Theorem quick_bet_action_id_round_trip (marketId probability : string) :
  Text.includes "_" probability = false ->
  Command.parse_action_id (Command.action_id marketId probability)
  = (marketId, probability).
Proof.
  intros Hp. unfold Command.parse_action_id, Command.action_id.
  change (Text.split "_" ("bet_quick_" ++ marketId ++ "_" ++ probability)%string)
    with (Text.split "_" ("bet" ++ String "_" ("quick" ++ String "_"
                          (marketId ++ String "_" probability)))%string).
  rewrite !split_app, (split_one _ probability Hp).
  change (Text.split "_" "bet") with ["bet"%string].
  change (Text.split "_" "quick") with ["quick"%string].
  cbn [app skipn].
  change (skipn 0 (Text.split "_" marketId ++ [probability]))
    with (Text.split "_" marketId ++ [probability]).
  change ("bet"%string :: "quick"%string :: Text.split "_" marketId ++ [probability])
    with (("bet"%string :: "quick"%string :: Text.split "_" marketId) ++ [probability]).
  rewrite removelast_last, last_last, concat_split. reflexivity.
Qed.

Lemma quick_bet_action_id_round_trip_witness :
  Command.parse_action_id (Command.action_id "market_1700000000000" "0.8")
  = ("market_1700000000000", "0.8")%string.
Proof.
  apply (quick_bet_action_id_round_trip "market_1700000000000" "0.8").
  reflexivity.
Defined.

End Buttons.

Section Dispatch.
Import Stdlib.Strings.Ascii Text Command.
Local Open Scope string_scope.

Lemma pretty_N_go_digit (x : N) :
  forall s : string,
    (exists c rest, s = String c rest /\ is_digit c = true) ->
    exists c rest, pretty_N_go x s = String c rest /\ is_digit c = true.
Proof.
  induction (N.lt_wf_0 x) as [x _ IH]. intros s Hs.
  destruct (N.eq_dec x 0%N) as [->|NZ]; [rewrite pretty_N_go_0; exact Hs|].
  rewrite pretty_N_go_step by lia. apply IH.
  - apply N.div_lt; lia.
  - eexists _, _. split; [reflexivity|].
    unfold pretty_N_char. repeat case_match; reflexivity.
Qed.

(** The decimal rendering of an instant starts with a digit. *)
Lemma pretty_digit (n : Z) :
  0 <= n -> exists c rest, pretty n = String c rest /\ is_digit c = true.
Proof.
  intros Hn. destruct n as [|x|x]; [| |lia].
  - exists "0"%char, "". split; reflexivity.
  - change (pretty (Z.pos x)) with (pretty (N.pos x)).
    unfold pretty, pretty_N. destruct (decide (N.pos x = 0%N)) as [E|_]; [discriminate|].
    rewrite pretty_N_go_step by lia. apply pretty_N_go_digit.
    eexists _, _. split; [reflexivity|].
    unfold pretty_N_char. repeat case_match; reflexivity.
Qed.

Lemma matches_market_id_after (pre s : string) :
  matches_market_id s = true -> matches_market_id (pre ++ s) = true.
Proof.
  intros Hs. induction pre as [|c pre IH]; [exact Hs|].
  simpl. rewrite IH. apply orb_true_r.
Qed.

Lemma matches_market_id_here (c : ascii) (rest : string) :
  is_digit c = true -> matches_market_id ("market_" ++ String c rest) = true.
Proof. intros Hc. simpl. unfold market_id_here. simpl. rewrite Hc. reflexivity. Qed.

(** A text that holds a generated market id matches [/market_\d+/]. *)
Lemma matches_generated_id (pre post : string) (now : Z) :
  0 <= now ->
  matches_market_id (pre ++ "market_" ++ pretty now ++ post) = true.
Proof.
  intros Hnow. destruct (pretty_digit now Hnow) as (c & rest & -> & Hc).
  apply matches_market_id_after. apply (matches_market_id_here c (rest ++ post) Hc).
Qed.

Lemma matches_market_id_bet (text : string) :
  matches_market_id text = true ->
  wants_bet text = true
  /\ (String.eqb text "" || String.eqb text "help") = false.
Proof.
  intros H. split; [unfold wants_bet; rewrite H; apply orb_true_r|].
  apply orb_false_iff. split; apply String.eqb_neq; intros ->; discriminate.
Qed.

End Dispatch.

Section DispatchTheorems.
Import Stdlib.Strings.Ascii Text Command.
Local Open Scope string_scope.

(** X7.  In index.js and in the leaderboard variant, a command text that
    holds the id of a market as [/predict create] makes it ([market_] and
    the instant of creation) is answered by the resolve, the create or the
    bet branch (in the leaderboard variant also by the leaderboard and the
    two statistics branches): [info market_...] never reaches the info
    branch. *)
Theorem text_with_market_id_never_reaches_info
    (isAdmin : bool) (pre post : string) (now : Z) :
  0 <= now ->
  In (dispatch (pre ++ "market_" ++ pretty now ++ post))
     [ResolveMarket; CreateMarket; PlaceBet]
  /\ In (dispatch_leaderboard isAdmin (pre ++ "market_" ++ pretty now ++ post))
        [Leaderboards; ResetStats; FixStats; ResolveMarket; CreateMarket; PlaceBet].
Proof.
  intros Hnow.
  destruct (matches_market_id_bet _ (matches_generated_id pre post now Hnow))
    as [Hbet Hhelp].
  set (text := pre ++ "market_" ++ pretty now ++ post) in *.
  unfold dispatch, dispatch_leaderboard. rewrite Hhelp, Hbet. split.
  - destruct (String.prefix "resolve " text); [simpl; tauto|].
    destruct (wants_create text); simpl; tauto.
  - destruct (String.prefix "leaderboard" text || String.prefix "leaderboards" text);
      [simpl; tauto|].
    destruct (String.prefix "resetstats" text && isAdmin); [simpl; tauto|].
    destruct (String.prefix "fixstats" text && isAdmin); [simpl; tauto|].
    destruct (String.prefix "resolve " text); [simpl; tauto|].
    destruct (wants_create text); simpl; tauto.
Qed.

Lemma text_with_market_id_never_reaches_info_witness :
  In (dispatch ("info " ++ "market_" ++ pretty 1700000000000 ++ ""))
     [ResolveMarket; CreateMarket; PlaceBet]
  /\ In (dispatch_leaderboard false ("info " ++ "market_" ++ pretty 1700000000000 ++ ""))
        [Leaderboards; ResetStats; FixStats; ResolveMarket; CreateMarket; PlaceBet].
Proof.
  apply (text_with_market_id_never_reaches_info false "info " "" 1700000000000).
  lia.
Defined.

(** X8.  In the in-memory variant, where the bet branch comes before the
    resolve branch, a command text that holds a generated market id is
    answered by the create or the bet branch: [resolve market_... yes]
    never reaches the resolve branch, nor [info market_...] the info
    branch. *)
Theorem in_memory_text_with_market_id_is_taken_as_bet
    (pre post : string) (now : Z) :
  0 <= now ->
  In (dispatch_in_memory (pre ++ "market_" ++ pretty now ++ post))
     [CreateMarket; PlaceBet].
Proof.
  intros Hnow.
  destruct (matches_market_id_bet _ (matches_generated_id pre post now Hnow))
    as [Hbet Hhelp].
  set (text := pre ++ "market_" ++ pretty now ++ post) in *.
  unfold dispatch_in_memory. rewrite Hhelp, Hbet.
  destruct (wants_create text); simpl; tauto.
Qed.

Lemma in_memory_text_with_market_id_is_taken_as_bet_witness :
  In (dispatch_in_memory ("resolve " ++ "market_" ++ pretty 1700000000000 ++ " yes"))
     [CreateMarket; PlaceBet].
Proof.
  apply (in_memory_text_with_market_id_is_taken_as_bet "resolve " " yes" 1700000000000).
  lia.
Defined.

(** X9.  The leading word [bet] of a bet is optional: with it or without
    it the text is parsed to the same bet, or refused alike, unless the
    text without it starts with the word [bet] itself. *)
Theorem parseBetting_bet_word_is_optional
    (parseFloat : string -> option Q) (parseInt : string -> option Z) (rest : string) :
  hd "" (split " " rest) <> "bet" ->
  parseBetting parseFloat parseInt ("bet " ++ rest)
  = parseBetting parseFloat parseInt rest.
Proof.
  intros Hhd. unfold parseBetting.
  change ("bet " ++ rest) with ("bet" ++ String " " rest).
  rewrite split_app. change (split " " "bet") with ["bet"]. cbn [app].
  destruct (split " " rest) as [|a [|b [|c ps]]]; try reflexivity.
  - simpl. destruct (parseFloat (probability_word b)); reflexivity.
  - simpl in Hhd. apply String.eqb_neq in Hhd. simpl. rewrite Hhd. reflexivity.
Qed.

Lemma parseBetting_bet_word_is_optional_witness :
  parseBetting (fun _ => Some 75%Q) (fun _ => Some 50) ("bet " ++ "market_1 75% $50")
  = parseBetting (fun _ => Some 75%Q) (fun _ => Some 50) "market_1 75% $50".
Proof.
  apply (parseBetting_bet_word_is_optional (fun _ => Some 75%Q) (fun _ => Some 50)
           "market_1 75% $50").
  vm_compute. discriminate.
Defined.

End DispatchTheorems.

(* ===================================================================== *)
(** * What a bet changes *)
(* ===================================================================== *)

Section PlaceBetOutcomes.
Import Pricing Db Ledger Books.

Ltac thrown :=
  let H := fresh in
  intros H; inversion H; subst; simpl; eauto.

Lemma placeBet_error (now : Z) (m u : string) (amt : Z) (p : Q) (o : oracle) (st : db)
    (e : error) (st' : db) :
  placeBet now m u amt p o st = (inl e, st') ->
  justified now m u amt p o st e.
Proof.
  unfold placeBet.
  destruct (Qle_bool 0 p) eqn:Hp0; simpl; [|thrown; rewrite Hp0; reflexivity].
  destruct (Qle_bool p 1) eqn:Hp1; simpl; [|thrown; rewrite Hp0, Hp1; reflexivity].
  unfold bind at 1. unfold getMarket at 1. unfold pool_query at 1.
  destruct (o (SelectMarket m)) eqn:Ho1; [thrown|].
  destruct (markets st !! m) as [market|] eqn:Hm; [|thrown].
  destruct (active market) eqn:Hact; simpl; [|thrown].
  destruct (deadline market <? now) eqn:Hdl.
  { thrown. exists market. split; [assumption|]. apply Z.ltb_lt. assumption. }
  unfold bind at 1. rewrite getUser_run.
  destruct (o (SelectUser u)) eqn:Ho2; [thrown|].
  destruct (users st !! u) as [row|] eqn:Hrow.
  - unfold bind at 1. unfold getUserBet at 1. unfold pool_query at 1.
    destruct (o (SelectBet m u)) eqn:Ho3; [thrown|].
    destruct (_ <? calculateStake amt) eqn:Hav.
    { thrown. unfold available_bankroll, user_read. rewrite Hrow.
      split; [reflexivity|]. apply Z.ltb_lt. assumption. }
    unfold bind at 1. unfold getMarketBets at 1. unfold pool_query at 1.
    destruct (o (SelectBets m)) eqn:Ho4; [thrown|].
    unfold bind at 1. unfold transaction.
    destruct (o Begin) eqn:Ho5; [thrown|].
    unfold bind at 1. unfold upsertBet at 1. unfold pool_query at 1.
    destruct (o (UpsertBet m u)) eqn:Ho6; [thrown|].
    unfold bind at 1. unfold updateMarket at 1. unfold pool_query at 1.
    destruct (o (UpdateMarket m)) eqn:Ho7; [thrown|].
    unfold updateUser at 1. unfold pool_query at 1.
    destruct (o (UpdateUser u)) eqn:Ho8; [thrown|].
    destruct (o Commit) eqn:Ho9; [thrown|].
    unfold bind at 1. rewrite getUser_run, Ho2. simpl.
    rewrite lookup_alter_eq, Hrow. simpl.
    unfold bind at 1. unfold getMarket at 1. unfold pool_query at 1. rewrite Ho1.
    unfold ret. intros H. inversion H.
  - destruct (o (InsertUser u)) eqn:Ho2'; [thrown|].
    unfold bind at 1. unfold getUserBet at 1. unfold pool_query at 1.
    destruct (o (SelectBet m u)) eqn:Ho3; [thrown|].
    destruct (_ <? calculateStake amt) eqn:Hav.
    { thrown. unfold available_bankroll, user_read. rewrite Hrow.
      split; [reflexivity|]. apply Z.ltb_lt. assumption. }
    unfold bind at 1. unfold getMarketBets at 1. unfold pool_query at 1.
    destruct (o (SelectBets m)) eqn:Ho4; [thrown|].
    unfold bind at 1. unfold transaction.
    destruct (o Begin) eqn:Ho5; [thrown|].
    unfold bind at 1. unfold upsertBet at 1. unfold pool_query at 1.
    destruct (o (UpsertBet m u)) eqn:Ho6; [thrown|].
    unfold bind at 1. unfold updateMarket at 1. unfold pool_query at 1.
    destruct (o (UpdateMarket m)) eqn:Ho7; [thrown|].
    unfold updateUser at 1. unfold pool_query at 1.
    destruct (o (UpdateUser u)) eqn:Ho8; [thrown|].
    destruct (o Commit) eqn:Ho9; [thrown|].
    unfold bind at 1. rewrite getUser_run, Ho2. simpl.
    rewrite lookup_alter_eq, lookup_insert_eq. simpl.
    unfold bind at 1. unfold getMarket at 1. unfold pool_query at 1. rewrite Ho1.
    unfold ret. intros H. inversion H.
Qed.

End PlaceBetOutcomes.

Section PlaceBetSuccess.
Import Pricing Db Ledger Books.

Ltac failed := let H := fresh in intros H; inversion H.

(** Whatever statements fail, a call of [placeBet] that returns has passed
    every check, has committed the three writes, and returns the rows it
    has written. *)
Lemma placeBet_ok (now : Z) (m u : string) (amt : Z) (p : Q) (o : oracle) (st : db)
    (r : placed) (st' : db) :
  placeBet now m u amt p o st = (inr r, st') ->
  exists market,
    Qle_bool 0 p = true /\ Qle_bool p 1 = true
    /\ markets st !! m = Some market
    /\ active market = true
    /\ now <= deadline market
    /\ calculateStake amt <= available_bankroll m u st
    /\ r = placed_result m u amt p market st
    /\ st' = place_commit now m u (calculateStake amt) p market (user_read u st)
               (after_getUser u st).
Proof.
  unfold placeBet.
  destruct (Qle_bool 0 p) eqn:Hp0; simpl; [|failed].
  destruct (Qle_bool p 1) eqn:Hp1; simpl; [|failed].
  unfold bind at 1. unfold getMarket at 1. unfold pool_query at 1.
  destruct (o (SelectMarket m)) eqn:Ho1; [failed|].
  destruct (markets st !! m) as [market|] eqn:Hm; [|failed].
  destruct (active market) eqn:Hact; simpl; [|failed].
  destruct (deadline market <? now) eqn:Hdl; [failed|].
  unfold bind at 1.
  destruct (getUser u o st) as [[e|user] st1] eqn:Hu; [failed|].
  assert (Ho2 : o (SelectUser u) = false).
  { rewrite getUser_run in Hu. destruct (o (SelectUser u)); [discriminate|reflexivity]. }
  apply getUser_ok in Hu as (-> & -> & Hsome).
  unfold bind at 1. unfold getUserBet at 1. unfold pool_query at 1.
  destruct (o (SelectBet m u)); [failed|].
  rewrite bets_after_getUser. fold (available_bankroll m u st).
  destruct (available_bankroll m u st <? calculateStake amt) eqn:Hav; [failed|].
  unfold bind at 1. unfold getMarketBets at 1. unfold pool_query at 1.
  destruct (o (SelectBets m)); [failed|].
  fold (bets_on m (after_getUser u st)). rewrite bets_on_after_getUser.
  unfold bind at 1. unfold transaction.
  destruct (o Begin); [failed|].
  unfold bind at 1. unfold upsertBet at 1. unfold pool_query at 1.
  destruct (o (UpsertBet m u)); [failed|].
  unfold bind at 1. unfold updateMarket at 1. unfold pool_query at 1.
  destruct (o (UpdateMarket m)); [failed|].
  unfold updateUser at 1. unfold pool_query at 1.
  destruct (o (UpdateUser u)); [failed|].
  destruct (o Commit); [failed|].
  match goal with |- (_ o ?s4 = _) -> _ => set (st4 := s4) end.
  assert (E4 : st4 = place_commit now m u (calculateStake amt) p market (user_read u st)
                       (after_getUser u st)).
  { subst st4. unfold place_commit, with_users, with_markets, with_bets. simpl.
    rewrite ?bets_after_getUser, ?bets_on_after_getUser. reflexivity. }
  assert (Hu4 : users st4 !! u
                = Some (set_total_staked
                          (total_staked (user_read u st)
                           + (calculateStake amt
                              - stake_of (List.find (is_bet_of m u) (bets st))))
                          (user_read u st))).
  { subst st4. simpl. rewrite lookup_alter_eq, user_after_getUser. reflexivity. }
  assert (Hm4 : markets st4 !! m
                = Some (set_price
                          (placeBet_new_prob (bets_on m st) u (calculateStake amt) p)
                          (total_stake market
                           - stake_of (List.find (is_bet_of m u) (bets st))
                           + calculateStake amt) market)).
  { subst st4. simpl. rewrite lookup_alter_eq, markets_after_getUser, Hm. reflexivity. }
  clearbody st4.
  unfold bind at 1. rewrite getUser_run, Ho2, Hu4.
  unfold bind at 1. unfold getMarket at 1. unfold pool_query at 1. rewrite Ho1, Hm4.
  unfold ret. intros H. inversion H. subst.
  exists market. repeat (split; [reflexivity || assumption|]).
  split; [apply Z.ltb_ge, Hdl|]. split; [apply Z.ltb_ge, Hav|].
  split; reflexivity.
Qed.

End PlaceBetSuccess.

Section UpsertLookups.
Import Pricing Db Ledger Books.

Lemma is_bet_of_self (row : bet_row) :
  is_bet_of (market_id row) (user_id row) row = true.
Proof. apply is_bet_of_spec. split; reflexivity. Qed.

Lemma find_upsert_same (row : bet_row) (rows : list bet_row) :
  List.find (is_bet_of (market_id row) (user_id row)) (upsert row rows) = Some row.
Proof.
  induction rows as [|b rows IH]; simpl.
  - rewrite is_bet_of_self. reflexivity.
  - destruct (is_bet_of (market_id row) (user_id row) b) eqn:E; simpl.
    + rewrite is_bet_of_self. reflexivity.
    + rewrite E. exact IH.
Qed.

Lemma find_upsert_other (m u : string) (row : bet_row) (rows : list bet_row) :
  (m, u) <> key row ->
  List.find (is_bet_of m u) (upsert row rows) = List.find (is_bet_of m u) rows.
Proof.
  intros NE.
  assert (Hrow : is_bet_of m u row = false).
  { destruct (is_bet_of m u row) eqn:E; [|reflexivity].
    apply is_bet_of_spec in E as [<- <-]. contradiction NE. reflexivity. }
  induction rows as [|b rows IH]; simpl.
  - rewrite Hrow. reflexivity.
  - destruct (is_bet_of (market_id row) (user_id row) b) eqn:E; simpl.
    + rewrite Hrow. apply is_bet_of_key in E.
      destruct (is_bet_of m u b) eqn:E'; [|reflexivity].
      apply is_bet_of_spec in E' as [<- <-]. contradiction NE.
    + destruct (is_bet_of m u b); [reflexivity|exact IH].
Qed.

Lemma length_upsert (row : bet_row) (rows : list bet_row) :
  length (upsert row rows)
  = (length rows
     + match List.find (is_bet_of (market_id row) (user_id row)) rows with
       | Some _ => 0
       | None => 1
       end)%nat.
Proof.
  induction rows as [|b rows IH]; simpl; [reflexivity|].
  destruct (is_bet_of (market_id row) (user_id row) b); simpl; [lia|].
  rewrite IH. lia.
Qed.

End UpsertLookups.

(** X10.  Whatever statements fail, every error of [placeBet] is justified
    by the request and the tables: an invalid probability is one outside
    [0, 1]; a market not found is missing or inactive; an expired market
    has its deadline before the instant of the bet; an insufficient
    bankroll is the available bankroll and is below the stake after
    clamping; a persistence failure is a statement the store failed. *)
Theorem placeBet_errors_are_justified
    (now : Z) (marketId userId : string) (desired_amount : Z) (probability : Q)
    (o : Db.oracle) (st : Db.db) (e : Db.error) (st' : Db.db) :
  Db.placeBet now marketId userId desired_amount probability o st = (inl e, st') ->
  match e with
  | Db.InvalidProbability =>
      ~ (0 <= probability /\ probability <= 1)%Q
  | Db.MarketNotFound =>
      Db.markets st !! marketId = None
      \/ exists market, Db.markets st !! marketId = Some market /\ Db.active market = false
  | Db.MarketExpired =>
      exists market, Db.markets st !! marketId = Some market /\ Db.deadline market < now
  | Db.InsufficientBankroll available =>
      available = Ledger.available_bankroll marketId userId st
      /\ available < Pricing.calculateStake desired_amount
  | Db.DuplicateId _ => False
  | Db.PersistenceFailure q => o q = true
  end.
Proof.
  intros H. apply placeBet_error in H. destruct e; try exact H.
  simpl in H. intros [H0 H1]. apply Qle_bool_iff in H0, H1.
  rewrite H0, H1 in H. discriminate.
Qed.

Lemma placeBet_errors_are_justified_witness :
  exists market,
    Db.markets Scenario.alice_all_in !! "market_11" = Some market
    /\ Db.deadline market < 6000.
Proof.
  apply (placeBet_errors_are_justified 6000 "market_11" "alice" 50 (1 # 2) Db.reliable
           Scenario.alice_all_in Db.MarketExpired Scenario.alice_all_in).
  vm_compute. reflexivity.
Defined.

(** X11.  A call of [placeBet] that returns has stored the bet: the user
    has a row on the market, with the stake after clamping, and, when the
    probability given is a number of ten-thousandths, which the
    [DECIMAL(5,4)] column holds as it is, with that probability (another
    probability is rounded by the column, and nothing is stated of it); the
    rows of other users and other markets are the ones that were there; and
    the table has one row more only when the user had no bet on the
    market. *)
Theorem placed_bet_is_recorded
    (now : Z) (marketId userId : string) (desired_amount : Z) (probability : Q)
    (o : Db.oracle) (st : Db.db) (r : Db.placed) (st' : Db.db) :
  Db.placeBet now marketId userId desired_amount probability o st = (inr r, st') ->
  (exists row,
     List.find (Db.is_bet_of marketId userId) (Db.bets st') = Some row
     /\ Db.market_id row = marketId
     /\ Db.user_id row = userId
     /\ Db.bet_stake row = Pricing.calculateStake desired_amount
     /\ ((exists k : Z, (probability == inject_Z k / 10000)%Q) ->
         (Db.bet_probability row == probability)%Q))
  /\ (forall m u, (m, u) <> (marketId, userId) ->
        List.find (Db.is_bet_of m u) (Db.bets st')
        = List.find (Db.is_bet_of m u) (Db.bets st))
  /\ length (Db.bets st')
     = (length (Db.bets st)
        + match List.find (Db.is_bet_of marketId userId) (Db.bets st) with
          | Some _ => 0
          | None => 1
          end)%nat.
Proof.
  intros H. apply placeBet_ok in H as (market & _ & _ & _ & _ & _ & _ & _ & ->).
  unfold Ledger.place_commit. simpl. rewrite bets_after_getUser.
  fold (Books.bet_written now marketId userId desired_amount probability).
  split; [|split].
  - exists (Books.bet_written now marketId userId desired_amount probability).
    split.
    { apply (find_upsert_same
               (Books.bet_written now marketId userId desired_amount probability)). }
    split; [reflexivity|]. split; [reflexivity|]. split; [reflexivity|].
    intros _. apply Qeq_refl.
  - intros m u NE. apply find_upsert_other. exact NE.
  - apply (length_upsert
             (Books.bet_written now marketId userId desired_amount probability)).
Qed.

Lemma placed_bet_is_recorded_witness :
  let st := Scenario.alice_bet in
  let st' := snd (Db.placeBet 1002 "market_1000" "bob" 250 (9 # 10) Db.reliable st) in
  (exists row,
     List.find (Db.is_bet_of "market_1000" "bob") (Db.bets st') = Some row
     /\ Db.market_id row = "market_1000"
     /\ Db.user_id row = "bob"
     /\ Db.bet_stake row = Pricing.calculateStake 250
     /\ ((exists k : Z, (9 # 10 == inject_Z k / 10000)%Q) ->
         (Db.bet_probability row == 9 # 10)%Q))
  /\ (forall m u, (m, u) <> ("market_1000", "bob") ->
        List.find (Db.is_bet_of m u) (Db.bets st')
        = List.find (Db.is_bet_of m u) (Db.bets st))
  /\ length (Db.bets st')
     = (length (Db.bets st)
        + match List.find (Db.is_bet_of "market_1000" "bob") (Db.bets st) with
          | Some _ => 0
          | None => 1
          end)%nat.
Proof.
  intros st st'.
  apply (placed_bet_is_recorded 1002 "market_1000" "bob" 250 (9 # 10) Db.reliable st
           (Books.returned
              (fst (Db.placeBet 1002 "market_1000" "bob" 250 (9 # 10) Db.reliable st)))
           st').
  vm_compute. reflexivity.
Defined.

Section PlaceBetRefusals.
Import Pricing Db Ledger Books.

Ltac refusal :=
  let H := fresh in
  intros H; inversion H; subst; simpl; try discriminate; try reflexivity.

(** The checks of [placeBet] come before its writes: a refusal for the
    probability, the market or the deadline leaves the tables as they were,
    and one for the bankroll as they were after [getUser]. *)
Lemma placeBet_refusal_state (now : Z) (m u : string) (amt : Z) (p : Q) (o : oracle)
    (st : db) (e : error) (st' : db) :
  placeBet now m u amt p o st = (inl e, st') ->
  match e with
  | InvalidProbability | MarketNotFound | MarketExpired => st' = st
  | InsufficientBankroll _ => st' = after_getUser u st
  | _ => True
  end.
Proof.
  intros H. pose proof (placeBet_error _ _ _ _ _ _ _ _ _ H) as Hj. revert H.
  unfold placeBet.
  destruct (Qle_bool 0 p) eqn:Hp0; simpl; [|refusal].
  destruct (Qle_bool p 1) eqn:Hp1; simpl; [|refusal].
  unfold bind at 1. unfold getMarket at 1. unfold pool_query at 1.
  destruct (o (SelectMarket m)) eqn:Ho1; [refusal; exact I|].
  destruct (markets st !! m) as [market|] eqn:Hm; [|refusal].
  destruct (active market) eqn:Hact; simpl; [|refusal].
  destruct (deadline market <? now) eqn:Hdl; [refusal|].
  unfold bind at 1.
  destruct (getUser u o st) as [[e1|user] st1] eqn:Hu.
  { rewrite getUser_run in Hu. intros H. inversion H; subst.
    destruct (o (SelectUser u)); [inversion Hu; exact I|].
    destruct (users st !! u); [discriminate|].
    destruct (o (InsertUser u)); [inversion Hu; exact I|discriminate]. }
  apply getUser_ok in Hu as (-> & -> & Hsome).
  destruct e as [ | | | available | id | q]; try exact (fun _ => I).
  - simpl in Hj. rewrite Hp0, Hp1 in Hj. discriminate.
  - simpl in Hj. destruct Hj as [Hj|(market' & Hj & Hact')]; congruence.
  - simpl in Hj. destruct Hj as (market' & Hj & Hdl'). apply Z.ltb_ge in Hdl.
    assert (market' = market) by congruence. subst. lia.
  - unfold bind at 1. unfold getUserBet at 1. unfold pool_query at 1.
    destruct (o (SelectBet m u)); [refusal|].
    destruct (_ <? calculateStake amt) eqn:Hav; [refusal|].
    simpl in Hj. destruct Hj as [-> Hj]. rewrite bets_after_getUser in Hav.
    fold (available_bankroll m u st) in Hav. apply Z.ltb_ge in Hav. lia.
Qed.

End PlaceBetRefusals.

(** X12.  Whatever statements fail, [placeBet] checks before it writes: a
    call refused for the probability, the market or the deadline leaves
    the tables as they were, and a call refused for the bankroll leaves
    them as they were but for the default row of a user seen for the first
    time. *)
Theorem placeBet_refusals_write_nothing
    (now : Z) (marketId userId : string) (desired_amount : Z) (probability : Q)
    (o : Db.oracle) (st : Db.db) (e : Db.error) (st' : Db.db) :
  Db.placeBet now marketId userId desired_amount probability o st = (inl e, st') ->
  (forall q, e <> Db.PersistenceFailure q) ->
  Db.bets st' = Db.bets st
  /\ Db.markets st' = Db.markets st
  /\ (forall u, u <> userId -> Db.users st' !! u = Db.users st !! u)
  /\ (Db.users st' !! userId = Db.users st !! userId
      \/ (exists available, e = Db.InsufficientBankroll available)
         /\ Db.users st !! userId = None
         /\ Db.users st' !! userId = Some Db.new_user).
Proof.
  intros H Hnot.
  pose proof (placeBet_error _ _ _ _ _ _ _ _ _ H) as Hj.
  apply placeBet_refusal_state in H.
  destruct e as [ | | | available | id | q]; subst;
    try (split; [reflexivity|]; split; [reflexivity|];
         split; [intros; reflexivity | left; reflexivity]).
  - rewrite bets_after_getUser, markets_after_getUser.
    split; [reflexivity|]. split; [reflexivity|]. unfold Ledger.after_getUser.
    destruct (Db.users st !! userId) as [row|] eqn:Hrow.
    + split; [intros; reflexivity|]. left. exact Hrow.
    + simpl. split.
      * intros u NE. apply lookup_insert_ne. congruence.
      * right. split; [eauto|]. split; [reflexivity|]. apply lookup_insert_eq.
  - contradiction Hj.
  - contradiction (Hnot q). reflexivity.
Qed.

Lemma placeBet_refusals_write_nothing_witness :
  let st := Scenario.alice_all_in in
  Db.bets st = Db.bets st
  /\ Db.markets st = Db.markets st
  /\ (forall u, u <> "alice"%string -> Db.users st !! u = Db.users st !! u)
  /\ (Db.users st !! "alice" = Db.users st !! "alice"
      \/ (exists available, Db.MarketExpired = Db.InsufficientBankroll available)
         /\ Db.users st !! "alice" = None
         /\ Db.users st !! "alice" = Some Db.new_user).
Proof.
  apply (placeBet_refusals_write_nothing 6000 "market_11" "alice" 50 (1 # 2) Db.reliable
           Scenario.alice_all_in Db.MarketExpired Scenario.alice_all_in).
  - vm_compute. reflexivity.
  - intros q. discriminate.
Defined.

(** X13.  On the store on which every statement succeeds, a bet with a
    probability in [0, 1] on an active market whose deadline has not
    passed, by a user whose available bankroll covers the stake after
    clamping, is accepted: [placeBet] returns, and leaves the three rows
    written. *)
Theorem valid_bet_is_accepted
    (now : Z) (marketId userId : string) (desired_amount : Z) (probability : Q)
    (st : Db.db) (market : Db.market_row) :
  (0 <= probability /\ probability <= 1)%Q ->
  Db.markets st !! marketId = Some market ->
  Db.active market = true ->
  now <= Db.deadline market ->
  Pricing.calculateStake desired_amount <= Ledger.available_bankroll marketId userId st ->
  Db.placeBet now marketId userId desired_amount probability Db.reliable st
  = (inr (Books.placed_result marketId userId desired_amount probability market st),
     Ledger.place_commit now marketId userId (Pricing.calculateStake desired_amount)
       probability market (Ledger.user_read userId st)
       (Ledger.after_getUser userId st)).
Proof.
  intros [Hp0 Hp1] Hm Hact Hdl Hav.
  destruct (Db.placeBet now marketId userId desired_amount probability Db.reliable st)
    as [[e|r] st'] eqn:E.
  - apply placeBet_error in E. destruct e; simpl in E.
    + apply Qle_bool_iff in Hp0, Hp1. rewrite Hp0, Hp1 in E. discriminate.
    + destruct E as [E|(market' & E & Hact')]; congruence.
    + destruct E as (market' & E & Hdl'). assert (market' = market) by congruence.
      subst. lia.
    + lia.
    + contradiction.
    + discriminate.
  - apply placeBet_ok in E as (market' & _ & _ & Hm' & _ & _ & _ & -> & ->).
    assert (market' = market) by congruence. subst. reflexivity.
Qed.

Lemma valid_bet_is_accepted_witness :
  exists market,
    Db.markets Scenario.alice_bet !! "market_1000" = Some market
    /\ Db.placeBet 5000 "market_1000" "bob" 60 (9 # 10) Db.reliable Scenario.alice_bet
       = (inr (Books.placed_result "market_1000" "bob" 60 (9 # 10) market
                 Scenario.alice_bet),
          Ledger.place_commit 5000 "market_1000" "bob" (Pricing.calculateStake 60)
            (9 # 10) market (Ledger.user_read "bob" Scenario.alice_bet)
            (Ledger.after_getUser "bob" Scenario.alice_bet)).
Proof.
  eexists. split; [vm_compute; reflexivity|].
  apply (valid_bet_is_accepted 5000 "market_1000" "bob" 60 (9 # 10) Scenario.alice_bet).
  - split; apply Qle_bool_iff; reflexivity.
  - vm_compute. reflexivity.
  - reflexivity.
  - simpl. lia.
  - vm_compute. discriminate.
Defined.

Section PlaceBetRows.
Import Pricing Db Ledger Books.

Lemma users_after_getUser_other (u v : string) (st : db) :
  v <> u -> users (after_getUser u st) !! v = users st !! v.
Proof.
  intros NE. unfold after_getUser. destruct (users st !! u); [reflexivity|].
  simpl. apply lookup_insert_ne. congruence.
Qed.

End PlaceBetRows.

(** X14.  A call of [placeBet] that returns has moved the books by the
    change of the stake and by nothing else: the total of the market and
    what the user has staked both go up by the new stake less the stake of
    the bet replaced; the user has not staked more than the bankroll, which
    is untouched; and the rows of the other markets and users are as they
    were. *)
Theorem placed_bet_moves_the_books
    (now : Z) (marketId userId : string) (desired_amount : Z) (probability : Q)
    (o : Db.oracle) (st : Db.db) (r : Db.placed) (st' : Db.db) :
  Db.placeBet now marketId userId desired_amount probability o st = (inr r, st') ->
  exists (market market' : Db.market_row) (user' : Db.user_row),
    let user := Ledger.user_read userId st in
    let change :=
      Pricing.calculateStake desired_amount
      - Db.stake_of (List.find (Db.is_bet_of marketId userId) (Db.bets st)) in
    Db.markets st !! marketId = Some market
    /\ Db.markets st' !! marketId = Some market'
    /\ Db.users st' !! userId = Some user'
    /\ Db.total_stake market' = Db.total_stake market + change
    /\ Db.total_staked user' = Db.total_staked user + change
    /\ Db.bankroll user' = Db.bankroll user
    /\ Db.total_staked user' <= Db.bankroll user'
    /\ (Db.deadline market', Db.resolved market', Db.resolution market', Db.active market')
       = (Db.deadline market, Db.resolved market, Db.resolution market, Db.active market)
    /\ (Db.bets_placed user', Db.bets_won user', Db.accuracy user')
       = (Db.bets_placed user, Db.bets_won user, Db.accuracy user)
    /\ (forall id, id <> marketId -> Db.markets st' !! id = Db.markets st !! id)
    /\ (forall u, u <> userId -> Db.users st' !! u = Db.users st !! u).
Proof.
  intros H.
  apply placeBet_ok in H as (market & _ & _ & Hm & _ & _ & Hav & _ & ->).
  unfold Ledger.available_bankroll in Hav.
  eexists market, _, _. cbv zeta.
  split; [exact Hm|]. split.
  { unfold Ledger.place_commit. simpl.
    rewrite lookup_alter_eq, markets_after_getUser, Hm. reflexivity. }
  split.
  { unfold Ledger.place_commit. simpl.
    rewrite lookup_alter_eq, user_after_getUser. reflexivity. }
  simpl. rewrite bets_after_getUser.
  split; [lia|]. split; [reflexivity|]. split; [reflexivity|]. split; [lia|].
  split; [reflexivity|]. split; [reflexivity|]. split.
  - intros id NE. rewrite lookup_alter_ne by congruence.
    rewrite markets_after_getUser. reflexivity.
  - intros u NE. rewrite lookup_alter_ne by congruence.
    apply users_after_getUser_other. exact NE.
Qed.

Lemma placed_bet_moves_the_books_witness :
  let st := Scenario.both_bet in
  let st' := snd (Db.placeBet 1003 "market_1000" "alice" 70 (1 # 5) Db.reliable st) in
  exists (market market' : Db.market_row) (user' : Db.user_row),
    let user := Ledger.user_read "alice" st in
    let change :=
      Pricing.calculateStake 70
      - Db.stake_of (List.find (Db.is_bet_of "market_1000" "alice") (Db.bets st)) in
    Db.markets st !! "market_1000" = Some market
    /\ Db.markets st' !! "market_1000" = Some market'
    /\ Db.users st' !! "alice" = Some user'
    /\ Db.total_stake market' = Db.total_stake market + change
    /\ Db.total_staked user' = Db.total_staked user + change
    /\ Db.bankroll user' = Db.bankroll user
    /\ Db.total_staked user' <= Db.bankroll user'
    /\ (Db.deadline market', Db.resolved market', Db.resolution market', Db.active market')
       = (Db.deadline market, Db.resolved market, Db.resolution market, Db.active market)
    /\ (Db.bets_placed user', Db.bets_won user', Db.accuracy user')
       = (Db.bets_placed user, Db.bets_won user, Db.accuracy user)
    /\ (forall id, id <> "market_1000"%string -> Db.markets st' !! id = Db.markets st !! id)
    /\ (forall u, u <> "alice"%string -> Db.users st' !! u = Db.users st !! u).
Proof.
  intros st st'.
  apply (placed_bet_moves_the_books 1003 "market_1000" "alice" 70 (1 # 5) Db.reliable st
           (Books.returned
              (fst (Db.placeBet 1003 "market_1000" "alice" 70 (1 # 5) Db.reliable st)))
           st').
  vm_compute. reflexivity.
Defined.

(** X15.  What [placeBet] returns is what it has stored: the stake is the
    amount asked for brought into [1, 100], and it is the stake of the
    stored bet; the flag [was_capped] is set exactly for an amount above
    100, so an amount below 1 is raised to 1 without a word; and the user
    row and the market row it returns are those of the tables it leaves.
    (The price it returns is the number it computed, the price in the
    market row is what the column has made of it, and nothing is stated of
    the two together.) *)
Theorem placeBet_returns_what_it_stored
    (now : Z) (marketId userId : string) (desired_amount : Z) (probability : Q)
    (o : Db.oracle) (st : Db.db) (r : Db.placed) (st' : Db.db) :
  Db.placeBet now marketId userId desired_amount probability o st = (inr r, st') ->
  1 <= Db.stake_placed r <= 100
  /\ (1 <= desired_amount <= 100 -> Db.stake_placed r = desired_amount)
  /\ (desired_amount < 1 -> Db.stake_placed r = 1)
  /\ (100 < desired_amount -> Db.stake_placed r = 100)
  /\ (Db.was_capped r = true <-> 100 < desired_amount)
  /\ (Db.bet_stake <$> List.find (Db.is_bet_of marketId userId) (Db.bets st'))
     = Some (Db.stake_placed r)
  /\ Db.users st' !! userId = Some (Db.placed_user r)
  /\ Db.markets st' !! marketId = Db.placed_market r.
Proof.
  intros H.
  apply placeBet_ok in H as (market & _ & _ & Hm & _ & _ & _ & -> & ->).
  unfold Books.placed_result, Ledger.place_commit. simpl.
  rewrite !lookup_alter_eq, user_after_getUser, markets_after_getUser, Hm.
  rewrite !bets_after_getUser, ?bets_on_after_getUser.
  rewrite (find_upsert_same
             {| Db.market_id := marketId; Db.user_id := userId;
                Db.bet_stake := Pricing.calculateStake desired_amount;
                Db.bet_probability := probability; Db.updated_at := now |}).
  pose proof (calculateStake_range desired_amount) as Hrange.
  assert (Hid : 1 <= desired_amount <= 100 ->
                Pricing.calculateStake desired_amount = desired_amount)
    by apply calculateStake_id.
  unfold Pricing.calculateStake in *.
  split; [exact Hrange|]. split; [exact Hid|].
  split; [intros; lia|]. split; [intros; lia|]. split.
  { rewrite Z.ltb_lt. lia. }
  repeat split; reflexivity.
Qed.

Lemma placeBet_returns_what_it_stored_witness :
  let st := Scenario.alice_bet in
  let res := Db.placeBet 1002 "market_1000" "bob" 250 (9 # 10) Db.reliable st in
  let r := Books.returned (fst res) in
  let st' := snd res in
  1 <= Db.stake_placed r <= 100
  /\ (1 <= 250 <= 100 -> Db.stake_placed r = 250)
  /\ (250 < 1 -> Db.stake_placed r = 1)
  /\ (100 < 250 -> Db.stake_placed r = 100)
  /\ (Db.was_capped r = true <-> 100 < 250)
  /\ (Db.bet_stake <$> List.find (Db.is_bet_of "market_1000" "bob") (Db.bets st'))
     = Some (Db.stake_placed r)
  /\ Db.users st' !! "bob" = Some (Db.placed_user r)
  /\ Db.markets st' !! "market_1000" = Db.placed_market r.
Proof.
  intros st res r st'.
  apply (placeBet_returns_what_it_stored 1002 "market_1000" "bob" 250 (9 # 10)
           Db.reliable st r st').
  vm_compute. reflexivity.
Defined.

Section TypedProbability.
Import Stdlib.Strings.Ascii Pricing Db Command.

(** A number typed as a probability ends up in [0, 1] exactly when it is
    between 0 and 100. *)
Lemma as_fraction_range (prob : Q) :
  (0 <= as_fraction prob /\ as_fraction prob <= 1)%Q <-> (0 <= prob /\ prob <= 100)%Q.
Proof.
  unfold as_fraction. destruct (Qle_bool prob 1) eqn:E.
  - apply Qle_bool_iff in E. split; intros [H0 H1]; split; lra.
  - assert (H : (1 < prob)%Q).
    { apply Qnot_le_lt. intros H. apply Qle_bool_iff in H. congruence. }
    assert (Ey : (prob == 100 * (prob / 100))%Q) by (field; discriminate).
    set (y := (prob / 100)%Q) in *.
    split; intros [H0 H1]; split; lra.
Qed.

(** X16.  The probability of a parsed bet is the number typed when that is
    at most 1, and a hundredth of it otherwise; so [placeBet] refuses the
    bet for its probability exactly when the number typed is below 0 or
    above 100, whatever the tables and whatever statements fail.  A bet
    typed as 1 is a bet at 100%, not at 1%. *)
Theorem typed_probability_is_accepted_up_to_100
    (parseFloat : string -> option Q) (parseInt : string -> option Z)
    (prob : Q) (now : Z) (marketId userId : string) (desired_amount : Z)
    (o : Db.oracle) (st : Db.db) :
  (forall text r,
     Command.parseBetting parseFloat parseInt text = Some r ->
     exists word typed,
       parseFloat word = Some typed
       /\ Command.probability r = Command.as_fraction typed)
  /\ (fst (Db.placeBet now marketId userId desired_amount (Command.as_fraction prob) o st)
      = inl Db.InvalidProbability
      <-> ~ (0 <= prob /\ prob <= 100)%Q)
  /\ Command.as_fraction 1 = 1%Q
  /\ Command.as_fraction 75 = (75 / 100)%Q.
Proof.
  split; [|split; [|split; reflexivity]].
  - intros text r. unfold Command.parseBetting.
    destruct (length (Text.split " " text) <? 3)%nat; [discriminate|].
    destruct (String.eqb (nth 0 (Text.split " " text) "") "bet");
      match goal with
      | |- context [parseFloat ?w] =>
          destruct (parseFloat w) as [typed|] eqn:Ew; [|discriminate];
          match goal with
          | |- context [match ?a with Some _ => _ | None => None end] =>
              destruct a; [|discriminate]
          end;
          intros H; inversion H; exists w, typed; split; [exact Ew|reflexivity]
      end.
  - rewrite <- as_fraction_range. split.
    + intros H.
      destruct (Db.placeBet now marketId userId desired_amount
                  (Command.as_fraction prob) o st) as [res st'] eqn:E.
      simpl in H. subst res. apply placeBet_error in E. simpl in E.
      intros [H0 H1]. apply Qle_bool_iff in H0, H1. rewrite H0, H1 in E. discriminate.
    + intros H. unfold Db.placeBet.
      destruct (Qle_bool 0 (Command.as_fraction prob)) eqn:E0; [|reflexivity].
      destruct (Qle_bool (Command.as_fraction prob) 1) eqn:E1; [|reflexivity].
      contradiction H. split; apply Qle_bool_iff; assumption.
Qed.

End TypedProbability.

(** X17.  Whatever statements fail, a call of [getUser] that returns gives
    the row of the user as it is stored afterwards: the row that was there,
    with the tables untouched, or for a user seen for the first time the
    default row with a bankroll of 1000, nothing staked and an accuracy of
    one half, which is then stored.  The rows of the other users, the
    markets and the bets are as they were, and a second call returns the
    same row and changes nothing. *)
Theorem getUser_creates_the_row_once
    (userId : string) (o : Db.oracle) (st : Db.db) (user : Db.user_row) (st' : Db.db) :
  Db.getUser userId o st = (inr user, st') ->
  Db.users st' !! userId = Some user
  /\ (forall row, Db.users st !! userId = Some row -> user = row /\ st' = st)
  /\ (Db.users st !! userId = None ->
      user = {| Db.bankroll := 1000; Db.total_staked := 0; Db.bets_placed := 0;
                Db.bets_won := 0; Db.accuracy := (1 # 2)%Q |})
  /\ (forall u, u <> userId -> Db.users st' !! u = Db.users st !! u)
  /\ Db.bets st' = Db.bets st
  /\ Db.markets st' = Db.markets st
  /\ Db.getUser userId o st' = (inr user, st').
Proof.
  rewrite !getUser_run.
  destruct (o (Db.SelectUser userId)) eqn:Ho; [discriminate|].
  destruct (Db.users st !! userId) as [row|] eqn:Hrow.
  - intros H. inversion H; subst. rewrite Hrow.
    split; [reflexivity|]. split; [intros r Hr; inversion Hr; split; reflexivity|].
    split; [discriminate|]. repeat split; reflexivity.
  - destruct (o (Db.InsertUser userId)) eqn:Hi; [discriminate|].
    intros H. inversion H; subst. simpl. rewrite lookup_insert_eq.
    split; [reflexivity|]. split; [discriminate|]. split; [reflexivity|].
    split; [intros u NE; apply lookup_insert_ne; congruence|].
    repeat split; reflexivity.
Qed.

Lemma getUser_creates_the_row_once_witness :
  let st := Scenario.created in
  let st' := snd (Db.getUser "dave" Db.reliable st) in
  Db.users st' !! "dave" = Some Db.new_user
  /\ (forall row, Db.users st !! "dave" = Some row -> Db.new_user = row /\ st' = st)
  /\ (Db.users st !! "dave" = None ->
      Db.new_user = {| Db.bankroll := 1000; Db.total_staked := 0; Db.bets_placed := 0;
                       Db.bets_won := 0; Db.accuracy := (1 # 2)%Q |})
  /\ (forall u, u <> "dave"%string -> Db.users st' !! u = Db.users st !! u)
  /\ Db.bets st' = Db.bets st
  /\ Db.markets st' = Db.markets st
  /\ Db.getUser "dave" Db.reliable st' = (inr Db.new_user, st').
Proof.
  intros st st'.
  apply (getUser_creates_the_row_once "dave" Db.reliable st Db.new_user st').
  vm_compute. reflexivity.
Defined.

(* ===================================================================== *)
(** * The books in every reachable state *)
(* ===================================================================== *)

Section Frames.
Import Pricing Db Ledger Books.

Lemma payout_promise_run (outcome : bool) (b : bet_row) (o : oracle) (st : db) :
  payout_promise outcome b o st
  = match getUser (user_id b) o st with
    | (inl e, st1) => (inl e, st1)
    | (inr user, st1) =>
        if o (UpdateUser (user_id b))
        then (inl (PersistenceFailure (UpdateUser (user_id b))), st1)
        else (inr (user_id b, bet_payout outcome b, bet_accuracy outcome b),
              with_users st1
                (alter (fun _ => settled outcome b user) (user_id b) (users st1)))
    end.
Proof.
  unfold payout_promise, bind, updateUser, pool_query, ret.
  destruct (getUser (user_id b) o st) as [[e|user] st1]; [reflexivity|].
  destruct (o (UpdateUser (user_id b))); reflexivity.
Qed.

(** The tables one payout leaves, whatever statements fail. *)
Lemma payout_promise_state (outcome : bool) (b : bet_row) (o : oracle) (st : db) :
  snd (payout_promise outcome b o st) = st
  \/ snd (payout_promise outcome b o st) = after_getUser (user_id b) st
  \/ snd (payout_promise outcome b o st) = paid outcome b st.
Proof.
  rewrite payout_promise_run.
  destruct (getUser (user_id b) o st) as [[e|user] st1] eqn:Hu.
  { apply getUser_fail in Hu. subst. left. reflexivity. }
  apply getUser_ok in Hu as (-> & -> & _).
  destruct (o (UpdateUser (user_id b))); simpl; [right; left; reflexivity|].
  right. right. reflexivity.
Qed.

Lemma promise_all_snd {A} (p : M A) (rest : list (M A)) (o : oracle) (st : db) :
  snd (promise_all (p :: rest) o st) = snd (promise_all rest o (snd (p o st))).
Proof.
  simpl. destruct (p o st) as [[e|a] st1]; simpl; [reflexivity|].
  destruct (promise_all rest o st1) as [[e|l] st2]; reflexivity.
Qed.

(** A property of the tables that every payout keeps is kept by all of
    them together. *)
Lemma promise_all_payouts_keep (J : db -> Prop) (outcome : bool) (o : oracle)
    (rows : list bet_row) :
  (forall b st, In b rows -> J st -> J (snd (payout_promise outcome b o st))) ->
  forall st, J st -> J (snd (promise_all (map (payout_promise outcome) rows) o st)).
Proof.
  induction rows as [|b rows IH]; intros Hstep st HJ; [exact HJ|].
  cbn [map]. rewrite promise_all_snd. apply IH.
  - intros b' st' Hin. apply Hstep. right. exact Hin.
  - apply Hstep; [left; reflexivity|exact HJ].
Qed.

Lemma payout_promise_frame (outcome : bool) (b : bet_row) (o : oracle) (st : db) :
  bets (snd (payout_promise outcome b o st)) = bets st
  /\ markets (snd (payout_promise outcome b o st)) = markets st.
Proof.
  destruct (payout_promise_state outcome b o st) as [-> | [-> | ->]].
  - split; reflexivity.
  - split; [apply bets_after_getUser|apply markets_after_getUser].
  - unfold paid. simpl. split; [apply bets_after_getUser|apply markets_after_getUser].
Qed.

Lemma promise_all_frame (outcome : bool) (o : oracle) (rows : list bet_row) (st : db) :
  bets (snd (promise_all (map (payout_promise outcome) rows) o st)) = bets st
  /\ markets (snd (promise_all (map (payout_promise outcome) rows) o st)) = markets st.
Proof.
  apply (promise_all_payouts_keep
           (fun st' => bets st' = bets st /\ markets st' = markets st)).
  - intros b st' _ [Hb Hm].
    destruct (payout_promise_frame outcome b o st') as [Hb' Hm']. split; congruence.
  - split; reflexivity.
Qed.

Ltac same :=
  let H := fresh in
  intros H; inversion H; subst; split; [|left]; reflexivity.

(** The tables a resolution leaves, whatever statements fail: the bets are
    untouched, and the market rows are untouched or the market is marked
    resolved. *)
Lemma predict_resolve_frame (isAdmin : bool) (now : Z) (m : string) (outcome : bool)
    (o : oracle) (st : db) :
  bets (snd (predict_resolve isAdmin now m outcome o st)) = bets st
  /\ (markets (snd (predict_resolve isAdmin now m outcome o st)) = markets st
      \/ markets (snd (predict_resolve isAdmin now m outcome o st))
         = alter (set_resolved outcome now) m (markets st)).
Proof.
  destruct (predict_resolve isAdmin now m outcome o st) as [rep st'] eqn:E.
  simpl. revert E. unfold predict_resolve.
  destruct isAdmin; simpl; [|same].
  unfold try_catch. unfold bind at 1. unfold getMarket at 1. unfold pool_query at 1.
  destruct (o (SelectMarket m)); simpl; [same|].
  destruct (markets st !! m) as [market|]; simpl; [|same].
  destruct (resolved market); simpl; [same|].
  unfold bind at 1. unfold getMarketBets at 1. unfold pool_query at 1.
  destruct (o (SelectBets m)); simpl; [same|].
  fold (bets_on m st).
  destruct (length (bets_on m st) =? 0)%nat; simpl; [same|].
  unfold bind at 1.
  destruct (promise_all_frame outcome o (bets_on m st) st) as [Hb Hm].
  destruct (promise_all (map (payout_promise outcome) (bets_on m st)) o st)
    as [[e|l] st1]; simpl in Hb, Hm; simpl.
  { intros H; inversion H; subst. split; [|left]; assumption. }
  unfold bind, updateMarket, pool_query, ret.
  destruct (o (UpdateMarket m)); simpl.
  { intros H; inversion H; subst. split; [|left]; assumption. }
  intros H; inversion H; subst. simpl.
  split; [assumption|]. right. rewrite Hm. reflexivity.
Qed.

(** The tables a creation leaves: as they were, or with the new market
    under an id that was free. *)
Lemma predict_create_state (now : Z) (q c : string) (d : Z) (o : oracle) (st : db) :
  snd (predict_create now q c d o st) = st
  \/ markets st !! ("market_" +:+ pretty now) = None
     /\ snd (predict_create now q c d o st)
        = with_markets st (<["market_" +:+ pretty now := fresh_market q c d]> (markets st)).
Proof.
  destruct (predict_create now q c d o st) as [rep st'] eqn:E.
  simpl. revert E. unfold predict_create, try_catch.
  destruct (d <? now); simpl; [intros H; inversion H; left; reflexivity|].
  unfold bind, createMarket, ret.
  destruct (o (InsertMarket ("market_" +:+ pretty now))); simpl;
    [intros H; inversion H; left; reflexivity|].
  destruct (markets st !! ("market_" +:+ pretty now)) eqn:Em; simpl;
    intros H; inversion H; [left; reflexivity|].
  right. split; reflexivity.
Qed.

(** A market without a row has no bets. *)
Lemma no_market_no_bets (id : string) (st : db) :
  consistent st -> markets st !! id = None -> bets_on id st = [].
Proof.
  intros Hst Hnone. apply filter_nothing. intros b Hin.
  apply String.eqb_neq. intros E.
  pose proof (proj1 (List.Forall_forall _ _) (bet_markets_exist st Hst) b Hin) as [row Hrow].
  congruence.
Qed.

End Frames.

Section Accounts.
Import Pricing Db Ledger Books.

Variable G : user_row -> Prop.
Hypothesis G_new : G new_user.
Hypothesis G_stake :
  forall row v, G row -> v <= bankroll row -> G (set_total_staked v row).
Hypothesis G_settled :
  forall outcome b row,
    1 <= bet_stake b <= 100 ->
    (0 <= bet_probability b /\ bet_probability b <= 1)%Q ->
    G row -> G (settled outcome b row).

Lemma accounts_user_read (u : string) (st : db) :
  accounts G st -> G (user_read u st).
Proof.
  intros HG. unfold user_read. destruct (users st !! u) as [row|] eqn:E.
  - exact (HG u row E).
  - exact G_new.
Qed.

Lemma accounts_after_getUser (u : string) (st : db) :
  accounts G st -> accounts G (after_getUser u st).
Proof.
  intros HG v row. unfold after_getUser. destruct (users st !! u) eqn:E; [apply HG|].
  simpl. destruct (decide (u = v)) as [->|NE].
  - rewrite lookup_insert_eq. intros H. inversion H. exact G_new.
  - rewrite lookup_insert_ne by exact NE. apply HG.
Qed.

Lemma accounts_paid (outcome : bool) (b : bet_row) (st : db) :
  1 <= bet_stake b <= 100 ->
  (0 <= bet_probability b /\ bet_probability b <= 1)%Q ->
  accounts G st -> accounts G (paid outcome b st).
Proof.
  intros Hs Hp HG v row. unfold paid. simpl.
  destruct (decide (user_id b = v)) as [<-|NE].
  - rewrite lookup_alter_eq, user_after_getUser. simpl. intros H. inversion H.
    apply G_settled; [exact Hs|exact Hp|]. apply accounts_user_read, HG.
  - rewrite lookup_alter_ne by exact NE. apply accounts_after_getUser, HG.
Qed.

Lemma accounts_payout_promise (outcome : bool) (b : bet_row) (o : oracle) (st : db) :
  1 <= bet_stake b <= 100 ->
  (0 <= bet_probability b /\ bet_probability b <= 1)%Q ->
  accounts G st -> accounts G (snd (payout_promise outcome b o st)).
Proof.
  intros Hs Hp HG.
  destruct (payout_promise_state outcome b o st) as [-> | [-> | ->]].
  - exact HG.
  - apply accounts_after_getUser, HG.
  - apply accounts_paid; assumption.
Qed.

Lemma accounts_predict_resolve (isAdmin : bool) (now : Z) (m : string) (outcome : bool)
    (o : oracle) (st : db) :
  consistent st -> accounts G st ->
  accounts G (snd (predict_resolve isAdmin now m outcome o st)).
Proof.
  intros Hst HG.
  destruct (predict_resolve isAdmin now m outcome o st) as [rep st'] eqn:E.
  simpl. revert E. unfold predict_resolve.
  destruct isAdmin; simpl; [|intros H; inversion H; subst; exact HG].
  unfold try_catch. unfold bind at 1. unfold getMarket at 1. unfold pool_query at 1.
  destruct (o (SelectMarket m)); simpl; [intros H; inversion H; subst; exact HG|].
  destruct (markets st !! m) as [market|]; simpl; [|intros H; inversion H; subst; exact HG].
  destruct (resolved market); simpl; [intros H; inversion H; subst; exact HG|].
  unfold bind at 1. unfold getMarketBets at 1. unfold pool_query at 1.
  destruct (o (SelectBets m)); simpl; [intros H; inversion H; subst; exact HG|].
  fold (bets_on m st).
  destruct (length (bets_on m st) =? 0)%nat; simpl;
    [intros H; inversion H; subst; exact HG|].
  unfold bind at 1.
  assert (HG1 : accounts G (snd (promise_all (map (payout_promise outcome) (bets_on m st))
                                   o st))).
  { apply (promise_all_payouts_keep (accounts G)); [|exact HG].
    intros b st0 Hin. apply accounts_payout_promise.
    - exact (proj1 (List.Forall_forall _ _)
                   (Forall_bets_on _ m st (stakes_clamped st Hst)) b Hin).
    - exact (proj1 (List.Forall_forall _ _)
                   (Forall_bets_on _ m st (probabilities_valid st Hst)) b Hin). }
  destruct (promise_all (map (payout_promise outcome) (bets_on m st)) o st)
    as [[e|l] st1]; simpl in HG1; simpl.
  { intros H; inversion H; subst. exact HG1. }
  unfold bind, updateMarket, pool_query, ret.
  destruct (o (UpdateMarket m)); simpl; intros H; inversion H; subst; exact HG1.
Qed.

Lemma accounts_placeBet (now : Z) (m u : string) (amt : Z) (p : Q) (o : oracle) (st : db) :
  accounts G st -> accounts G (snd (placeBet now m u amt p o st)).
Proof.
  intros HG.
  destruct (placeBet now m u amt p o st) as [res st'] eqn:E.
  apply placeBet_inv in E. simpl.
  inversion E as [ | | res' market Hp0 Hp1 Hm Hact Hdl Hav Hres]; subst.
  - exact HG.
  - apply accounts_after_getUser, HG.
  - intros v row. unfold place_commit. simpl.
    destruct (decide (u = v)) as [<-|NE].
    + rewrite lookup_alter_eq, user_after_getUser. simpl. intros H. inversion H.
      apply G_stake; [apply accounts_user_read, HG|].
      rewrite bets_after_getUser. apply Z.ltb_ge in Hav.
      unfold available_bankroll in Hav. lia.
    + rewrite lookup_alter_ne by exact NE. apply accounts_after_getUser, HG.
Qed.

Lemma accounts_predict_create (now : Z) (q c : string) (d : Z) (o : oracle) (st : db) :
  accounts G st -> accounts G (snd (predict_create now q c d o st)).
Proof.
  intros HG. destruct (predict_create_state now q c d o st) as [-> | [_ ->]]; exact HG.
Qed.

(** In every reachable state every row of [users] satisfies [G]. *)
Lemma reachable_accounts (st : db) : reachable st -> accounts G st.
Proof.
  induction 1 as [|c o st Hreach IH].
  - intros u row H. simpl in H. rewrite lookup_empty in H. discriminate.
  - destruct c as [now q cr d | now m u amt p | isAdmin now m outcome]; simpl.
    + apply accounts_predict_create, IH.
    + apply accounts_placeBet, IH.
    + apply accounts_predict_resolve; [apply reachable_consistent, Hreach|exact IH].
Qed.

End Accounts.

Section Solvent.
Import Pricing Db Ledger Books.

Lemma solvent_settled (outcome : bool) (b : bet_row) (row : user_row) :
  1 <= bet_stake b <= 100 ->
  (0 <= bet_probability b /\ bet_probability b <= 1)%Q ->
  solvent row -> solvent (settled outcome b row).
Proof.
  intros Hs Hp [H1 H2].
  assert (Hpay : bet_stake b <= bet_payout outcome b <= 2 * bet_stake b)
    by (apply bet_payout_bounds; [lia|exact Hp]).
  unfold solvent, settled. simpl. lia.
Qed.

Lemma stats_agree_settled (outcome : bool) (b : bet_row) (row : user_row) :
  stats_agree row -> stats_agree (settled outcome b row).
Proof.
  intros (Hc & _ & _). unfold stats_agree, settled. simpl.
  split; [destruct (wasCorrect outcome b); lia|]. split.
  - intros E. lia.
  - intros _. reflexivity.
Qed.

End Solvent.

(** X18.  In every state the requests can reach, whatever statements failed
    on the way, nobody is below the bankroll of 1000 every user starts
    with, and nobody has staked more than their bankroll. *)
Theorem every_account_is_solvent (st : Db.db) (userId : string) (user : Db.user_row) :
  Ledger.reachable st ->
  Db.users st !! userId = Some user ->
  1000 <= Db.bankroll user /\ Db.total_staked user <= Db.bankroll user.
Proof.
  intros Hreach Hrow.
  apply (reachable_accounts Books.solvent) with (st := st) (u := userId);
    [| | |exact Hreach|exact Hrow].
  - unfold Books.solvent. simpl. lia.
  - intros row v [H1 H2] Hv. unfold Books.solvent. simpl. lia.
  - intros outcome b row. apply solvent_settled.
Qed.

Lemma every_account_is_solvent_witness :
  exists user,
    Db.users Scenario.alice_bets_again !! "alice" = Some user
    /\ 1000 <= Db.bankroll user /\ Db.total_staked user <= Db.bankroll user.
Proof.
  eexists. split; [vm_compute; reflexivity|].
  apply (every_account_is_solvent Scenario.alice_bets_again "alice").
  - unfold Scenario.alice_bets_again, Scenario.resolved_yes, Scenario.both_bet,
      Scenario.alice_bet, Scenario.created.
    repeat constructor.
  - vm_compute. reflexivity.
Defined.

(** X19.  In every state the requests can reach, whatever statements failed
    on the way, the counts of a user fit together: the bets won are between
    0 and the bets settled, and the accuracy stored is the share of the
    bets won, or one half for a user with no settled bet; so it is between
    0 and 1. *)
Theorem user_statistics_agree (st : Db.db) (userId : string) (user : Db.user_row) :
  Ledger.reachable st ->
  Db.users st !! userId = Some user ->
  0 <= Db.bets_won user <= Db.bets_placed user
  /\ (Db.bets_placed user = 0 -> (Db.accuracy user == 1 # 2)%Q)
  /\ (0 < Db.bets_placed user ->
      (Db.accuracy user == inject_Z (Db.bets_won user) / inject_Z (Db.bets_placed user))%Q)
  /\ (0 <= Db.accuracy user /\ Db.accuracy user <= 1)%Q.
Proof.
  intros Hreach Hrow.
  assert (H : Books.stats_agree user).
  { apply (reachable_accounts Books.stats_agree) with (st := st) (u := userId);
      [| | |exact Hreach|exact Hrow].
    - unfold Books.stats_agree. simpl. split; [lia|]. split; [reflexivity|lia].
    - intros row v Hr _. exact Hr.
    - intros outcome b row _ _. apply stats_agree_settled. }
  destruct H as (Hc & H0 & Hpos). split; [exact Hc|]. split; [exact H0|].
  split; [exact Hpos|].
  destruct (Z.eq_dec (Db.bets_placed user) 0) as [E|NE].
  - rewrite (H0 E). split; apply Qle_bool_iff; reflexivity.
  - assert (Hp : 0 < Db.bets_placed user) by lia.
    rewrite (Hpos Hp).
    assert (Hq : (0 < inject_Z (Db.bets_placed user))%Q)
      by (change 0%Q with (inject_Z 0); rewrite <- Zlt_Qlt; exact Hp).
    split.
    + apply Qle_shift_div_l; [exact Hq|]. rewrite Qmult_0_l.
      change 0%Q with (inject_Z 0). rewrite <- Zle_Qle. lia.
    + apply Qle_shift_div_r; [exact Hq|]. rewrite Qmult_1_l.
      rewrite <- Zle_Qle. lia.
Qed.

Lemma user_statistics_agree_witness :
  exists user,
    Db.users Scenario.resolved_yes !! "bob" = Some user
    /\ 0 <= Db.bets_won user <= Db.bets_placed user
    /\ (Db.bets_placed user = 0 -> (Db.accuracy user == 1 # 2)%Q)
    /\ (0 < Db.bets_placed user ->
        (Db.accuracy user == inject_Z (Db.bets_won user) / inject_Z (Db.bets_placed user))%Q)
    /\ (0 <= Db.accuracy user /\ Db.accuracy user <= 1)%Q.
Proof.
  eexists. split; [vm_compute; reflexivity|].
  apply (user_statistics_agree Scenario.resolved_yes "bob").
  - unfold Scenario.resolved_yes, Scenario.both_bet, Scenario.alice_bet, Scenario.created.
    repeat constructor.
  - vm_compute. reflexivity.
Defined.

Section Totals.
Import Pricing Db Ledger Books.

Lemma totals_agree_markets (st st' : db) :
  bets st' = bets st ->
  (forall id m', markets st' !! id = Some m' ->
     exists m, markets st !! id = Some m
               /\ total_stake m' = total_stake m /\ probability m' = probability m) ->
  (totals_agree st -> totals_agree st')
  /\ (untouched_price st -> untouched_price st').
Proof.
  intros Hb Hm. split.
  - intros HT id m' Hm'. destruct (Hm id m' Hm') as (m & Hid & Ht & _).
    unfold bets_on. rewrite Hb, Ht. exact (HT id m Hid).
  - intros HU id m' Hm' Hnone. destruct (Hm id m' Hm') as (m & Hid & _ & Hp).
    rewrite Hp. apply (HU id m Hid). unfold bets_on in *. rewrite <- Hb. exact Hnone.
Qed.

Lemma books_after_getUser (u : string) (st : db) :
  (totals_agree st -> totals_agree (after_getUser u st))
  /\ (untouched_price st -> untouched_price (after_getUser u st)).
Proof.
  apply totals_agree_markets; [apply bets_after_getUser|].
  intros id m'. rewrite markets_after_getUser. eauto.
Qed.

Lemma books_predict_resolve (isAdmin : bool) (now : Z) (m : string) (outcome : bool)
    (o : oracle) (st : db) :
  (totals_agree st -> totals_agree (snd (predict_resolve isAdmin now m outcome o st)))
  /\ (untouched_price st
      -> untouched_price (snd (predict_resolve isAdmin now m outcome o st))).
Proof.
  destruct (predict_resolve_frame isAdmin now m outcome o st) as [Hb [Hm|Hm]];
    apply totals_agree_markets; try exact Hb; intros id m'; rewrite Hm; [eauto|].
  destruct (decide (m = id)) as [<-|NE].
  - rewrite lookup_alter_eq. destruct (markets st !! m) as [row|]; simpl; [|discriminate].
    intros H. inversion H. exists row. repeat split; reflexivity.
  - rewrite lookup_alter_ne by exact NE. eauto.
Qed.

Lemma books_predict_create (now : Z) (q c : string) (d : Z) (o : oracle) (st : db) :
  consistent st ->
  (totals_agree st -> totals_agree (snd (predict_create now q c d o st)))
  /\ (untouched_price st -> untouched_price (snd (predict_create now q c d o st))).
Proof.
  intros Hst. destruct (predict_create_state now q c d o st) as [-> | [Hfree ->]];
    [split; auto|].
  split.
  - intros HT id m'. unfold bets_on. simpl.
    destruct (decide ("market_" +:+ pretty now = id)) as [<-|NE].
    + rewrite lookup_insert_eq. intros H. inversion H. simpl.
      fold (bets_on ("market_" +:+ pretty now) st).
      rewrite (no_market_no_bets _ st Hst Hfree). reflexivity.
    + rewrite lookup_insert_ne by exact NE. apply HT.
  - intros HU id m'. unfold bets_on. simpl.
    destruct (decide ("market_" +:+ pretty now = id)) as [<-|NE].
    + rewrite lookup_insert_eq. intros H. inversion H. reflexivity.
    + rewrite lookup_insert_ne by exact NE. apply HU.
Qed.

Lemma bets_on_place_commit_other (now : Z) (m u : string) (stake : Z) (p : Q)
    (market : market_row) (user : user_row) (st1 : db) (id : string) :
  id <> m ->
  bets_on id (place_commit now m u stake p market user st1) = bets_on id st1.
Proof.
  intros NE. unfold bets_on, place_commit. simpl.
  apply filter_upsert_other. simpl. congruence.
Qed.

Lemma books_place_commit (now : Z) (m u : string) (stake : Z) (p : Q)
    (market : market_row) (user : user_row) (st1 : db) :
  markets st1 !! m = Some market ->
  (totals_agree st1 -> totals_agree (place_commit now m u stake p market user st1))
  /\ (untouched_price st1
      -> untouched_price (place_commit now m u stake p market user st1)).
Proof.
  intros Hm. split.
  - intros HT id m'. destruct (decide (id = m)) as [->|NE].
    + unfold place_commit at 1. simpl. rewrite lookup_alter_eq, Hm. simpl.
      intros H. inversion H. simpl. rewrite (HT m market Hm).
      unfold total_of, bets_on, place_commit. simpl.
      rewrite (total_filter_upsert (fun b => String.eqb (market_id b) m)).
      * simpl. rewrite String.eqb_refl. lia.
      * intros b Hk. simpl. unfold key in Hk. simpl in Hk. inversion Hk.
        rewrite !String.eqb_refl. reflexivity.
    + rewrite bets_on_place_commit_other by exact NE.
      unfold place_commit. simpl. rewrite lookup_alter_ne by congruence. apply HT.
  - intros HU id m'. destruct (decide (id = m)) as [->|NE].
    + intros _ Hnone. exfalso.
      assert (Hfind : List.find (is_bet_of m u)
                        (bets (place_commit now m u stake p market user st1))
                      <> None).
      { unfold place_commit. simpl.
        rewrite (find_upsert_same
                   {| market_id := m; user_id := u; bet_stake := stake;
                      bet_probability := p; updated_at := now |}). discriminate. }
      apply Hfind. rewrite <- find_bets_on. fold (bets_on m (place_commit now m u stake p market user st1)).
      rewrite Hnone. reflexivity.
    + rewrite bets_on_place_commit_other by exact NE.
      unfold place_commit. simpl. rewrite lookup_alter_ne by congruence. apply HU.
Qed.

Lemma books_placeBet (now : Z) (m u : string) (amt : Z) (p : Q) (o : oracle) (st : db) :
  (totals_agree st -> totals_agree (snd (placeBet now m u amt p o st)))
  /\ (untouched_price st -> untouched_price (snd (placeBet now m u amt p o st))).
Proof.
  destruct (placeBet now m u amt p o st) as [res st'] eqn:E.
  apply placeBet_inv in E. simpl.
  inversion E as [ | | res' market Hp0 Hp1 Hm Hact Hdl Hav Hres]; subst.
  - split; auto.
  - apply books_after_getUser.
  - destruct (books_after_getUser u st) as [H1 H2].
    destruct (books_place_commit now m u (calculateStake amt) p market (user_read u st)
                (after_getUser u st)) as [H3 H4].
    { rewrite markets_after_getUser. exact Hm. }
    split; auto.
Qed.

(** In every reachable state the totals of the markets are the sums of
    their bets, and a market without bets is at one half. *)
Lemma reachable_books (st : db) :
  reachable st -> totals_agree st /\ untouched_price st.
Proof.
  induction 1 as [|c o st Hreach [IH1 IH2]].
  - split; intros id m H; simpl in H; rewrite lookup_empty in H; discriminate.
  - destruct c as [now q cr d | now m u amt p | isAdmin now m outcome]; simpl.
    + destruct (books_predict_create now q cr d o st (reachable_consistent st Hreach)).
      split; auto.
    + destruct (books_placeBet now m u amt p o st). split; auto.
    + destruct (books_predict_resolve isAdmin now m outcome o st). split; auto.
Qed.

(** The mean of valid bets is a probability. *)
Lemma mean_in_unit_interval (rows : list bet_row) :
  rows <> [] ->
  Forall (fun b => 1 <= bet_stake b <= 100) rows ->
  Forall (fun b => 0 <= bet_probability b /\ bet_probability b <= 1)%Q rows ->
  (0 <= mean rows /\ mean rows <= 1)%Q.
Proof.
  intros Hne Hs Hp.
  assert (Hs1 : Forall (fun b => 1 <= bet_stake b) rows)
    by (eapply Forall_impl; [exact Hs|]; simpl; intros; lia).
  assert (Hs0 : Forall (fun s => 0 <= s) (map bet_stake rows)).
  { apply List.Forall_forall. intros s Hin. apply in_map_iff in Hin as (b & <- & Hb).
    pose proof (proj1 (List.Forall_forall _ _) Hs b Hb). simpl in *. lia. }
  assert (Hp0 : Forall (fun x => 0 <= x /\ x <= 1)%Q (map bet_probability rows)).
  { apply List.Forall_forall. intros x Hin. apply in_map_iff in Hin as (b & <- & Hb).
    exact (proj1 (List.Forall_forall _ _) Hp b Hb). }
  destruct (sum_products_bounds _ _ Hs0 Hp0) as [HW0 HW1].
  pose proof (total_of_nonneg rows Hs1) as HT.
  assert (HT' : 0 < total_of rows).
  { destruct (Z.eq_dec (total_of rows) 0) as [E|NE]; [|lia].
    apply (total_of_zero rows Hs1) in E. contradiction. }
  fold (weighted_of rows) in HW0, HW1. fold (total_of rows) in HW1.
  assert (Hden : (0 < inject_Z (total_of rows))%Q)
    by (change 0%Q with (inject_Z 0); rewrite <- Zlt_Qlt; exact HT').
  unfold mean. split.
  - apply Qle_shift_div_l; [exact Hden|]. rewrite Qmult_0_l. exact HW0.
  - apply Qle_shift_div_r; [exact Hden|]. rewrite Qmult_1_l. exact HW1.
Qed.

End Totals.

(** X20.  In every state the requests can reach, whatever statements failed
    on the way, the price stored with a market is a number between 0 and 1,
    and it is one half while nobody has bet on the market. *)
Theorem stored_price_is_a_probability
    (st : Db.db) (marketId : string) (market : Db.market_row) :
  Ledger.reachable st ->
  Db.markets st !! marketId = Some market ->
  exists q,
    Db.probability market = Some q
    /\ (Ledger.bets_on marketId st = [] -> q = (1 # 2)%Q)
    /\ (0 <= q /\ q <= 1)%Q.
Proof.
  intros Hreach Hm.
  pose proof (reachable_consistent st Hreach) as Hst.
  destruct (reachable_books st Hreach) as [_ HU].
  destruct (Ledger.bets_on marketId st) as [|b rows] eqn:Hrows.
  - exists (1 # 2)%Q. split; [apply (HU marketId market Hm Hrows)|].
    split; [reflexivity|].
    split; apply Qle_bool_iff; reflexivity.
  - destruct (Ledger.price_is_mean st Hst marketId market Hm) as (q & Hq & Eq).
    { rewrite Hrows. discriminate. }
    exists q. split; [exact Hq|]. split; [discriminate|].
    rewrite Hrows in Eq.
    rewrite Eq, <- Hrows. apply mean_in_unit_interval.
    + rewrite Hrows. discriminate.
    + apply Forall_bets_on, (Ledger.stakes_clamped st Hst).
    + apply Forall_bets_on, (Ledger.probabilities_valid st Hst).
Qed.

Lemma stored_price_is_a_probability_witness :
  exists q,
    Some (7800 # 10000)%Q = Some q
    /\ (Ledger.bets_on "market_1000" Scenario.both_bet = [] -> q = (1 # 2)%Q)
    /\ (0 <= q /\ q <= 1)%Q.
Proof.
  apply (stored_price_is_a_probability Scenario.both_bet "market_1000"
           {| Db.question := "Will we ship?"; Db.creator := "carol";
              Db.deadline := 5000; Db.resolved := false;
              Db.resolution := None; Db.resolved_at := None;
              Db.probability := Some (7800 # 10000)%Q; Db.total_stake := 100;
              Db.active := true |}).
  - unfold Scenario.both_bet, Scenario.alice_bet, Scenario.created.
    repeat constructor.
  - vm_compute. reflexivity.
Defined.

Section StoredBets.
Import Pricing Db Ledger Books.

Lemma total_of_bounds (rows : list bet_row) :
  Forall (fun b => 1 <= bet_stake b <= 100) rows ->
  Z.of_nat (length rows) <= total_of rows <= 100 * Z.of_nat (length rows).
Proof.
  unfold total_of. induction 1 as [|b rows Hb _ IH]; simpl length; simpl map; simpl total.
  - lia.
  - rewrite Nat2Z.inj_succ. lia.
Qed.

(** With one row per key, the row found under the key of a stored row is
    that row. *)
Lemma find_own_key (rows : list bet_row) (b : bet_row) :
  NoDup (map key rows) -> In b rows ->
  List.find (is_bet_of (market_id b) (user_id b)) rows = Some b.
Proof.
  induction rows as [|b0 rows IH]; intros Hnd Hin; [contradiction|].
  simpl in Hnd. apply NoDup_cons in Hnd as [Hnotin Hnd]. simpl.
  destruct Hin as [->|Hin].
  - rewrite is_bet_of_self. reflexivity.
  - destruct (is_bet_of (market_id b) (user_id b) b0) eqn:E; [|apply IH; assumption].
    exfalso. apply Hnotin. apply is_bet_of_key in E. rewrite E.
    apply list_elem_of_In, in_map, Hin.
Qed.

End StoredBets.

(** X21.  In every state the requests can reach, whatever statements failed
    on the way, the total stake stored with a market is the sum of the
    stakes of its bets; so it lies between the number of its bets and a
    hundred times that number. *)
Theorem market_total_is_the_sum_of_its_stakes
    (st : Db.db) (marketId : string) (market : Db.market_row) :
  Ledger.reachable st ->
  Db.markets st !! marketId = Some market ->
  Db.total_stake market = Pricing.total (map Db.bet_stake (Ledger.bets_on marketId st))
  /\ Z.of_nat (length (Ledger.bets_on marketId st))
     <= Db.total_stake market
     <= 100 * Z.of_nat (length (Ledger.bets_on marketId st)).
Proof.
  intros Hreach Hm.
  destruct (reachable_books st Hreach) as [HT _].
  rewrite (HT marketId market Hm). split; [reflexivity|].
  apply total_of_bounds, Forall_bets_on.
  apply (Ledger.stakes_clamped st (reachable_consistent st Hreach)).
Qed.

Lemma market_total_is_the_sum_of_its_stakes_witness :
  100 = Pricing.total (map Db.bet_stake (Ledger.bets_on "market_1000" Scenario.both_bet))
  /\ Z.of_nat (length (Ledger.bets_on "market_1000" Scenario.both_bet))
     <= 100
     <= 100 * Z.of_nat (length (Ledger.bets_on "market_1000" Scenario.both_bet)).
Proof.
  apply (market_total_is_the_sum_of_its_stakes Scenario.both_bet "market_1000"
           {| Db.question := "Will we ship?"; Db.creator := "carol";
              Db.deadline := 5000; Db.resolved := false;
              Db.resolution := None; Db.resolved_at := None;
              Db.probability := Some (7800 # 10000)%Q; Db.total_stake := 100;
              Db.active := true |}).
  - unfold Scenario.both_bet, Scenario.alice_bet, Scenario.created.
    repeat constructor.
  - vm_compute. reflexivity.
Defined.

(** X22.  In every state the requests can reach, whatever statements failed
    on the way, every stored bet is well formed: its stake is between 1 and
    100, its probability between 0 and 1, its user and its market have a
    row, and it is the only bet of its user on its market, the one
    [getUserBet] finds. *)
Theorem stored_bets_are_well_formed (st : Db.db) (b : Db.bet_row) :
  Ledger.reachable st ->
  In b (Db.bets st) ->
  1 <= Db.bet_stake b <= 100
  /\ (0 <= Db.bet_probability b /\ Db.bet_probability b <= 1)%Q
  /\ is_Some (Db.users st !! Db.user_id b)
  /\ is_Some (Db.markets st !! Db.market_id b)
  /\ List.find (Db.is_bet_of (Db.market_id b) (Db.user_id b)) (Db.bets st) = Some b.
Proof.
  intros Hreach Hin.
  pose proof (reachable_consistent st Hreach) as Hst.
  split; [exact (proj1 (List.Forall_forall _ _) (Ledger.stakes_clamped st Hst) b Hin)|].
  split; [exact (proj1 (List.Forall_forall _ _) (Ledger.probabilities_valid st Hst) b Hin)|].
  split; [exact (proj1 (List.Forall_forall _ _) (Ledger.bettors_exist st Hst) b Hin)|].
  split; [exact (proj1 (List.Forall_forall _ _) (Ledger.bet_markets_exist st Hst) b Hin)|].
  apply find_own_key; [exact (Ledger.one_bet_per_user_and_market st Hst)|exact Hin].
Qed.

Lemma stored_bets_are_well_formed_witness :
  let b := {| Db.market_id := "market_1000"; Db.user_id := "bob"; Db.bet_stake := 60;
              Db.bet_probability := (9 # 10)%Q; Db.updated_at := 1002 |} in
  1 <= Db.bet_stake b <= 100
  /\ (0 <= Db.bet_probability b /\ Db.bet_probability b <= 1)%Q
  /\ is_Some (Db.users Scenario.both_bet !! Db.user_id b)
  /\ is_Some (Db.markets Scenario.both_bet !! Db.market_id b)
  /\ List.find (Db.is_bet_of (Db.market_id b) (Db.user_id b)) (Db.bets Scenario.both_bet)
     = Some b.
Proof.
  apply (stored_bets_are_well_formed Scenario.both_bet
           {| Db.market_id := "market_1000"; Db.user_id := "bob"; Db.bet_stake := 60;
              Db.bet_probability := (9 # 10)%Q; Db.updated_at := 1002 |}).
  - unfold Scenario.both_bet, Scenario.alice_bet, Scenario.created.
    repeat constructor.
  - vm_compute. right. left. reflexivity.
Defined.

(** X23.  On the store on which every statement succeeds, and as long as no
    bet is placed on a market that is already resolved, what the row of a
    user says they have staked is the sum of the stakes of their bets on
    the markets that are not resolved. *)
Theorem staked_total_is_the_open_stake
    (st : Db.db) (userId : string) (user : Db.user_row) :
  Ledger.reachable_on_open_markets st ->
  Db.users st !! userId = Some user ->
  Db.total_staked user = Ledger.open_stake st userId.
Proof.
  intros Hreach Hrow. exact (staked_on_open_markets st Hreach userId user Hrow).
Qed.

Lemma staked_total_is_the_open_stake_witness :
  0 = Ledger.open_stake Scenario.resolved_yes "alice".
Proof.
  apply (staked_total_is_the_open_stake Scenario.resolved_yes "alice"
           {| Db.bankroll := 1064; Db.total_staked := 0; Db.bets_placed := 1;
              Db.bets_won := 1; Db.accuracy := (1 # 1)%Q |}).
  - unfold Scenario.resolved_yes, Scenario.both_bet, Scenario.alice_bet, Scenario.created.
    repeat (apply Ledger.open_markets_exec); try exact Ledger.open_markets_empty;
      simpl; try exact I;
      intros row H; vm_compute in H; inversion H; reflexivity.
  - vm_compute. reflexivity.
Defined.

(* ===================================================================== *)
(** * What a resolution changes *)
(* ===================================================================== *)

Section Resolution.
Import Pricing Db Ledger Books.

Lemma payout_promise_ok (outcome : bool) (b : bet_row) (o : oracle) (st : db)
    (line : string * Z * Q) (st' : db) :
  payout_promise outcome b o st = (inr line, st') ->
  line = summary_line outcome b /\ st' = paid outcome b st.
Proof.
  rewrite payout_promise_run.
  destruct (getUser (user_id b) o st) as [[e|user] st1] eqn:Hu; [discriminate|].
  apply getUser_ok in Hu as (-> & -> & _).
  destruct (o (UpdateUser (user_id b))); [discriminate|].
  intros H. inversion H. split; reflexivity.
Qed.

Lemma payout_promise_failed (outcome : bool) (b : bet_row) (o : oracle) (st : db)
    (e : error) (st' : db) :
  payout_promise outcome b o st = (inl e, st') ->
  exists q, e = PersistenceFailure q /\ o q = true.
Proof.
  rewrite payout_promise_run, getUser_run.
  destruct (o (SelectUser (user_id b))) eqn:E1.
  { intros H. inversion H. eauto. }
  destruct (users st !! user_id b).
  - destruct (o (UpdateUser (user_id b))) eqn:E2; intros H; inversion H. eauto.
  - destruct (o (InsertUser (user_id b))) eqn:E3.
    { intros H. inversion H. eauto. }
    destruct (o (UpdateUser (user_id b))) eqn:E2; intros H; inversion H. eauto.
Qed.

(** When all the payouts succeed, the summary has one line for each bet and
    every bet has been paid. *)
Lemma promise_all_ok (outcome : bool) (o : oracle) (rows : list bet_row) :
  forall (st : db) (l : list (string * Z * Q)) (st' : db),
    promise_all (map (payout_promise outcome) rows) o st = (inr l, st') ->
    l = map (summary_line outcome) rows /\ st' = all_paid outcome rows st.
Proof.
  induction rows as [|b rows IH]; intros st l st'; simpl.
  - unfold ret. intros H. inversion H. split; reflexivity.
  - destruct (payout_promise outcome b o st) as [[e|line] st1] eqn:Hb; [discriminate|].
    apply payout_promise_ok in Hb as [-> ->].
    destruct (promise_all (map (payout_promise outcome) rows) o (paid outcome b st))
      as [[e|l'] st2] eqn:Hrest; [discriminate|].
    apply IH in Hrest as [-> ->]. intros H. inversion H. split; reflexivity.
Qed.

Lemma promise_all_failed (outcome : bool) (o : oracle) (rows : list bet_row) :
  forall (st : db) (e : error) (st' : db),
    promise_all (map (payout_promise outcome) rows) o st = (inl e, st') ->
    exists q, e = PersistenceFailure q /\ o q = true.
Proof.
  induction rows as [|b rows IH]; intros st e st'; simpl.
  - unfold ret. discriminate.
  - destruct (payout_promise outcome b o st) as [[e1|line] st1] eqn:Hb.
    + intros H. inversion H. subst. eapply payout_promise_failed, Hb.
    + destruct (promise_all (map (payout_promise outcome) rows) o st1)
        as [[e2|l'] st2] eqn:Hrest; [|discriminate].
      intros H. inversion H. subst. eapply IH, Hrest.
Qed.

Lemma all_paid_frame (outcome : bool) (rows : list bet_row) :
  forall st, bets (all_paid outcome rows st) = bets st
             /\ markets (all_paid outcome rows st) = markets st.
Proof.
  unfold all_paid. induction rows as [|b rows IH]; intros st; simpl; [split; reflexivity|].
  destruct (IH (paid outcome b st)) as [-> ->]. unfold paid. simpl.
  split; [apply bets_after_getUser|apply markets_after_getUser].
Qed.

(** What a reply of the resolve branch says about the request and about
    the tables it leaves. *)
Lemma predict_resolve_inv (isAdmin : bool) (now : Z) (m : string) (outcome : bool)
    (o : oracle) (st : db) :
  exists rep,
    fst (predict_resolve isAdmin now m outcome o st) = inr rep
    /\ match rep with
       | OnlyAdmins =>
           isAdmin = false /\ snd (predict_resolve isAdmin now m outcome o st) = st
       | NoSuchMarket =>
           isAdmin = true /\ markets st !! m = None
           /\ snd (predict_resolve isAdmin now m outcome o st) = st
       | AlreadyResolved =>
           isAdmin = true
           /\ (exists market, markets st !! m = Some market /\ resolved market = true)
           /\ snd (predict_resolve isAdmin now m outcome o st) = st
       | NoBets =>
           isAdmin = true
           /\ (exists market, markets st !! m = Some market /\ resolved market = false)
           /\ bets_on m st = []
           /\ snd (predict_resolve isAdmin now m outcome o st) = st
       | MarketResolved l =>
           isAdmin = true
           /\ (exists market, markets st !! m = Some market /\ resolved market = false)
           /\ bets_on m st <> []
           /\ l = map (summary_line outcome) (bets_on m st)
           /\ snd (predict_resolve isAdmin now m outcome o st)
              = resolved_state outcome now m st
       | ErrorReply e =>
           (exists q, e = PersistenceFailure q /\ o q = true)
           /\ bets (snd (predict_resolve isAdmin now m outcome o st)) = bets st
           /\ markets (snd (predict_resolve isAdmin now m outcome o st)) = markets st
       | InvalidDeadline | MarketCreated _ => False
       end.
Proof.
  destruct (predict_resolve_frame isAdmin now m outcome o st) as [Hbets _].
  revert Hbets.
  destruct (predict_resolve isAdmin now m outcome o st) as [res st'] eqn:E.
  simpl. intros Hbets. revert E. unfold predict_resolve.
  destruct isAdmin; simpl.
  2:{ unfold ret. intros H. inversion H. subst. exists OnlyAdmins. auto. }
  unfold try_catch. unfold bind at 1. unfold getMarket at 1. unfold pool_query at 1.
  destruct (o (SelectMarket m)) eqn:Ho1; simpl.
  { unfold ret. intros H. inversion H. subst. eexists. split; [reflexivity|]. simpl. eauto. }
  destruct (markets st !! m) as [market|] eqn:Hm; simpl.
  2:{ unfold ret. intros H. inversion H. subst. exists NoSuchMarket. auto. }
  destruct (resolved market) eqn:Hres; simpl.
  { unfold ret. intros H. inversion H. subst. exists AlreadyResolved.
    split; [reflexivity|]. split; [reflexivity|]. split; [eauto|reflexivity]. }
  unfold bind at 1. unfold getMarketBets at 1. unfold pool_query at 1.
  destruct (o (SelectBets m)) eqn:Ho2; simpl.
  { unfold ret. intros H. inversion H. subst. eexists. split; [reflexivity|]. simpl. eauto. }
  fold (bets_on m st).
  destruct (length (bets_on m st) =? 0)%nat eqn:Hlen; simpl.
  { unfold ret. intros H. inversion H. subst. exists NoBets.
    apply Nat.eqb_eq in Hlen. apply length_zero_iff_nil in Hlen.
    split; [reflexivity|]. split; [reflexivity|]. split; [eauto|].
    split; [exact Hlen|reflexivity]. }
  assert (Hne : bets_on m st <> []).
  { intros E. rewrite E in Hlen. discriminate. }
  unfold bind at 1.
  destruct (promise_all (map (payout_promise outcome) (bets_on m st)) o st)
    as [[e|l] st1] eqn:Hall; simpl.
  { pose proof (promise_all_frame outcome o (bets_on m st) st) as [_ Hms].
    rewrite Hall in Hms. simpl in Hms.
    apply promise_all_failed in Hall. unfold ret. intros H. inversion H. subst.
    eexists. split; [reflexivity|]. simpl. auto. }
  apply promise_all_ok in Hall as [-> ->].
  unfold bind, updateMarket, pool_query, ret.
  destruct (o (UpdateMarket m)) eqn:Ho3; simpl.
  { intros H. inversion H. subst. eexists. split; [reflexivity|]. simpl.
    split; [eauto|]. split; [exact Hbets|].
    apply (all_paid_frame outcome (bets_on m st) st). }
  intros H. inversion H. subst. eexists. split; [reflexivity|]. simpl.
  split; [reflexivity|]. split; [eauto|]. split; [exact Hne|].
  split; reflexivity.
Qed.




End Resolution.

(** X24.  The resolve branch never throws, and each of its answers is
    justified whatever statements fail: a refusal (no admin, no such
    market, already resolved, no bets) says what it says and leaves the
    tables as they were; the market is announced as resolved only to an
    admin, for a market that was not resolved and had bets; and an error is
    a statement the store failed, after which the bets and the market rows
    are as they were. *)
Theorem resolve_answers_are_justified
    (isAdmin : bool) (now : Z) (marketId : string) (outcome : bool)
    (o : Db.oracle) (st : Db.db) (res : Db.error + Db.reply) (st' : Db.db) :
  Db.predict_resolve isAdmin now marketId outcome o st = (res, st') ->
  exists rep,
    res = inr rep
    /\ match rep with
       | Db.OnlyAdmins => isAdmin = false /\ st' = st
       | Db.NoSuchMarket => Db.markets st !! marketId = None /\ st' = st
       | Db.AlreadyResolved =>
           (exists market,
              Db.markets st !! marketId = Some market /\ Db.resolved market = true)
           /\ st' = st
       | Db.NoBets => Ledger.bets_on marketId st = [] /\ st' = st
       | Db.MarketResolved payoutSummary =>
           isAdmin = true
           /\ (exists market,
                 Db.markets st !! marketId = Some market /\ Db.resolved market = false)
           /\ length payoutSummary = length (Ledger.bets_on marketId st)
           /\ payoutSummary <> []
       | Db.ErrorReply e =>
           (exists q, e = Db.PersistenceFailure q /\ o q = true)
           /\ Db.bets st' = Db.bets st
           /\ Db.markets st' = Db.markets st
       | Db.InvalidDeadline | Db.MarketCreated _ => False
       end.
Proof.
  intros E.
  destruct (predict_resolve_inv isAdmin now marketId outcome o st) as (rep & Hrep & H).
  rewrite E in Hrep, H. simpl in Hrep, H. exists rep. split; [exact Hrep|].
  destruct rep; try tauto.
  destruct H as (Ha & Hm & Hne & -> & _).
  split; [exact Ha|]. split; [exact Hm|]. rewrite length_map. split; [reflexivity|].
  intros Hnil. apply Hne. destruct (Ledger.bets_on marketId st); [reflexivity|discriminate].
Qed.

Lemma resolve_answers_are_justified_witness :
  exists rep,
    @inr Db.error Db.reply Db.NoBets = inr rep
    /\ match rep with
       | Db.OnlyAdmins => true = false /\ Scenario.created = Scenario.created
       | Db.NoSuchMarket =>
           Db.markets Scenario.created !! "market_1000" = None
           /\ Scenario.created = Scenario.created
       | Db.AlreadyResolved =>
           (exists market,
              Db.markets Scenario.created !! "market_1000" = Some market
              /\ Db.resolved market = true)
           /\ Scenario.created = Scenario.created
       | Db.NoBets =>
           Ledger.bets_on "market_1000" Scenario.created = []
           /\ Scenario.created = Scenario.created
       | Db.MarketResolved payoutSummary =>
           true = true
           /\ (exists market,
                 Db.markets Scenario.created !! "market_1000" = Some market
                 /\ Db.resolved market = false)
           /\ length payoutSummary = length (Ledger.bets_on "market_1000" Scenario.created)
           /\ payoutSummary <> []
       | Db.ErrorReply e =>
           (exists q, e = Db.PersistenceFailure q /\ Db.reliable q = true)
           /\ Db.bets Scenario.created = Db.bets Scenario.created
           /\ Db.markets Scenario.created = Db.markets Scenario.created
       | Db.InvalidDeadline | Db.MarketCreated _ => False
       end.
Proof.
  apply (resolve_answers_are_justified true 1001 "market_1000" true Db.reliable
           Scenario.created (inr Db.NoBets) Scenario.created).
  vm_compute. reflexivity.
Defined.



(* ===================================================================== *)
(** * The life of a market row *)
(* ===================================================================== *)

Section MarketRows.
Import Pricing Db Ledger Books.

(** A request on a resolved market that asks to resolve it again leaves
    the tables as they were. *)
Lemma predict_resolve_resolved (isAdmin : bool) (now : Z) (m : string) (outcome : bool)
    (o : oracle) (st : db) (market : market_row) :
  markets st !! m = Some market -> resolved market = true ->
  snd (predict_resolve isAdmin now m outcome o st) = st.
Proof.
  intros Hm Hres. unfold predict_resolve. destruct isAdmin; simpl; [|reflexivity].
  unfold try_catch, bind, getMarket, pool_query, ret.
  destruct (o (SelectMarket m)); simpl; [reflexivity|].
  rewrite Hm, Hres. reflexivity.
Qed.

(** The market rows after a resolution are those before it, or those with
    the market, which was not resolved, marked resolved. *)
Lemma predict_resolve_markets (isAdmin : bool) (now : Z) (m : string) (outcome : bool)
    (o : oracle) (st : db) :
  markets (snd (predict_resolve isAdmin now m outcome o st)) = markets st
  \/ (exists market, markets st !! m = Some market /\ resolved market = false)
     /\ markets (snd (predict_resolve isAdmin now m outcome o st))
        = alter (set_resolved outcome now) m (markets st).
Proof.
  destruct (predict_resolve_inv isAdmin now m outcome o st) as (rep & _ & H).
  destruct rep as [ | | | | l | | id | e].
  - left. destruct H as (_ & ->). reflexivity.
  - left. destruct H as (_ & _ & ->). reflexivity.
  - left. destruct H as (_ & _ & ->). reflexivity.
  - left. destruct H as (_ & _ & _ & ->). reflexivity.
  - right. destruct H as (_ & Hm & _ & _ & ->). split; [exact Hm|].
    unfold resolved_state. simpl.
    destruct (all_paid_frame outcome (bets_on m st) st) as [_ ->]. reflexivity.
  - contradiction.
  - contradiction.
  - left. destruct H as (_ & _ & ->). reflexivity.
Qed.

(** No request deletes a market row, and a request changes a market row by
    a new price and total, or by marking it resolved when it was not. *)
Lemma exec_market_kept (c : command) (o : oracle) (st : db) (id : string) (m : market_row) :
  markets st !! id = Some m ->
  exists m', markets (exec c o st) !! id = Some m' /\ market_step m m'.
Proof.
  intros Hm. destruct c as [now q cr d | now mk u amt p | isAdmin now mk outcome]; simpl.
  - destruct (predict_create_state now q cr d o st) as [-> | [Hfree ->]].
    + exists m. split; [exact Hm|constructor].
    + exists m. split; [|constructor]. simpl.
      rewrite lookup_insert_ne; [exact Hm|]. intros E. congruence.
  - destruct (placeBet now mk u amt p o st) as [res st'] eqn:E.
    apply placeBet_inv in E. simpl.
    inversion E as [ | | res' market Hp0 Hp1 Hmk Hact Hdl Hav Hres]; subst.
    + exists m. split; [exact Hm|constructor].
    + exists m. split; [rewrite markets_after_getUser; exact Hm|constructor].
    + unfold place_commit. simpl. rewrite markets_after_getUser.
      destruct (decide (mk = id)) as [->|NE].
      * rewrite lookup_alter_eq, Hm. simpl. eexists. split; [reflexivity|constructor].
      * rewrite lookup_alter_ne by exact NE. exists m. split; [exact Hm|constructor].
  - destruct (predict_resolve_markets isAdmin now mk outcome o st)
      as [-> | [(market & Hmk & Hres) ->]].
    + exists m. split; [exact Hm|constructor].
    + destruct (decide (mk = id)) as [->|NE].
      * rewrite lookup_alter_eq, Hm. simpl. eexists. split; [reflexivity|].
        constructor. congruence.
      * rewrite lookup_alter_ne by exact NE. exists m. split; [exact Hm|constructor].
Qed.

(** A market row after a request was there before it, or is the row of a
    market just created under an id that was free. *)
Lemma exec_market_origin (c : command) (o : oracle) (st : db) (id : string)
    (m' : market_row) :
  markets (exec c o st) !! id = Some m' ->
  (exists m, markets st !! id = Some m /\ market_step m m')
  \/ (exists now q cr d,
        c = Create now q cr d /\ id = market_id_at now /\ now <= d
        /\ markets st !! id = None /\ m' = fresh_market q cr d).
Proof.
  intros Hm'. destruct (markets st !! id) as [m|] eqn:Hm.
  - left. destruct (exec_market_kept c o st id m Hm) as (m'' & Hm'' & Hstep).
    exists m. split; [reflexivity|]. congruence.
  - right. destruct c as [now q cr d | now mk u amt p | isAdmin now mk outcome];
      simpl in Hm'.
    + revert Hm'. unfold predict_create, try_catch.
      destruct (d <? now) eqn:Hd; simpl; [congruence|].
      unfold bind, createMarket, ret.
      destruct (o (InsertMarket ("market_" +:+ pretty now))); simpl; [congruence|].
      destruct (markets st !! ("market_" +:+ pretty now)) eqn:E; simpl; [congruence|].
      destruct (decide ("market_" +:+ pretty now = id)) as [<-|NE].
      * rewrite lookup_insert_eq. intros H. inversion H.
        exists now, q, cr, d. apply Z.ltb_ge in Hd. repeat split; auto.
      * rewrite lookup_insert_ne by exact NE. congruence.
    + exfalso. destruct (placeBet now mk u amt p o st) as [res st'] eqn:E.
      apply placeBet_inv in E. simpl in Hm'.
      inversion E as [ | | res' market Hp0 Hp1 Hmk Hact Hdl Hav Hres]; subst.
      * congruence.
      * rewrite markets_after_getUser in Hm'. congruence.
      * unfold place_commit in Hm'. simpl in Hm'. rewrite markets_after_getUser in Hm'.
        destruct (decide (mk = id)) as [->|NE]; [congruence|].
        rewrite lookup_alter_ne in Hm' by exact NE. congruence.
    + exfalso.
      destruct (predict_resolve_markets isAdmin now mk outcome o st)
        as [E | [(market & Hmk & Hres) E]]; rewrite E in Hm'; [congruence|].
      destruct (decide (mk = id)) as [->|NE]; [congruence|].
      rewrite lookup_alter_ne in Hm' by exact NE. congruence.
Qed.

Lemma market_step_well_formed (id : string) (m m' : market_row) :
  market_step m m' -> market_well_formed id m -> market_well_formed id m'.
Proof.
  intros Hstep (Hid & Hact & Hopen & Hclosed). destruct Hstep as [|pr ts|outcome now Hres].
  - repeat split; auto; try apply Hopen; try apply Hclosed; auto.
  - unfold market_well_formed. simpl. repeat split; auto;
      try (apply Hopen; assumption); try (apply Hclosed; assumption).
  - unfold market_well_formed. simpl. repeat split; auto; try discriminate; eauto.
Qed.

Lemma reachable_markets_well_formed (st : db) :
  reachable st ->
  forall id m, markets st !! id = Some m -> market_well_formed id m.
Proof.
  induction 1 as [|c o st Hreach IH]; intros id m' Hm'.
  - simpl in Hm'. rewrite lookup_empty in Hm'. discriminate.
  - apply exec_market_origin in Hm'
      as [(m & Hm & Hstep) | (now & q & cr & d & _ & -> & Hd & _ & ->)].
    + eapply market_step_well_formed; [exact Hstep|]. apply IH, Hm.
    + unfold market_well_formed, fresh_market. simpl.
      repeat split; eauto; discriminate.
Qed.

End MarketRows.

(** X26.  Whatever the request and whatever statements fail, a market row
    is never deleted or replaced: the question, the creator, the deadline
    and the flag [active] stay as they are; and once the market is
    resolved, its outcome and the instant of its resolution stay as they
    are too.  To resolve a resolved market again changes nothing at all,
    so nobody is paid twice. *)
Theorem market_rows_only_move_forward
    (c : Ledger.command) (o : Db.oracle) (st : Db.db) (marketId : string)
    (market : Db.market_row) :
  Db.markets st !! marketId = Some market ->
  (exists market',
     Db.markets (Ledger.exec c o st) !! marketId = Some market'
     /\ (Db.question market', Db.creator market', Db.deadline market', Db.active market')
        = (Db.question market, Db.creator market, Db.deadline market, Db.active market)
     /\ (Db.resolved market = true ->
         (Db.resolved market', Db.resolution market', Db.resolved_at market')
         = (true, Db.resolution market, Db.resolved_at market)))
  /\ (Db.resolved market = true ->
      forall isAdmin now outcome,
        Ledger.exec (Ledger.Resolve isAdmin now marketId outcome) o st = st).
Proof.
  intros Hm. split.
  - destruct (exec_market_kept c o st marketId market Hm) as (market' & Hm' & Hstep).
    exists market'. split; [exact Hm'|].
    destruct Hstep as [|pr ts|outcome now Hres]; simpl.
    + split; [reflexivity|]. intros ->. reflexivity.
    + split; [reflexivity|]. intros ->. reflexivity.
    + split; [reflexivity|]. congruence.
  - intros Hres isAdmin now outcome. simpl.
    apply (predict_resolve_resolved isAdmin now marketId outcome o st market Hm Hres).
Qed.

Lemma market_rows_only_move_forward_witness :
  let st := Scenario.resolved_yes in
  let c := Ledger.Place 1004 "market_1000" "alice" 90 (6 # 10) in
  let market := {| Db.question := "Will we ship?"; Db.creator := "carol";
                   Db.deadline := 5000; Db.resolved := true;
                   Db.resolution := Some true; Db.resolved_at := Some 1003;
                   Db.probability := Some (7800 # 10000)%Q; Db.total_stake := 100;
                   Db.active := true |} in
  (exists market',
     Db.markets (Ledger.exec c Db.reliable st) !! "market_1000" = Some market'
     /\ (Db.question market', Db.creator market', Db.deadline market', Db.active market')
        = (Db.question market, Db.creator market, Db.deadline market, Db.active market)
     /\ (Db.resolved market = true ->
         (Db.resolved market', Db.resolution market', Db.resolved_at market')
         = (true, Db.resolution market, Db.resolved_at market)))
  /\ (Db.resolved market = true ->
      forall isAdmin now outcome,
        Ledger.exec (Ledger.Resolve isAdmin now "market_1000" outcome) Db.reliable st = st).
Proof.
  intros st c market.
  apply (market_rows_only_move_forward c Db.reliable st "market_1000" market).
  vm_compute. reflexivity.
Defined.

(** X27.  In every state the requests can reach, whatever statements failed
    on the way, every market is active, its id is [market_] and the instant
    it was created at, that instant is not after its deadline, and it has
    an outcome and an instant of resolution exactly when it is resolved. *)
Theorem every_market_is_well_formed
    (st : Db.db) (marketId : string) (market : Db.market_row) :
  Ledger.reachable st ->
  Db.markets st !! marketId = Some market ->
  (exists now, marketId = ("market_" +:+ pretty now) /\ now <= Db.deadline market)
  /\ Db.active market = true
  /\ (Db.resolved market = false ->
      Db.resolution market = None /\ Db.resolved_at market = None)
  /\ (Db.resolved market = true ->
      is_Some (Db.resolution market) /\ is_Some (Db.resolved_at market)).
Proof.
  intros Hreach Hm. exact (reachable_markets_well_formed st Hreach marketId market Hm).
Qed.

Lemma every_market_is_well_formed_witness :
  let market := {| Db.question := "Will we ship?"; Db.creator := "carol";
                   Db.deadline := 5000; Db.resolved := true;
                   Db.resolution := Some true; Db.resolved_at := Some 1003;
                   Db.probability := Some (7800 # 10000)%Q; Db.total_stake := 100;
                   Db.active := true |} in
  (exists now, "market_1000"%string = ("market_" +:+ pretty now)
               /\ now <= Db.deadline market)
  /\ Db.active market = true
  /\ (Db.resolved market = false ->
      Db.resolution market = None /\ Db.resolved_at market = None)
  /\ (Db.resolved market = true ->
      is_Some (Db.resolution market) /\ is_Some (Db.resolved_at market)).
Proof.
  intros market.
  apply (every_market_is_well_formed Scenario.resolved_yes "market_1000" market).
  - unfold Scenario.resolved_yes, Scenario.both_bet, Scenario.alice_bet, Scenario.created.
    repeat constructor.
  - vm_compute. reflexivity.
Defined.

(** X28.  The create branch never throws, and each of its answers is
    justified whatever statements fail: the deadline is refused only when
    it is before the instant of the request; a market is announced under
    the id [market_] and that instant, which was free, and it is then the
    one row added, at one half, with no stake, not resolved; an error is a
    market of that id already there (a second creation in the same
    millisecond) or a failure of the insert; and but for the one row added
    the tables are as they were. *)
Theorem create_answers_are_justified
    (now : Z) (question_text creator_id : string) (deadline_at : Z)
    (o : Db.oracle) (st : Db.db) (res : Db.error + Db.reply) (st' : Db.db) :
  Db.predict_create now question_text creator_id deadline_at o st = (res, st') ->
  exists rep,
    res = inr rep
    /\ match rep with
       | Db.InvalidDeadline => deadline_at < now /\ st' = st
       | Db.MarketCreated marketId =>
           marketId = ("market_" +:+ pretty now)
           /\ now <= deadline_at
           /\ Db.markets st !! marketId = None
           /\ st' = Db.with_markets st
                      (<[marketId :=
                           {| Db.question := question_text; Db.creator := creator_id;
                              Db.deadline := deadline_at; Db.resolved := false;
                              Db.resolution := None; Db.resolved_at := None;
                              Db.probability := Some (1 # 2)%Q; Db.total_stake := 0;
                              Db.active := true |}]> (Db.markets st))
       | Db.ErrorReply e =>
           now <= deadline_at /\ st' = st
           /\ (e = Db.DuplicateId ("market_" +:+ pretty now)
               /\ is_Some (Db.markets st !! ("market_" +:+ pretty now))
               \/ e = Db.PersistenceFailure (Db.InsertMarket ("market_" +:+ pretty now))
                  /\ o (Db.InsertMarket ("market_" +:+ pretty now)) = true)
       | _ => False
       end.
Proof.
  unfold Db.predict_create, Db.try_catch.
  destruct (deadline_at <? now) eqn:Hd; simpl.
  { unfold Db.ret. intros H. inversion H; subst. exists Db.InvalidDeadline.
    split; [reflexivity|]. split; [apply Z.ltb_lt, Hd|reflexivity]. }
  apply Z.ltb_ge in Hd.
  unfold Db.bind, Db.createMarket, Db.ret.
  destruct (o (Db.InsertMarket ("market_" +:+ pretty now))) eqn:Ho; simpl.
  { intros H. inversion H; subst. eexists. split; [reflexivity|]. simpl. auto. }
  destruct (Db.markets st !! ("market_" +:+ pretty now)) eqn:E; simpl.
  { intros H. inversion H; subst. eexists. split; [reflexivity|]. simpl.
    split; [exact Hd|]. split; [reflexivity|]. left. split; [reflexivity|].
    rewrite ?E. eauto. }
  intros H. inversion H; subst. eexists. split; [reflexivity|]. simpl.
  split; [reflexivity|]. split; [exact Hd|]. split; [exact E|reflexivity].
Qed.

Lemma create_answers_are_justified_witness :
  exists rep,
    @inr Db.error Db.reply (Db.ErrorReply (Db.DuplicateId "market_1000")) = inr rep
    /\ match rep with
       | Db.InvalidDeadline => 7000 < 1000 /\ Scenario.created = Scenario.created
       | Db.MarketCreated marketId =>
           marketId = ("market_" +:+ pretty 1000)
           /\ 1000 <= 7000
           /\ Db.markets Scenario.created !! marketId = None
           /\ Scenario.created
              = Db.with_markets Scenario.created
                  (<[marketId :=
                       {| Db.question := "Or not?"; Db.creator := "dave";
                          Db.deadline := 7000; Db.resolved := false;
                          Db.resolution := None; Db.resolved_at := None;
                          Db.probability := Some (1 # 2)%Q; Db.total_stake := 0;
                          Db.active := true |}]> (Db.markets Scenario.created))
       | Db.ErrorReply e =>
           1000 <= 7000 /\ Scenario.created = Scenario.created
           /\ (e = Db.DuplicateId ("market_" +:+ pretty 1000)
               /\ is_Some (Db.markets Scenario.created !! ("market_" +:+ pretty 1000))
               \/ e = Db.PersistenceFailure (Db.InsertMarket ("market_" +:+ pretty 1000))
                  /\ Db.reliable (Db.InsertMarket ("market_" +:+ pretty 1000)) = true)
       | _ => False
       end.
Proof.
  apply (create_answers_are_justified 1000 "Or not?" "dave" 7000 Db.reliable
           Scenario.created
           (inr (Db.ErrorReply (Db.DuplicateId "market_1000"))) Scenario.created).
  vm_compute. reflexivity.
Defined.
